(** * Gemini in Chrome: a shallow embedding of the agent core

    The development follows the TypeScript sources:
    - [JsString], [JsNum], [Js]: the JavaScript strings, numbers, values
      and thrown errors the code relies on ([includes], [toLowerCase],
      [trim], [Array.prototype.slice], [err.message], ...);
    - [Session]: the conversation log ([recentEntries], [toGeminiHistory]);
    - [Regex], [Retry]: the rate-limit retry loop [withRetry] and the
      pattern it parses the delay with;
    - [Chrome], [Click]: the CDP client ([ensureConnected]) and the element
      resolution script of [click];
    - [FileTools], [Tools]: [editFileTool] and the router [executeTool];
    - [Orchestrator]: the turn loop [processResponse];
    - [Gemini]: [parseResponse] of the model client;
    - [Jsonl], [Memory]: the files of the session log and of the memory
      ([load], [append], [save], [loadRecent]) and [timeAgo];
    - [Attach], [Navigate], [PageText], [TypeInto]: [attach] and
      [detach], [navigate], the script of [getPageText] and the element
      resolution of [type];
    - [Shell]: [searchFilesTool] and [runCommandTool];
    - [Turn], [Startup]: [sendToGemini], the handler of Ctrl+C and
      [start].
    The modules of definitions come first; the facts about them follow
    in the second part.

    JavaScript strings are modelled as [string] (one [ascii] per code
    unit, so code units below 256); the case and whitespace functions are
    the JavaScript ones on these code units.  Output to the terminal is
    left out. *)

From Stdlib Require Import ZArith QArith Qround List Ascii Bool Lia.
From Stdlib Require String.
From stdpp Require Import gmap strings list pretty.

Local Open Scope Z_scope.

(** * Definitions *)

(** ** JavaScript strings *)

Module JsString.

(** [s.startsWith(p)] *)
Definition startsWith (p s : string) : bool := String.prefix p s.

(** [hay.includes(needle)] *)
Fixpoint includes (needle hay : string) : bool :=
  String.prefix needle hay ||
  match hay with
  | EmptyString => false
  | String _ rest => includes needle rest
  end.

(** The code units below 256 that [toLowerCase] changes: [A] to [Z], and
    the capital letters of Latin-1, 192 to 222 without the multiplication
    sign 215; each is 32 below its small letter. *)
Definition is_upper (c : ascii) : bool :=
  let n := nat_of_ascii c in
  ((65 <=? n) && (n <=? 90)
   || (192 <=? n) && (n <=? 222) && negb (n =? 215))%nat.

Definition lower_char (c : ascii) : ascii :=
  if is_upper c then ascii_of_nat (nat_of_ascii c + 32) else c.

(** [s.toLowerCase()] *)
Fixpoint toLowerCase (s : string) : string :=
  match s with
  | EmptyString => EmptyString
  | String c rest => String (lower_char c) (toLowerCase rest)
  end.

(** White space and line terminators stripped by [trim], among the code
    units below 256: tab, line feed, vertical tab, form feed, carriage
    return, space and the no-break space 160. *)
Definition is_js_space (c : ascii) : bool :=
  let n := nat_of_ascii c in
  ((n =? 9) || (n =? 10) || (n =? 11) || (n =? 12) || (n =? 13) || (n =? 32)
   || (n =? 160))%nat.

Fixpoint trimStart (s : string) : string :=
  match s with
  | EmptyString => EmptyString
  | String c rest => if is_js_space c then trimStart rest else s
  end.

Definition trimEnd (s : string) : string :=
  String.rev (trimStart (String.rev s)).

(** [s.trim()] *)
Definition trim (s : string) : string := trimEnd (trimStart s).

(** [s.slice(0, n)] for a non-negative [n]. *)
Definition slice0 (n : nat) (s : string) : string := String.substring 0 n s.

(** [s.slice(n)] for a non-negative [n]. *)
Fixpoint sliceFrom (n : nat) (s : string) : string :=
  match n, s with
  | O, _ => s
  | S _, EmptyString => EmptyString
  | S m, String _ rest => sliceFrom m rest
  end.

(** [parts.join(sep)] *)
Fixpoint join (sep : string) (parts : list string) : string :=
  match parts with
  | [] => EmptyString
  | [p] => p
  | p :: rest => p +:+ sep +:+ join sep rest
  end.

(** The double quote and the line feed, written by code. *)
Definition dq : string := String "034"%char EmptyString.
Definition nl : string := String "010"%char EmptyString.

End JsString.

(** ** JavaScript numbers that hold an integer or NaN *)

Module JsNum.

(** The result of [parseInt(s, 10)]: an integer, or [NaN] when [s] has no
    leading digits. *)
Inductive jsint : Type :=
| NaN
| Int (z : Z).

Definition mul (a : jsint) (k : Z) : jsint :=
  match a with NaN => NaN | Int z => Int (z * k) end.

Definition neg (a : jsint) : jsint :=
  match a with NaN => NaN | Int z => Int (- z) end.

(** [n <= a], false when [a] is NaN. *)
Definition le_nat (n : nat) (a : jsint) : bool :=
  match a with NaN => false | Int z => Z.of_nat n <=? z end.

(** ToIntegerOrInfinity: NaN becomes 0. *)
Definition toInteger (a : jsint) : Z :=
  match a with NaN => 0 | Int z => z end.

(** [arr.slice(start)]: a negative start counts from the end. *)
Definition slice {A : Type} (start : jsint) (arr : list A) : list A :=
  let len := Z.of_nat (length arr) in
  let rel := toInteger start in
  let k := if rel <? 0 then Z.max (len + rel) 0 else Z.min rel len in
  drop (Z.to_nat k) arr.

End JsNum.

(** ** The session log *)

Module Session.
Import JsNum.

Inductive Role : Type := user | model | tool_call | tool_result | system.

Record LogEntry : Type := mkEntry {
  timestamp : string;
  role : Role;
  content : string;
  metadata : option (gmap string string)
}.

(** The two roles of a Gemini history block. *)
Inductive GRole : Type := User | Model.

Definition GRole_eqb (a b : GRole) : bool :=
  match a, b with
  | User, User | Model, Model => true
  | _, _ => false
  end.

Record Block : Type := mkBlock {
  brole : GRole;
  parts : list string
}.

Definition is_system (e : LogEntry) : bool :=
  match role e with system => true | _ => false end.

(** [recentEntries()], with [config.contextTurns] as a parameter. *)
Definition recentEntries (contextTurns : jsint) (entries : list LogEntry)
  : list LogEntry :=
  let maxEntries := mul contextTurns 2 in
  if le_nat (length entries) maxEntries then entries
  else
    let first :=
      match entries with
      | e0 :: _ => if is_system e0 then [e0] else []
      | [] => []
      end in
    let recent := slice (neg maxEntries) entries in
    first ++ recent.

(** The block pushed for one entry by the first loop of
    [toGeminiHistory]; system entries push nothing. *)
Definition to_block (e : LogEntry) : option Block :=
  match role e with
  | user => Some (mkBlock User [content e])
  | model => Some (mkBlock Model [content e])
  | tool_call => Some (mkBlock Model ["[Tool Call] " +:+ content e])
  | tool_result => Some (mkBlock User ["[Tool Result] " +:+ content e])
  | system => None
  end.

(** [while (a.length > 0 && p(a[0])) a.shift()] *)
Fixpoint shift_while {A : Type} (p : A -> bool) (a : list A) : list A :=
  match a with
  | [] => []
  | x :: rest => if p x then shift_while p rest else a
  end.

(** [while (a.length > 0 && p(a[a.length - 1])) a.pop()] *)
Definition pop_while {A : Type} (p : A -> bool) (a : list A) : list A :=
  rev (shift_while p (rev a)).

Definition is_model (b : Block) : bool := GRole_eqb (brole b) Model.
Definition is_user (b : Block) : bool := GRole_eqb (brole b) User.

(** One iteration of the merge loop: extend the parts of the last merged
    block, or push the entry. *)
Definition merge_step (merged : list Block) (entry : Block) : list Block :=
  match last merged with
  | Some l =>
      if GRole_eqb (brole l) (brole entry)
      then removelast merged ++ [mkBlock (brole l) (parts l ++ parts entry)]
      else merged ++ [entry]
  | None => merged ++ [entry]
  end.

Definition toGeminiHistory (contextTurns : jsint) (entries : list LogEntry)
  : list Block :=
  let recent := recentEntries contextTurns entries in
  let history := omap to_block recent in
  let history := shift_while is_model history in
  let merged := fold_left merge_step history [] in
  pop_while is_user merged.

End Session.

(** ** Thrown values and the outcome of an awaited call *)

Module Js.

(** A thrown value: an [Error] with its [message], or an object without
    one ([message] undefined).  Every [throw] of the repository and every
    rejection of its libraries is an [Error]. *)
Record Thrown : Type := mkThrown { message : option string }.

Definition Error (msg : string) : Thrown := mkThrown (Some msg).

(** A promise that settles: resolved with a value or rejected. *)
Inductive outcome (A : Type) : Type :=
| Ok (a : A)
| Throw (e : Thrown).
Arguments Ok {A} a.
Arguments Throw {A} e.

(** [err.message || ''] *)
Definition message_or_empty (e : Thrown) : string :=
match message e with
| Some m => m
| None => EmptyString
end.

(** The text of [err.message] inside a template literal. *)
Definition message_text (e : Thrown) : string :=
match message e with
| Some m => m
| None => "undefined"
end.

(** The values a tool argument can hold. *)
Inductive jsval : Type :=
| JUndefined
| JNull
| JBool (b : bool)
| JNumber (n : JsNum.jsint)
| JString (s : string)
| JObject.

(** An argument record; [args.k] is [undefined] for a missing key. *)
Definition get (args : gmap string jsval) (k : string) : jsval :=
  default JUndefined (args !! k).

(** ToBoolean *)
Definition truthy (v : jsval) : bool :=
match v with
| JUndefined | JNull => false
| JBool b => b
| JNumber JsNum.NaN => false
| JNumber (JsNum.Int z) => negb (z =? 0)
| JString s => negb (String.eqb s EmptyString)
| JObject => true
end.

(** The text of a value inside a template literal. *)
Definition to_text (v : jsval) : string :=
match v with
| JUndefined => "undefined"
| JNull => "null"
| JBool true => "true"
| JBool false => "false"
| JNumber JsNum.NaN => "NaN"
| JNumber (JsNum.Int z) => pretty z
| JString s => s
| JObject => "[object Object]"
end.

(** Sequencing of awaited calls inside one [try] block: the first
    rejection leaves the block. *)
#[export] Instance outcome_ret : MRet outcome := fun _ a => Ok a.
#[export] Instance outcome_bind : MBind outcome := fun _ _ f o =>
  match o with
  | Ok a => f a
  | Throw e => Throw e
  end.

End Js.

(** ** A backtracking matcher for the regular expressions of the code *)

Module Regex.

Inductive re : Type :=
| Eps
| Chr (p : ascii -> bool)
| Seq (r1 r2 : re)
| Alt (r1 r2 : re)
| Star (greedy : bool) (r : re)
| Group (r : re).

(** A matcher takes the remaining input, the current capture of group 1
    and a continuation; it returns the first result of the continuation
    in backtracking order. *)
Definition matcher (R : Type) : Type :=
  string -> option string -> (string -> option string -> option R) -> option R.

(** [r*] and [r*?]: an iteration that consumes nothing is rejected, so
    [S (length s)] rounds are enough. *)
Fixpoint star {R : Type} (mr : matcher R) (greedy : bool) (fuel : nat)
  : matcher R :=
fun s c k =>
  match fuel with
  | O => None
  | S fuel' =>
      let more :=
        mr s c (fun s' c' =>
          if (String.length s' <? String.length s)%nat
          then star mr greedy fuel' s' c' k
          else None) in
      if greedy then
        match more with Some x => Some x | None => k s c end
      else
        match k s c with Some x => Some x | None => more end
  end.

Fixpoint m {R : Type} (r : re) : matcher R :=
match r with
| Eps => fun s c k => k s c
| Chr p => fun s c k =>
    match s with
    | String a s' => if p a then k s' c else None
    | EmptyString => None
    end
| Seq r1 r2 => fun s c k => m r1 s c (fun s' c' => m r2 s' c' k)
| Alt r1 r2 => fun s c k =>
    match m r1 s c k with Some x => Some x | None => m r2 s c k end
| Star greedy r => fun s c k => star (m r) greedy (S (String.length s)) s c k
| Group r => fun s c k =>
    m r s c (fun s' _ =>
      k s' (Some (String.substring 0 (String.length s - String.length s') s)))
end.

(** [str.match(r)] without the [g] flag: the leftmost match; the result is
    the capture of group 1 ([None] when the group did not take part). *)
Fixpoint search (r : re) (s : string) : option (option string) :=
match m r s None (fun _ c => Some c) with
| Some c => Some c
| None =>
    match s with
    | String _ s' => search r s'
    | EmptyString => None
    end
end.

Definition Plus (r : re) : re := Seq r (Star true r).
Definition Opt (r : re) : re := Alt r Eps.

(** The literal [lit] under the [i] flag. *)
Fixpoint Lit_ci (lit : string) : re :=
match lit with
| EmptyString => Eps
| String a rest =>
    Seq (Chr (fun b => Ascii.eqb (JsString.lower_char b) (JsString.lower_char a)))
        (Lit_ci rest)
end.

(** [\d] *)
Definition is_digit (a : ascii) : bool :=
  let n := nat_of_ascii a in ((48 <=? n) && (n <=? 57))%nat.

(** [.]: anything but a line terminator. *)
Definition is_dot_char (a : ascii) : bool :=
  let n := nat_of_ascii a in negb ((n =? 10) || (n =? 13))%nat.

Fixpoint group_free (r : re) : bool :=
match r with
| Eps | Chr _ => true
| Seq r1 r2 | Alt r1 r2 => group_free r1 && group_free r2
| Star _ r => group_free r
| Group _ => false
end.

End Regex.

(** ** The rate-limit retry loop *)

Module Retry.
Import Js Regex.

(** [msg.includes("429") || msg.includes("quota") ||
     msg.includes("Resource exhausted")] *)
Definition isRateLimit (msg : string) : bool :=
  JsString.includes "429" msg ||
  JsString.includes "quota" msg ||
  JsString.includes "Resource exhausted" msg.

(** [/retry.*?(\d+)\.?\d*s/i] *)
Definition retry_re : re :=
  Seq (Lit_ci "retry")
 (Seq (Star false (Chr is_dot_char))
 (Seq (Group (Plus (Chr is_digit)))
 (Seq (Opt (Chr (Ascii.eqb ".")))
 (Seq (Star true (Chr is_digit))
      (Lit_ci "s"))))).

(** [msg.match(/retry.*?(\d+)\.?\d*s/i)], reduced to [retryMatch[1]]. *)
Definition retryMatch (msg : string) : option (option string) :=
  search retry_re msg.

Fixpoint digits_value (acc : Z) (s : string) : Z :=
match s with
| EmptyString => acc
| String a rest => digits_value (acc * 10 + (Z.of_nat (nat_of_ascii a) - 48)) rest
end.

(** [Number(d)] for a string of decimal digits. *)
Definition Number (d : string) : Q := inject_Z (digits_value 0 d).

(** [Math.ceil] *)
Definition Math_ceil (q : Q) : Z := Qceiling q.

(** The delay in seconds computed in the [catch] block:
    [retryMatch ? Math.ceil(Number(retryMatch[1])) + 2 : 10 * (attempt + 1)].
    Group 1 takes part in every match of [retry_re]
    ([retryMatch_group]), so the middle case does not arise. *)
Definition waitSec (msg : string) (attempt : nat) : Z :=
match retryMatch msg with
| Some (Some d) => Math_ceil (Number d) + 2
| Some None => 0
| None => 10 * (Z.of_nat attempt + 1)
end.

Section WithRetry.
Context {W T : Type}.

(** [await sleep(ms)] on the world. *)
Variable sleep : Z -> W -> W.

(** The [for] loop of [withRetry]: [fuel] counts the iterations left,
    [attempt] is the loop variable. *)
Fixpoint withRetry_loop (fn : W -> outcome T * W) (maxRetries fuel attempt : nat)
  (w : W) : outcome T * W :=
match fuel with
| O => (Throw (Error "Unreachable"), w)
| S fuel' =>
    match fn w with
    | (Ok v, w1) => (Ok v, w1)
    | (Throw err, w1) =>
        let msg := message_or_empty err in
        if isRateLimit msg && (attempt <? maxRetries)%nat then
          let w2 := sleep (waitSec msg attempt * 1000) w1 in
          withRetry_loop fn maxRetries fuel' (S attempt) w2
        else (Throw err, w1)
    end
end.

Definition withRetry (fn : W -> outcome T * W) (maxRetries : nat) (w : W)
  : outcome T * W :=
  withRetry_loop fn maxRetries (S maxRetries) 0 w.

End WithRetry.

(** The default [maxRetries = 5]. *)
Definition defaultMaxRetries : nat := 5.

(** A world for running [withRetry] on its own: the number of calls of
    [fn] made so far and the sleeps performed, oldest first. *)
Record RetryWorld : Type := mkRetryWorld {
  calls_made : nat;
  sleeps : list Z
}.

Definition record_sleep (ms : Z) (w : RetryWorld) : RetryWorld :=
  mkRetryWorld (calls_made w) (sleeps w ++ [ms]).

(** A call whose successive outcomes are read from a script. *)
Definition scripted {T : Type} (script : list (outcome T)) (w : RetryWorld)
  : outcome T * RetryWorld :=
  (match script !! calls_made w with
   | Some o => o
   | None => Throw (Error "script exhausted")
   end,
   mkRetryWorld (S (calls_made w)) (sleeps w)).

End Retry.

(** ** The browser session manager *)

Module Chrome.
Import Js JsString.

Record TabInfo : Type := mkTab {
  id : string;
  title : string;
  url : string;
  webSocketDebuggerUrl : option string
}.

(** A target as [CDP.List] reports it. *)
Record CDPTarget : Type := mkTarget {
  target_id : string;
  target_type : string;
  target_title : string;
  target_url : string;
  target_ws : option string
}.

(** A CDP connection, known by the target it was opened on. *)
Record Client : Type := mkClient { target : string }.

(** The fields [client] and [currentTab] of [ChromeClient]. *)
Record ChromeClient : Type := mkChrome {
  client : option Client;
  currentTab : option TabInfo
}.

(** The remote-debugging collaborator during one call: what each request
    answers. *)
Record Cdp : Type := mkCdp {
  cdpHost : string;
  cdpPort : string;
  List_targets : outcome (list CDPTarget);
  connect : string -> outcome unit;
  Page_enable : Client -> outcome unit;
  Runtime_enable : Client -> outcome unit;
  DOM_enable : Client -> outcome unit;
  Runtime_evaluate_1 : Client -> outcome unit
}.

Definition to_tab (t : CDPTarget) : TabInfo :=
  mkTab (target_id t)
        (if String.eqb (target_title t) EmptyString then "(untitled)"
         else target_title t)
        (target_url t)
        (target_ws t).

(** [listTabs()] *)
Definition listTabs (cdp : Cdp) : outcome (list TabInfo) :=
match List_targets cdp with
| Ok targets =>
    Ok (map to_tab
          (List.filter (fun t => String.eqb (target_type t) "page") targets))
| Throw err =>
    Throw (Error
      ("Cannot connect to Chrome on " +:+ cdpHost cdp +:+ ":" +:+ cdpPort cdp +:+ "." +:+ nl +:+
       "Make sure Chrome is running with --remote-debugging-port=" +:+ cdpPort cdp +:+ nl +:+
       "Error: " +:+ message_text err))
end.

(** The [try] block of the reconnection: look the tab up again, open a
    connection to it and enable the domains. *)
Definition reconnect (cdp : Cdp) (tabId : string) : outcome (Client * TabInfo) :=
  tabs ← listTabs cdp;
  let tab := List.find (fun t => String.eqb (id t) tabId) tabs in
  let tab :=
    match tab with
    | None => if (0 <? length tabs)%nat then head tabs else None
    | Some t => Some t
    end in
  match tab with
  | None => Throw (Error "Tab no longer exists")
  | Some tab =>
      _ ← connect cdp (id tab);
      let cl := mkClient (id tab) in
      _ ← Page_enable cdp cl;
      _ ← Runtime_enable cdp cl;
      _ ← DOM_enable cdp cl;
      mret (cl, tab)
  end.

(** [ensureConnected()]: the client to use, or the error thrown, and the
    fields afterwards. *)
Definition ensureConnected (cdp : Cdp) (st : ChromeClient)
  : outcome Client * ChromeClient :=
match client st with
| None =>
    (Throw (Error
       "Not connected to any Chrome tab. Use chrome_list_tabs and chrome_attach first."),
     st)
| Some cl =>
    match Runtime_evaluate_1 cdp cl with
    | Ok _ => (Ok cl, st)
    | Throw _ =>
        match currentTab st with
        | Some cur =>
            let tabId := id cur in
            match reconnect cdp tabId with
            | Ok (cl', tab) => (Ok cl', mkChrome (Some cl') (Some tab))
            | Throw reconnectErr =>
                (Throw (Error
                   ("Lost connection to Chrome tab and could not reconnect: "
                    +:+ message_text reconnectErr)),
                 mkChrome None None)
            end
        | None =>
            (Throw (Error
               "Lost connection to Chrome tab. Use /tabs and /attach to reconnect."),
             st)
        end
    end
end.

End Chrome.

(** ** Element resolution of [click] *)

Module Click.
Import Js JsString.

(** A DOM element, as far as the script of [click] looks at it. *)
Record Element : Type := mkElement {
  tagName : string;
  textContent : string;
  attributes : gmap string string;
  rendered : bool   (* [offsetParent !== null] *)
}.

(** [el.getAttribute(name)]: [None] is [null]. *)
Definition getAttribute (el : Element) (name : string) : option string :=
  attributes el !! name.

(** The page: its elements in document order, and the selector engine of
    the browser ([selector_valid] is false where [querySelector] throws a
    SyntaxError). *)
Record Page : Type := mkPage {
  elements : list Element;
  selector_valid : string -> bool;
  matches : string -> Element -> bool
}.

Definition querySelector (page : Page) (sel : string) : outcome (option Element) :=
  if selector_valid page sel
  then Ok (List.find (matches page sel) (elements page))
  else Throw (Error "SyntaxError").

Definition querySelectorAll (page : Page) (sel : string) : list Element :=
  List.filter (matches page sel) (elements page).

(** [a || b] where [a] is a string or [null]. *)
Definition or_else (a : option string) (b : option string) : option string :=
match a with
| Some s => if String.eqb s EmptyString then b else Some s
| None => b
end.

(** [a, button, [role="button"], input[type="submit"], input[type="button"]] *)
Definition clickable_selector : string :=
  "a, button, [role=" +:+ dq +:+ "button" +:+ dq +:+ "], input[type=" +:+ dq
  +:+ "submit" +:+ dq +:+ "], input[type=" +:+ dq +:+ "button" +:+ dq +:+ "]".

(** [(c.textContent || c.getAttribute('aria-label') ||
      c.getAttribute('value') || '').toLowerCase().trim()] *)
Definition candidate_text (c : Element) : string :=
  let raw :=
    or_else (or_else (or_else (Some (textContent c))
                              (getAttribute c "aria-label"))
                     (getAttribute c "value"))
            (Some EmptyString) in
  trim (toLowerCase (match raw with Some s => s | None => EmptyString end)).

(** [selectorOrText.toLowerCase().trim()] *)
Definition searchText (selectorOrText : string) : string :=
  trim (toLowerCase selectorOrText).

(** The predicate of [candidates.find] in the text-matching step. *)
Definition candidate_matches (selectorOrText : string) (c : Element) : bool :=
  let t := candidate_text c in
  String.eqb t (searchText selectorOrText) ||
  includes (searchText selectorOrText) t.

(** The predicate of the broader search over all elements. *)
Definition exact_text_matches (selectorOrText : string) (candidate : Element) : bool :=
  String.eqb (trim (toLowerCase (textContent candidate)))
             (searchText selectorOrText)
  && rendered candidate.

(** The element the script ends up with ([None] is [null]). *)
Definition resolve (page : Page) (selectorOrText : string) : option Element :=
  let el :=
    match querySelector page selectorOrText with
    | Ok found => found
    | Throw _ => None
    end in
  let el :=
    match el with
    | Some e => Some e
    | None =>
        let candidates := querySelectorAll page clickable_selector in
        List.find (candidate_matches selectorOrText) candidates
    end in
  let el :=
    match el with
    | Some e => Some e
    | None => List.find (exact_text_matches selectorOrText) (elements page)
    end in
  el.

(** The value of the script evaluated by [click]. *)
Definition click_script (page : Page) (selectorOrText : string) : string :=
match resolve page selectorOrText with
| None => "ERROR: Could not find element matching: " +:+ selectorOrText
| Some el =>
    "Clicked: " +:+ tagName el +:+ " " +:+ dq
    +:+ slice0 80 (trim (textContent el)) +:+ dq
end.

End Click.

(** ** The file tools *)

Module FileTools.
Import Js JsString.

(** [s.split(sep)] for a non-empty separator: [skip] counts the characters
    of a separator just matched that are still to be passed over, [acc] is
    the piece being read. *)
Fixpoint split_go (sep : string) (skip : nat) (acc : string) (s : string)
  : list string :=
match s with
| EmptyString => [acc]
| String c rest =>
    match skip with
    | S k => split_go sep k acc rest
    | O =>
        if String.prefix sep s
        then acc :: split_go sep (String.length sep - 1) EmptyString rest
        else split_go sep 0 (acc +:+ String c EmptyString) rest
    end
end.

Fixpoint code_units (s : string) : list string :=
match s with
| EmptyString => []
| String c rest => String c EmptyString :: code_units rest
end.

(** [s.split(sep)]: with the empty separator, the code units of [s]. *)
Definition split (sep s : string) : list string :=
  if String.eqb sep EmptyString then code_units s
  else split_go sep 0 EmptyString s.

(** GetSubstitution for a string pattern (no capture groups): [$$] is a
    dollar, [$&] the matched text, [$`] the text before the match, [$']
    the text after it; any other dollar is literal. *)
Fixpoint GetSubstitution (matched before after replacement : string) : string :=
match replacement with
| EmptyString => EmptyString
| String d tl =>
    if Ascii.eqb d "$" then
      match tl with
      | String c rest =>
          if Ascii.eqb c "$" then
            "$" +:+ GetSubstitution matched before after rest
          else if Ascii.eqb c "&" then
            matched +:+ GetSubstitution matched before after rest
          else if Ascii.eqb c "`" then
            before +:+ GetSubstitution matched before after rest
          else if Ascii.eqb c "'" then
            after +:+ GetSubstitution matched before after rest
          else String d (GetSubstitution matched before after tl)
      | EmptyString => String d EmptyString
      end
    else String d (GetSubstitution matched before after tl)
end.

(** The scan of [s.replace(pattern, replacement)] for the first occurrence
    of a string pattern; [before] is the text already passed. *)
Fixpoint replace_first (pattern replacement before s : string) : option string :=
  if String.prefix pattern s then
    let after := sliceFrom (String.length pattern) s in
    Some (before +:+ GetSubstitution pattern before after replacement +:+ after)
  else
    match s with
    | EmptyString => None
    | String c rest =>
        replace_first pattern replacement (before +:+ String c EmptyString) rest
    end.

(** [s.replace(pattern, replacement)] with a string pattern. *)
Definition replace (pattern replacement s : string) : string :=
  default s (replace_first pattern replacement EmptyString s).

(** What a path names. *)
Inductive Node : Type :=
| File (content : string)
| Directory.

Section EditFile.

(** [path.resolve(base, p)] and the working directory. *)
Variable path_resolve : string -> string -> string.
Variable _workingDir : string.

Definition resolvePath (p : string) : string :=
  if String.eqb p EmptyString then _workingDir else path_resolve _workingDir p.

(** [editFileTool(filePath, oldString, newString)] on the file system
    [fs]: the text returned, or the error thrown by [readFileSync] on a
    directory, and the file system afterwards. *)
Definition editFileTool (filePath oldString newString : string)
  (fs : gmap string Node) : outcome string * gmap string Node :=
  let resolved := resolvePath filePath in
  match fs !! resolved with
  | None => (Ok ("ERROR: File not found: " +:+ resolved), fs)
  | Some Directory =>
      (Throw (Error "EISDIR: illegal operation on a directory, read"), fs)
  | Some (File content) =>
      let count := Z.of_nat (length (split oldString content)) - 1 in
      if count =? 0 then
        (Ok ("ERROR: old_string not found in " +:+ resolved +:+
             ". Make sure it matches exactly (including whitespace/indentation)."),
         fs)
      else if 1 <? count then
        (Ok ("ERROR: old_string found " +:+ pretty count +:+ " times in "
             +:+ resolved +:+
             ". It must be unique. Include more surrounding context to narrow it down."),
         fs)
      else
        let newContent := replace oldString newString content in
        let fs' := <[resolved := File newContent]> fs in
        let oldLines := length (split nl oldString) in
        let newLines := length (split nl newString) in
        (Ok ("Edited " +:+ resolved +:+ ": replaced " +:+ pretty oldLines
             +:+ " line(s) with " +:+ pretty newLines +:+ " line(s)."),
         fs')
  end.

End EditFile.

End FileTools.

(** ** The tool router *)

Module Tools.
Import Js JsString JsNum.

(** A non-empty run of decimal digits. *)
Definition digits_only (s : string) : bool :=
  negb (String.eqb s EmptyString)
  && forallb Regex.is_digit (String.list_ascii_of_string s).

(** StringToNumber on the strings that denote a whole number in decimal
    digits: white space around is skipped, the empty string is 0, a sign
    may come first.  The other numeric strings of JavaScript (a fraction,
    an exponent, a radix prefix, [Infinity]) have no value in [jsint] and
    are [NaN] here. *)
Definition StringToNumber (s : string) : jsint :=
match trim s with
| EmptyString => Int 0
| String "-" rest =>
    if digits_only rest then Int (- Retry.digits_value 0 rest) else NaN
| String "+" rest =>
    if digits_only rest then Int (Retry.digits_value 0 rest) else NaN
| t => if digits_only t then Int (Retry.digits_value 0 t) else NaN
end.

(** ToNumber, for the argument of [Math.min]. *)
Definition ToNumber (v : jsval) : jsint :=
match v with
| JUndefined | JObject => NaN
| JNull => Int 0
| JBool b => Int (if b then 1 else 0)
| JNumber n => n
| JString s => StringToNumber s
end.

(** [Math.min(a, k)] *)
Definition Math_min (a : jsint) (k : Z) : jsint :=
match a with
| NaN => NaN
| Int z => Int (Z.min z k)
end.

(** [iso.replace(/[:.]/g, "-")] *)
Fixpoint dash_colons_dots (s : string) : string :=
match s with
| EmptyString => EmptyString
| String c rest =>
    String (if Ascii.eqb c ":" || Ascii.eqb c "." then "-"%char else c)
           (dash_colons_dots rest)
end.

Section Router.

(** The world the tools act on: browser, file system, clock. *)
Context {W : Type}.

(** A tool implementation: it settles with a text or throws, and changes
    the world. *)
Definition impl (A : Type) : Type := W -> outcome A * W.

(** The methods of [ChromeClient] and the file and shell tools. *)
Record Backends : Type := mkBackends {
  chrome_listTabs : impl (list Chrome.TabInfo);
  chrome_attach : jsval -> impl string;
  chrome_navigate : jsval -> impl string;
  chrome_getPageText : impl string;
  chrome_screenshot : string -> impl string;
  chrome_click : jsval -> impl string;
  chrome_type : jsval -> jsval -> impl string;
  chrome_scroll : jsval -> jsval -> impl string;
  chrome_pressKey : jsval -> impl string;
  chrome_wait : jsint -> impl string;
  readFileTool : jsval -> jsval -> jsval -> impl string;
  writeFileTool : jsval -> jsval -> impl string;
  editFileTool : jsval -> jsval -> jsval -> impl string;
  listFilesTool : jsval -> jsval -> impl string;
  searchFilesTool : jsval -> jsval -> jsval -> impl string;
  runCommandTool : jsval -> jsval -> impl string;
  (** [new Date().toISOString()] *)
  now_iso : W -> string;
  (** [resolve("./screenshots", filename)] *)
  resolve_screenshot : string -> string
}.

Variable B : Backends.

(** The lines of [chrome_list_tabs]:
    [tabs.map((t, i) => `[${i}] ${t.title}\n    ${t.url}`)]. *)
Fixpoint tab_lines (i : nat) (tabs : list Chrome.TabInfo) : list string :=
match tabs with
| [] => []
| t :: rest =>
    ("[" +:+ pretty i +:+ "] " +:+ Chrome.title t +:+ nl +:+ "    " +:+ Chrome.url t)
    :: tab_lines (S i) rest
end.

(** The [switch] inside the [try] block of [executeTool]. *)
Definition dispatch (functionName : string) (args : gmap string jsval)
  : impl string :=
fun w =>
  if String.eqb functionName "chrome_list_tabs" then
    match chrome_listTabs B w with
    | (Ok tabs, w') =>
        if (length tabs =? 0)%nat then (Ok "No tabs found.", w')
        else (Ok (join (nl +:+ nl) (tab_lines 0 tabs)), w')
    | (Throw e, w') => (Throw e, w')
    end
  else if String.eqb functionName "chrome_attach" then
    chrome_attach B (get args "tabIndex") w
  else if String.eqb functionName "chrome_navigate" then
    chrome_navigate B (get args "url") w
  else if String.eqb functionName "chrome_get_page_text" then
    chrome_getPageText B w
  else if String.eqb functionName "chrome_screenshot" then
    let filename :=
      if truthy (get args "filename") then get args "filename"
      else JString ("screenshot-" +:+ dash_colons_dots (now_iso B w) +:+ ".png") in
    match filename with
    | JString f => chrome_screenshot B (resolve_screenshot B f) w
    | _ =>
        (Throw (Error "The 'paths[1]' argument must be of type string."), w)
    end
  else if String.eqb functionName "chrome_click" then
    chrome_click B (get args "target") w
  else if String.eqb functionName "chrome_type" then
    chrome_type B (get args "target") (get args "text") w
  else if String.eqb functionName "chrome_scroll" then
    chrome_scroll B (get args "direction") (get args "amount") w
  else if String.eqb functionName "chrome_press_key" then
    chrome_pressKey B (get args "key") w
  else if String.eqb functionName "chrome_wait" then
    let ms := Math_min (ToNumber (get args "ms")) 30000 in
    chrome_wait B ms w
  else if String.eqb functionName "read_file" then
    readFileTool B (get args "path") (get args "offset") (get args "limit") w
  else if String.eqb functionName "write_file" then
    writeFileTool B (get args "path") (get args "content") w
  else if String.eqb functionName "edit_file" then
    editFileTool B (get args "path") (get args "old_string")
                 (get args "new_string") w
  else if String.eqb functionName "list_files" then
    listFilesTool B (get args "path") (get args "recursive") w
  else if String.eqb functionName "search_files" then
    searchFilesTool B (get args "pattern") (get args "path")
                    (get args "file_pattern") w
  else if String.eqb functionName "run_command" then
    runCommandTool B (get args "command") (get args "cwd") w
  else
    (Ok ("Unknown tool: " +:+ functionName), w).

(** [executeTool]: the [try] block and its [catch]. *)
Definition executeTool (functionName : string) (args : gmap string jsval)
  : impl string :=
fun w =>
  match dispatch functionName args w with
  | (Ok text, w') => (Ok text, w')
  | (Throw err, w') =>
      (Ok ("Tool error (" +:+ functionName +:+ "): " +:+ message_text err), w')
  end.

End Router.

(** The names the [switch] knows. *)
Definition tool_names : list string :=
  ["chrome_list_tabs"; "chrome_attach"; "chrome_navigate";
   "chrome_get_page_text"; "chrome_screenshot"; "chrome_click";
   "chrome_type"; "chrome_scroll"; "chrome_press_key"; "chrome_wait";
   "read_file"; "write_file"; "edit_file"; "list_files"; "search_files";
   "run_command"].

End Tools.

(** ** The agent orchestrator *)

Module Orchestrator.
Import Js JsString Session.

(** One function call of a model response. *)
Record Call : Type := mkCall {
  name : string;
  args : gmap string jsval
}.

Inductive GeminiResponse : Type :=
| TextResponse (text : string)
| FunctionCalls (calls : list Call) (text : option string).

Record MemoryEntry : Type := mkMemory {
  mem_type : string;
  task : string;
  summary : string
}.

(** What the orchestrator asks of its collaborators, in order. *)
Inductive Event : Type :=
| EvExecuteTool (name : string) (args : gmap string jsval)
| EvSendMessage (chat : nat) (message : string)
| EvSendFunctionResults (chat : nat) (results : list (string * string))
| EvStartChat (chat : nat) (history : list Block)
| EvSleep (ms : Z).

(** The fields of [CLI] the turn loop reads and writes, the entries of the
    session, the memory log, the number of chat sessions created so far
    and the requests made so far. *)
Record CLI : Type := mkCLI {
  chat : option nat;
  interrupted : bool;
  processing : bool;
  toolCallCount : nat;
  lastUserMessage : string;
  completedActions : list string;
  lastResponseHadText : bool;
  entries : list LogEntry;
  memory : list MemoryEntry;
  chats_started : nat;
  trace : list Event
}.

Definition COMPACT_THRESHOLD : nat := 12.

Definition set_chat (c : option nat) (n : nat) (st : CLI) : CLI :=
  mkCLI c (interrupted st) (processing st) (toolCallCount st)
        (lastUserMessage st) (completedActions st) (lastResponseHadText st)
        (entries st) (memory st) n (trace st).

Definition set_signal (i p : bool) (st : CLI) : CLI :=
  mkCLI (chat st) i p (toolCallCount st)
        (lastUserMessage st) (completedActions st) (lastResponseHadText st)
        (entries st) (memory st) (chats_started st) (trace st).

Definition set_toolCallCount (n : nat) (st : CLI) : CLI :=
  mkCLI (chat st) (interrupted st) (processing st) n
        (lastUserMessage st) (completedActions st) (lastResponseHadText st)
        (entries st) (memory st) (chats_started st) (trace st).

Definition set_completedActions (l : list string) (st : CLI) : CLI :=
  mkCLI (chat st) (interrupted st) (processing st) (toolCallCount st)
        (lastUserMessage st) l (lastResponseHadText st)
        (entries st) (memory st) (chats_started st) (trace st).

Definition set_lastResponseHadText (b : bool) (st : CLI) : CLI :=
  mkCLI (chat st) (interrupted st) (processing st) (toolCallCount st)
        (lastUserMessage st) (completedActions st) b
        (entries st) (memory st) (chats_started st) (trace st).

Definition set_entries (l : list LogEntry) (st : CLI) : CLI :=
  mkCLI (chat st) (interrupted st) (processing st) (toolCallCount st)
        (lastUserMessage st) (completedActions st) (lastResponseHadText st)
        l (memory st) (chats_started st) (trace st).

Definition set_memory (l : list MemoryEntry) (st : CLI) : CLI :=
  mkCLI (chat st) (interrupted st) (processing st) (toolCallCount st)
        (lastUserMessage st) (completedActions st) (lastResponseHadText st)
        (entries st) l (chats_started st) (trace st).

Definition emit (ev : Event) (st : CLI) : CLI :=
  mkCLI (chat st) (interrupted st) (processing st) (toolCallCount st)
        (lastUserMessage st) (completedActions st) (lastResponseHadText st)
        (entries st) (memory st) (chats_started st) (trace st ++ [ev]).

Section Turn.

(** The collaborators.  Each answer is a function of the requests made so
    far, the last of which is the one being answered. *)

(** The text [executeTool] resolves with (it never rejects). *)
Variable executeTool : list Event -> string -> gmap string jsval -> string.
(** The parsed response of the model API, or its error. *)
Variable gemini : list Event -> outcome GeminiResponse.
(** The Ctrl+C presses, none of them within two seconds of the one before,
    that arrive while the request is pending. *)
Variable ctrl_c : list Event -> nat.
(** [new Date().toISOString()] *)
Variable now_iso : list Event -> string.
(** [getWorkingDir()] *)
Variable getWorkingDir : string.
(** [Memory.formatForContext()] *)
Variable formatForContext : list MemoryEntry -> list Event -> string.
(** [JSON.stringify({ name, args })] and [JSON.stringify] of a string. *)
Variable stringify_call : string -> gmap string jsval -> string.
Variable stringify : string -> string.

(** [session.append(entry)] *)
Definition session_append (r : Role) (text : string)
  (meta : option (gmap string string)) (st : CLI) : CLI :=
  set_entries (entries st ++ [mkEntry (now_iso (trace st)) r text meta]) st.

(** [prompt()], as far as the fields go. *)
Definition prompt (st : CLI) : CLI := set_signal false false st.

(** The SIGINT handler for a press that is not a double one. *)
Definition on_sigint (st : CLI) : CLI :=
  if processing st && negb (interrupted st) then
    session_append system "User interrupted the current task." None
      (set_signal true (processing st) st)
  else prompt st.

(** The end of an [await]: the presses that arrived meanwhile have run
    the handler. *)
Definition await (st : CLI) : CLI :=
  Nat.iter (ctrl_c (trace st)) on_sigint st.

(** [(call.args.text || "").slice(0, 60)]; a truthy value that is not a
    string is rendered as in a template. *)
Definition text_snippet (v : jsval) : string :=
  slice0 60 (if truthy v then to_text v else EmptyString).

(** The tracking of significant actions at the end of the loop body. *)
Definition track_action (c : Call) (result : string) (st : CLI) : CLI :=
  if String.eqb (name c) "chrome_navigate" && truthy (get (args c) "url") then
    set_completedActions
      (completedActions st ++ ["Navigated to: " +:+ to_text (get (args c) "url")]) st
  else if String.eqb (name c) "chrome_type" && startsWith "Typed" result then
    set_completedActions
      (completedActions st ++
       ["Typed comment: " +:+ dq +:+ text_snippet (get (args c) "text")
        +:+ "..." +:+ dq]) st
  else if String.eqb (name c) "chrome_click" && startsWith "Clicked" result then
    set_completedActions
      (completedActions st ++ ["Clicked: " +:+ to_text (get (args c) "target")]) st
  else st.

(** The body of the [for] loop after the interrupt check: log the call,
    execute the tool, log the result and track the action.  The display
    helpers [formatToolCall] and [formatToolResult] are left out: they
    print, and they throw a TypeError, after the call is logged and before
    the tool runs, on a call that [Display.formatToolCall_returns] does
    not accept; on the calls it accepts this is the loop body. *)
Definition exec_call (c : Call) (st : CLI) : string * CLI :=
  let st := session_append tool_call (stringify_call (name c) (args c)) None st in
  let st := emit (EvExecuteTool (name c) (args c)) st in
  let result := executeTool (trace st) (name c) (args c) in
  let st := await st in
  let st := session_append tool_result result (Some {[ "tool" := name c ]}) st in
  (result, track_action c result st).

(** The [for] loop over [response.calls]: [false] when the loop returned
    at an interrupt check, with the results pushed so far. *)
Fixpoint run_calls (calls : list Call) (st : CLI)
  (functionResults : list (string * string))
  : bool * CLI * list (string * string) :=
match calls with
| [] => (true, st, functionResults)
| c :: rest =>
    if interrupted st then (false, st, functionResults)
    else
      let (result, st') := exec_call c st in
      run_calls rest st' (functionResults ++ [(name c, result)])
end.

(** [gemini.sendFunctionResults(this.chat!, results)] *)
Definition sendFunctionResults (results : list (string * string)) (st : CLI)
  : outcome GeminiResponse * CLI :=
match chat st with
| None =>
    (Throw (Error "Cannot read properties of null (reading 'sendMessage')"), st)
| Some c =>
    let st := emit (EvSendFunctionResults c results) st in
    (gemini (trace st), await st)
end.

(** [gemini.sendMessage(this.chat!, message)] *)
Definition sendMessage (message : string) (st : CLI)
  : outcome GeminiResponse * CLI :=
match chat st with
| None =>
    (Throw (Error "Cannot read properties of null (reading 'sendMessage')"), st)
| Some c =>
    let st := emit (EvSendMessage c message) st in
    (gemini (trace st), await st)
end.

(** [await sleep(ms)] *)
Definition sleep (ms : Z) (st : CLI) : CLI := await (emit (EvSleep ms) st).

(** [this.chat = this.gemini.startChat(history)] *)
Definition startChat (history : list Block) (st : CLI) : CLI :=
  let c := chats_started st in
  emit (EvStartChat c history) (set_chat (Some c) (S c) st).

(** [Memory.save(entry)] *)
Definition Memory_save (e : MemoryEntry) (st : CLI) : CLI :=
  set_memory (memory st ++ [e]) st.

(** [this.completedActions.slice(-20)] *)
Definition recent_actions (st : CLI) : list string :=
  JsNum.slice (JsNum.Int (-20)) (completedActions st).

(** The continuation message sent to the fresh chat. *)
Definition continuationMsg (st : CLI) (lastToolResult : string * string) : string :=
  let lastResultSnippet := slice0 500 (stringify (snd lastToolResult)) in
  let recentActions := join (nl +:+ "- ") (recent_actions st) in
  let actionSummary :=
    if negb (String.eqb recentActions EmptyString) then
      nl +:+ nl +:+ "Actions completed so far:" +:+ nl +:+ "- " +:+ recentActions
      +:+ nl +:+ nl +:+
      "DO NOT repeat actions on pages/posts you already visited. Move on to NEW posts."
    else EmptyString in
  let memoryCtx := formatForContext (memory st) (trace st) in
  "[Working directory: " +:+ getWorkingDir +:+ "]" +:+ nl +:+ nl +:+
  "[CONTEXT COMPACTED — Previous conversation was reset to save tokens.]"
  +:+ nl +:+ nl +:+
  "Your original task: " +:+ lastUserMessage st +:+ nl +:+ nl +:+
  "The last tool you used was " +:+ dq +:+ fst lastToolResult +:+ dq +:+
  " which returned: " +:+ lastResultSnippet +:+
  actionSummary +:+
  memoryCtx +:+ nl +:+ nl +:+
  "Continue working on the task. Read the current page state if needed and keep going.".

(** The memory entry saved on compaction. *)
Definition compaction_memory (st : CLI) : MemoryEntry :=
  let actionList := join "; " (recent_actions st) in
  mkMemory "compaction" (slice0 200 (lastUserMessage st))
    (if negb (String.eqb actionList EmptyString) then actionList
     else "Context compacted (no tracked actions)").

(** A [catch] block of [processResponse]: nothing when interrupted,
    otherwise a system entry. *)
Definition on_error (label : string) (err : Thrown) (st : CLI)
  : option (outcome unit) * CLI :=
  if interrupted st then (Some (Ok tt), st)
  else (Some (Ok tt), session_append system (label +:+ message_text err) None st).

(** [try { r = await withRetry(send); await this.processResponse(r) }
     catch (err) { ... }]; [None] when the recursion ran out of fuel. *)
Definition send_and_continue
  (rec : GeminiResponse -> CLI -> option (outcome unit) * CLI)
  (label : string) (sent : outcome GeminiResponse * CLI)
  : option (outcome unit) * CLI :=
match sent with
| (Ok next, st) =>
    match rec next st with
    | (Some (Throw err), st') => on_error label err st'
    | other => other
    end
| (Throw err, st) => on_error label err st
end.

(** The auto-compact block: return the pending results to the live chat
    (errors ignored), start a chat without history, and send it the
    continuation message. *)
Definition compact
  (rec : GeminiResponse -> CLI -> option (outcome unit) * CLI)
  (functionResults : list (string * string)) (st : CLI)
  : option (outcome unit) * CLI :=
  let st := set_toolCallCount 0 st in
  let st :=
    snd (Retry.withRetry sleep (sendFunctionResults functionResults)
           Retry.defaultMaxRetries st) in
  let st := startChat [] st in
  match last functionResults with
  | None =>
      (Some (Throw (Error
         "Cannot read properties of undefined (reading 'response')")),
       st)
  | Some lastToolResult =>
      let msg := continuationMsg st lastToolResult in
      let st :=
        session_append system
          ("Context compacted after " +:+ pretty COMPACT_THRESHOLD
           +:+ " tool calls.") None st in
      let st := Memory_save (compaction_memory st) st in
      send_and_continue rec "Error after compact: "
        (Retry.withRetry sleep (sendMessage msg) Retry.defaultMaxRetries st)
  end.

(** The normal path: send the results back and process the answer. *)
Definition send_results
  (rec : GeminiResponse -> CLI -> option (outcome unit) * CLI)
  (functionResults : list (string * string)) (st : CLI)
  : option (outcome unit) * CLI :=
  send_and_continue rec "Tool result error: "
    (Retry.withRetry sleep (sendFunctionResults functionResults)
       Retry.defaultMaxRetries st).

(** [processResponse(response)]; [fuel] bounds the number of responses
    processed, and the result is [None] when it does not suffice. *)
Fixpoint processResponse (fuel : nat) (response : GeminiResponse) (st : CLI)
  : option (outcome unit) * CLI :=
match fuel with
| O => (None, st)
| S fuel' =>
    if interrupted st then (Some (Ok tt), st)
    else
      match response with
      | TextResponse text =>
          (Some (Ok tt),
           session_append model text None (set_lastResponseHadText true st))
      | FunctionCalls calls _ =>
          match run_calls calls st [] with
          | (false, st, _) => (Some (Ok tt), st)
          | (true, st, functionResults) =>
              if interrupted st then (Some (Ok tt), st)
              else
                let st := set_toolCallCount (toolCallCount st + length calls) st in
                if (COMPACT_THRESHOLD <=? toolCallCount st)%nat
                then compact (processResponse fuel') functionResults st
                else send_results (processResponse fuel') functionResults st
          end
      end
end.

(** The first lines of [sendToGemini]. *)
Definition begin_turn (userMessage : string) (st : CLI) : CLI :=
  let st := session_append user userMessage None st in
  mkCLI (chat st) false (processing st) 0 userMessage [] false
        (entries st) (memory st) (chats_started st) (trace st).

End Turn.

End Orchestrator.

(** ** The parsing of a model response *)

Module Gemini.
Import Js JsString Orchestrator.

(** [part.functionCall]: the name and the optional arguments. *)
Record FunctionCallPart : Type := mkFunctionCall {
  fc_name : string;
  fc_args : option (gmap string jsval)
}.

Record Part : Type := mkPart {
  part_text : option string;
  functionCall : option FunctionCallPart
}.

(** A candidate: [finishReason] and [content?.parts]. *)
Record Candidate : Type := mkCandidate {
  finishReason : option string;
  content_parts : option (list Part)
}.

(** [result.response]: [candidates] and [promptFeedback?.blockReason]. *)
Record GenerateContentResponse : Type := mkResponse {
  candidates : option (list Candidate);
  blockReason : option string
}.

(** A string that is present and not empty. *)
Definition truthy_text (t : option string) : option string :=
  match t with
  | Some (String c rest) => Some (String c rest)
  | _ => None
  end.

(** The two arrays filled by the loop over the parts. *)
Definition functionCalls_of (parts : list Part) : list Call :=
  omap (fun p =>
          (fun fc => mkCall (fc_name fc) (default ∅ (fc_args fc)))
            <$> functionCall p) parts.

Definition textParts_of (parts : list Part) : list string :=
  omap (fun p => truthy_text (part_text p)) parts.

(** [finishReason === reason] *)
Definition finishReason_is (reason : string) (candidate : Candidate) : bool :=
  match finishReason candidate with
  | Some r => String.eqb r reason
  | None => false
  end.

Definition parseResponse (response : GenerateContentResponse) : GeminiResponse :=
  match candidates response with
  | None | Some [] =>
      match truthy_text (blockReason response) with
      | Some reason => TextResponse ("(Response blocked: " +:+ reason +:+ ")")
      | None => TextResponse "(No response from model)"
      end
  | Some (candidate :: _) =>
      let parts := default [] (content_parts candidate) in
      let functionCalls := functionCalls_of parts in
      let textParts := textParts_of parts in
      if (0 <? length functionCalls)%nat then
        FunctionCalls functionCalls
          (if (0 <? length textParts)%nat then Some (join nl textParts)
           else None)
      else if (length textParts =? 0)%nat
              || String.eqb (trim (join EmptyString textParts)) EmptyString then
        if finishReason_is "SAFETY" candidate then
          TextResponse "(Response filtered by safety settings)"
        else if finishReason_is "MAX_TOKENS" candidate then
          TextResponse "(Response cut off — token limit reached)"
        else TextResponse "(Model returned empty response)"
      else TextResponse (join nl textParts)
  end.

End Gemini.

(** ** The JSON-lines files of the session log and of the memory *)

Module Jsonl.
Import JsString JsNum FileTools.

(** The lines kept by [(l) => l.trim()]. *)
Definition nonblank (l : string) : bool :=
  negb (String.eqb (trim l) EmptyString).

(** [appendFileSync(path, data)] on the content of the file at [path],
    [None] when there is no such file; the file is created when missing.
    Errors of the file system are left out. *)
Definition appendFileSync (data : string) (file : option string)
  : option string :=
  Some (default EmptyString file +:+ data).

Definition MAX_RECENT : jsint := Int 10.

Section Codec.
(** The values written to the file, with [JSON.stringify] and
    [JSON.parse] on them; [None] when [JSON.parse] throws. *)
Context {J : Type}.
Variable JSON_stringify : J -> string.
Variable JSON_parse : string -> option J.

(** [try { entries.push(JSON.parse(line)) } catch { }] over the lines. *)
Definition push_parsed (lines : list string) : list J :=
  omap JSON_parse lines.

(** The session: the entries in memory and the file at [logPath]. *)
Record SessionLog : Type := mkSessionLog {
  entries : list J;
  logFile : option string
}.

(** [Session.load()] *)
Definition load (s : SessionLog) : bool * SessionLog :=
  match logFile s with
  | None => (false, s)
  | Some content =>
      let raw := trim content in
      if String.eqb raw EmptyString then (true, s)
      else
        (true,
         mkSessionLog (push_parsed (List.filter nonblank (split nl raw)))
           (logFile s))
  end.

(** [Session.append(entry)], with [full] the entry and its time stamp. *)
Definition append (full : J) (s : SessionLog) : SessionLog :=
  mkSessionLog (entries s ++ [full])
    (appendFileSync (JSON_stringify full +:+ nl) (logFile s)).

(** [Memory.save(entry)], with [full] the entry and its time stamp. *)
Definition save (full : J) (memoryFile : option string) : option string :=
  appendFileSync (JSON_stringify full +:+ nl) memoryFile.

(** [Memory.loadRecent(count)]: the loop starts at
    [Math.max(0, lines.length - count)], which is NaN for a NaN count, and
    no index is below NaN. *)
Definition loadRecent (count : jsint) (memoryFile : option string) : list J :=
  match memoryFile with
  | None => []
  | Some content =>
      let lines := List.filter nonblank (split nl content) in
      match count with
      | NaN => []
      | Int c =>
          let start := Z.max 0 (Z.of_nat (length lines) - c) in
          push_parsed (drop (Z.to_nat start) lines)
      end
  end.

End Codec.

End Jsonl.

(** ** The age of a memory *)

Module Memory.
Import JsString JsNum.

(** [Memory.timeAgo(date)], with [now] the value of [Date.now()] and
    [date] the value of [date.getTime()], NaN for an invalid date: every
    comparison with NaN fails, and the days are then printed as [NaN]. *)
Definition timeAgo (now : Z) (date : jsint) : string :=
  match date with
  | NaN => "NaNd ago"
  | Int t =>
      let seconds := (now - t) / 1000 in
      if seconds <? 60 then "just now"
      else
        let minutes := seconds / 60 in
        if minutes <? 60 then pretty minutes +:+ "m ago"
        else
          let hours := minutes / 60 in
          if hours <? 24 then pretty hours +:+ "h ago"
          else
            let days := hours / 24 in
            pretty days +:+ "d ago"
  end.

End Memory.

(** ** Attaching to a tab *)

Module Attach.
Import Js JsString JsNum Chrome.

(** [tabs[tabIdOrIndex]] for a number, [tabs.find((t) => t.id ===
    tabIdOrIndex)] for any other value; a value that is no string equals
    no id. *)
Definition pick_tab (tabIdOrIndex : jsval) (tabs : list TabInfo)
  : option TabInfo :=
  match tabIdOrIndex with
  | JNumber (Int z) => if 0 <=? z then tabs !! Z.to_nat z else None
  | JNumber NaN => None
  | JString s => List.find (fun t => String.eqb (id t) s) tabs
  | _ => None
  end.

(** [tabs.map((t, i) => `  [${i}] ${t.title} — ${t.url}`)] *)
Fixpoint tab_listing (i : nat) (tabs : list TabInfo) : list string :=
  match tabs with
  | [] => []
  | t :: rest =>
      ("  [" +:+ pretty i +:+ "] " +:+ title t +:+ " — " +:+ url t)
      :: tab_listing (S i) rest
  end.

Section Client.
Variable cdp : Cdp.
(** [client.close()] *)
Variable close : Client -> outcome unit.

(** [detach()]: an error of [close] is ignored. *)
Definition detach (st : ChromeClient) : ChromeClient :=
  match client st with
  | Some cl =>
      match close cl with
      | Ok _ | Throw _ => mkChrome None None
      end
  | None => st
  end.

(** [attach(tabIdOrIndex)]: the text returned, or the error thrown, and
    the fields afterwards. *)
Definition attach (tabIdOrIndex : jsval) (st : ChromeClient)
  : outcome string * ChromeClient :=
  match listTabs cdp with
  | Throw err => (Throw err, st)
  | Ok tabs =>
      if (length tabs =? 0)%nat then
        (Throw (Error "No tabs found in Chrome."), st)
      else
        match pick_tab tabIdOrIndex tabs with
        | None =>
            (Throw (Error ("Tab not found. Available tabs:" +:+ nl +:+
                           join nl (tab_listing 0 tabs))),
             st)
        | Some tab =>
            let st := detach st in
            match connect cdp (id tab) with
            | Throw err => (Throw err, st)
            | Ok _ =>
                let cl := mkClient (id tab) in
                let st := mkChrome (Some cl) (currentTab st) in
                match
                  (_ ← Page_enable cdp cl;
                   _ ← Runtime_enable cdp cl;
                   DOM_enable cdp cl)
                with
                | Throw err => (Throw err, st)
                | Ok _ =>
                    (Ok ("Attached to: " +:+ dq +:+ title tab +:+ dq +:+
                         " (" +:+ url tab +:+ ")"),
                     mkChrome (Some cl) (Some tab))
                end
            end
        end
  end.

End Client.

End Attach.

(** ** A user turn and the interrupt key *)

Module Turn.
Import Js JsString JsNum Session Orchestrator.

Section Turn.
Variable executeTool : list Event -> string -> gmap string jsval -> string.
Variable gemini : list Event -> outcome GeminiResponse.
Variable ctrl_c : list Event -> nat.
Variable now_iso : list Event -> string.
Variable getWorkingDir : string.
Variable formatForContext : list MemoryEntry -> list Event -> string.
Variable stringify_call : string -> gmap string jsval -> string.
Variable stringify : string -> string.
(** [config.contextTurns] *)
Variable contextTurns : jsint.
(** [String(err)] *)
Variable String_of : Thrown -> string.

(** [initChat()] *)
Definition initChat (st : CLI) : CLI :=
  startChat (toGeminiHistory contextTurns (entries st)) st.

(** [err.message?.includes("INVALID_ARGUMENT") ||
     err.message?.includes("history")] *)
Definition is_history_error (err : Thrown) : bool :=
  match message err with
  | Some m => includes "INVALID_ARGUMENT" m || includes "history" m
  | None => false
  end.

(** [withRetry(() => this.gemini.sendMessage(this.chat!, msg), ...)] *)
Definition send_with_retry (msg : string) (st : CLI)
  : outcome GeminiResponse * CLI :=
  Retry.withRetry (sleep ctrl_c now_iso) (sendMessage gemini ctrl_c now_iso msg)
    Retry.defaultMaxRetries st.

(** The sends of [sendToGemini], up to the response to process: the chat
    is started when there is none, and started again for one more try
    when the error names the arguments or the history. *)
Definition first_response (messageToSend : string) (st : CLI)
  : outcome GeminiResponse * CLI :=
  let st := match chat st with None => initChat st | Some _ => st end in
  match send_with_retry messageToSend st with
  | (Ok response, st) => (Ok response, st)
  | (Throw err, st) =>
      if is_history_error err then
        send_with_retry messageToSend (initChat st)
      else (Throw err, st)
  end.

(** [err.message || String(err)] *)
Definition errMsg_of (err : Thrown) : string :=
  match message err with
  | Some (String c m) => String c m
  | _ => String_of err
  end.

(** The message of the rate-limit recovery. *)
Definition retryMsg (st : CLI) : string :=
  "[Working directory: " +:+ getWorkingDir +:+ "]" +:+ nl +:+ nl +:+
  "[Rate limit recovery — context was reset.]" +:+ nl +:+ nl +:+
  "Your original task: " +:+ lastUserMessage st +:+ nl +:+ nl +:+
  "Continue working on the task. Read the current page state and keep going.".

Abbreviation processResponse :=
  (processResponse executeTool gemini ctrl_c now_iso getWorkingDir
     formatForContext stringify_call stringify).

(** The outer [catch] of [sendToGemini]; [None] when the recursion of
    [processResponse] ran out of fuel. *)
Definition on_turn_error (fuel : nat) (err : Thrown) (st : CLI)
  : option unit * CLI :=
  if interrupted st then (Some tt, st)
  else
    let errMsg := errMsg_of err in
    if includes "429" errMsg || includes "quota" errMsg then
      let st := startChat [] st in
      let st := set_toolCallCount 0 st in
      let st := sleep ctrl_c now_iso 30000 st in
      match send_with_retry (retryMsg st) st with
      | (Ok retryResponse, st) =>
          match processResponse fuel retryResponse st with
          | (Some _, st) => (Some tt, st)
          | (None, st) => (None, st)
          end
      | (Throw _, st) => (Some tt, st)
      end
    else
      (Some tt, session_append now_iso system ("Error: " +:+ errMsg) None st).

(** [sendToGemini(userMessage)] *)
Definition sendToGemini (fuel : nat) (userMessage : string) (st : CLI)
  : option unit * CLI :=
  let st := begin_turn now_iso userMessage st in
  let contextPrefix := "[Working directory: " +:+ getWorkingDir +:+ "]" +:+ nl +:+ nl in
  let messageToSend := contextPrefix +:+ userMessage in
  match first_response messageToSend st with
  | (Ok response, st) =>
      match processResponse fuel response st with
      | (Some (Ok _), st) => (Some tt, st)
      | (Some (Throw err), st) => on_turn_error fuel err st
      | (None, st) => (None, st)
      end
  | (Throw err, st) => on_turn_error fuel err st
  end.

End Turn.

(** The readline interface: the agent, the time of the last Ctrl+C and
    whether [process.exit] was called. *)
Record Console : Type := mkConsole {
  cli : CLI;
  lastCtrlCTime : Z;
  exited : bool
}.

(** The handler of [SIGINT], with [now] the value of [Date.now()]. *)
Definition sigint (now_iso : list Event -> string) (now : Z) (s : Console)
  : Console :=
  if exited s then s
  else
    let isDouble := now - lastCtrlCTime s <? 2000 in
    if isDouble then mkConsole (cli s) now true
    else mkConsole (on_sigint now_iso (cli s)) now false.

End Turn.

(** ** The shell tools *)

Module Shell.
Import Js JsString FileTools.

(** What [execSync] gives back or throws: the output, or an error with
    the exit status ([None] for [null] or [undefined]), the captured
    streams and the message. *)
Record ExecError : Type := mkExecError {
  status : option Z;
  err_stdout : option string;
  err_stderr : option string;
  err_message : option string
}.

Inductive ExecResult : Type :=
| Done (output : string)
| Failed (err : ExecError).

(** The characters kept by [replace(/[^a-zA-Z0-9.*?_\-\/]/g, "")]. *)
Definition allowed (c : ascii) : bool :=
  let n := nat_of_ascii c in
  ((97 <=? n) && (n <=? 122) || (65 <=? n) && (n <=? 90)
   || (48 <=? n) && (n <=? 57))%nat
  || Ascii.eqb c "." || Ascii.eqb c "*" || Ascii.eqb c "?"
  || Ascii.eqb c "_" || Ascii.eqb c "-" || Ascii.eqb c "/".

Fixpoint strip_unsafe (s : string) : string :=
  match s with
  | EmptyString => EmptyString
  | String c rest =>
      if allowed c then String c (strip_unsafe rest) else strip_unsafe rest
  end.

(** [a || b] for an optional string [a]. *)
Definition or_default (a : option string) (b : string) : string :=
  match a with
  | Some (String c rest) => String c rest
  | _ => b
  end.

(** [(filePattern || "*").replace(...)] *)
Definition safeFilePattern (filePattern : option string) : string :=
  strip_unsafe (or_default filePattern "*").

Definition hex_digit (n : nat) : ascii :=
  ascii_of_nat (if (n <? 10)%nat then 48 + n else 87 + n).

(** QuoteJSONString on one code unit. *)
Definition json_escape (c : ascii) : string :=
  let n := nat_of_ascii c in
  if Ascii.eqb c "034" then "\" +:+ dq
  else if Ascii.eqb c "\" then "\\"
  else if (n =? 8)%nat then "\b"
  else if (n =? 12)%nat then "\f"
  else if (n =? 10)%nat then "\n"
  else if (n =? 13)%nat then "\r"
  else if (n =? 9)%nat then "\t"
  else if (n <? 32)%nat then
    "\u00" +:+ String (hex_digit (n / 16)) (String (hex_digit (n mod 16)) EmptyString)
  else String c EmptyString.

Fixpoint json_escape_all (s : string) : string :=
  match s with
  | EmptyString => EmptyString
  | String c rest => json_escape c +:+ json_escape_all rest
  end.

(** [JSON.stringify(s)] for a string [s]. *)
Definition JSON_stringify (s : string) : string :=
  dq +:+ json_escape_all s +:+ dq.

Definition excludeDirs : string :=
  "--exclude-dir=node_modules --exclude-dir=.git --exclude-dir=dist --exclude-dir=.next --exclude-dir=__pycache__".

Section Exec.
Variable path_resolve : string -> string -> string.
Variable _workingDir : string.
(** [execSync(cmd, { cwd, ... })]; [None] when no [cwd] is given. *)
Variable execSync : string -> option string -> ExecResult.

Abbreviation resolvePath := (resolvePath path_resolve _workingDir).

(** The command line of [searchFilesTool]. *)
Definition search_cmd (pattern : string) (dirPath filePattern : option string)
  : string :=
  let resolved := resolvePath (or_default dirPath ".") in
  "grep -rn " +:+ excludeDirs +:+ " --include='" +:+ safeFilePattern filePattern
  +:+ "' -E " +:+ JSON_stringify pattern +:+ " " +:+ JSON_stringify resolved
  +:+ " 2>/dev/null | head -100".

Definition no_matches (pattern resolved : string) : string :=
  "No matches found for " +:+ dq +:+ pattern +:+ dq +:+ " in " +:+ resolved.

(** [l.startsWith(resolved) ? l.slice(resolved.length + 1) : l] *)
Definition relative_to (resolved l : string) : string :=
  if startsWith resolved l then sliceFrom (String.length resolved + 1) l else l.

Definition searchFilesTool (pattern : string) (dirPath filePattern : option string)
  : string :=
  let resolved := resolvePath (or_default dirPath ".") in
  match execSync (search_cmd pattern dirPath filePattern) None with
  | Done output =>
      if String.eqb (trim output) EmptyString then no_matches pattern resolved
      else
        let lines := split nl (trim output) in
        let header :=
          "Found " +:+ pretty (length lines)
          +:+ (if (100 <=? length lines)%nat then "+" else EmptyString)
          +:+ " matches for " +:+ dq +:+ pattern +:+ dq +:+ ":" in
        header +:+ nl +:+ nl +:+ join nl (relative_to resolved <$> lines)
  | Failed err =>
      match status err with
      | Some 1 => no_matches pattern resolved
      | _ =>
          "Search error: " +:+
          match err_message err with Some m => m | None => "undefined" end
      end
  end.

(** [err.stdout?.trim() || ""] *)
Definition trimmed_or_empty (s : option string) : string :=
  match s with Some s => trim s | None => EmptyString end.

(** [err.status || "unknown"] inside the template. *)
Definition exit_code (err : ExecError) : string :=
  match status err with
  | Some z => if z =? 0 then "unknown" else pretty z
  | None => "unknown"
  end.

Definition runCommandTool (command : string) (cwd : option string) : string :=
  let resolved :=
    match cwd with
    | Some (String c rest) => resolvePath (String c rest)
    | _ => _workingDir
    end in
  match execSync command (Some resolved) with
  | Done output =>
      let trimmed := trim output in
      if String.eqb trimmed EmptyString then "(command completed with no output)"
      else if 10000 <? Z.of_nat (String.length trimmed) then
        slice0 (Z.to_nat 10000) trimmed +:+ nl +:+ nl
        +:+ "... (output truncated at 10000 chars)"
      else trimmed
  | Failed err =>
      let stderr := trimmed_or_empty (err_stderr err) in
      let stdout := trimmed_or_empty (err_stdout err) in
      let result := "Command failed (exit code " +:+ exit_code err +:+ ")" in
      let result :=
        if String.eqb stdout EmptyString then result
        else result +:+ nl +:+ nl +:+ "stdout:" +:+ nl +:+ slice0 5000 stdout in
      if String.eqb stderr EmptyString then result
      else result +:+ nl +:+ nl +:+ "stderr:" +:+ nl +:+ slice0 5000 stderr
  end.

End Exec.

End Shell.

(** ** The page text script *)

Module PageText.
Import Js JsString Click.

(** What the filter of the tree walker reads of the parent of a text
    node. *)
Record ParentElement : Type := mkParent {
  parent_tagName : string;
  display : string;
  visibility : string
}.

Record TextNode : Type := mkTextNode {
  parentElement : option ParentElement;
  node_text : string
}.

(** The document: [document.title], [window.location.href], the text
    nodes under [document.body] in document order ([None] when there is
    no body, where [createTreeWalker] throws), and the elements. *)
Record Document : Type := mkDocument {
  doc_title : string;
  location_href : string;
  body_text_nodes : option (list TextNode);
  page : Page
}.

(** [acceptNode] answering [FILTER_ACCEPT]. *)
Definition acceptNode (node : TextNode) : bool :=
  match parentElement node with
  | None => false
  | Some parent =>
      let tag := parent_tagName parent in
      if String.eqb tag "SCRIPT" || String.eqb tag "STYLE"
         || String.eqb tag "NOSCRIPT" then false
      else if String.eqb (display parent) "none"
              || String.eqb (visibility parent) "hidden" then false
      else negb (String.eqb (trim (node_text node)) EmptyString)
  end.

Definition texts_of (nodes : list TextNode) : list string :=
  (fun node => trim (node_text node)) <$> List.filter acceptNode nodes.

Definition text_or_empty (o : option string) : string :=
  match o with Some s => s | None => EmptyString end.

Definition buttons_selector : string :=
  "button, [role=" +:+ dq +:+ "button" +:+ dq +:+ "], input[type=" +:+ dq
  +:+ "submit" +:+ dq +:+ "]".

(** The item pushed for a button, if any. *)
Definition button_item (b : Element) : option string :=
  let text :=
    text_or_empty
      (or_else (or_else (Some (trim (textContent b)))
                        (getAttribute b "aria-label"))
               (Some EmptyString)) in
  if String.eqb text EmptyString then None else Some ("Button: " +:+ text).

(** The item pushed for a link, if any. *)
Definition link_item (a : Element) : option string :=
  let text := trim (textContent a) in
  let href := text_or_empty (or_else (getAttribute a "href") (Some EmptyString)) in
  if String.eqb text EmptyString then None
  else Some ("Link: " +:+ text +:+ " -> " +:+ href).

(** [links.forEach((a, i) => { if (i < 15) { ... } })], from index [i]. *)
Fixpoint link_items (i : nat) (links : list Element) : list string :=
  match links with
  | [] => []
  | a :: rest =>
      (if (i <? 15)%nat then option_list (link_item a) else [])
      ++ link_items (S i) rest
  end.

Definition input_item (inp : Element) : string :=
  let label :=
    text_or_empty
      (or_else (or_else (or_else (or_else (getAttribute inp "aria-label")
                                          (getAttribute inp "placeholder"))
                                 (getAttribute inp "name"))
                        (getAttribute inp "type"))
               (Some "input")) in
  "Input: " +:+ label.

Definition interactiveElements (p : Page) : list string :=
  omap button_item (querySelectorAll p buttons_selector)
  ++ link_items 0 (querySelectorAll p "a[href]")
  ++ (input_item <$> querySelectorAll p "input, textarea, select").

Definition truncation_marker : string :=
  nl +:+ nl +:+ "[... truncated, page has more content]".

(** The value of the script; [None] when it throws. *)
Definition page_text_script (doc : Document) : option string :=
  match body_text_nodes doc with
  | None => None
  | Some nodes =>
      let texts := texts_of nodes in
      let interactive := interactiveElements (page doc) in
      let output :=
        "=== Page: " +:+ doc_title doc +:+ " ===" +:+ nl +:+
        "URL: " +:+ location_href doc +:+ nl +:+ nl +:+
        "--- Page Text ---" +:+ nl +:+
        join nl texts +:+
        (if (0 <? length interactive)%nat then
           nl +:+ nl +:+ "--- Interactive Elements ---" +:+ nl +:+
           join nl interactive
         else EmptyString) in
      Some (if (5000 <? String.length output)%nat
            then slice0 5000 output +:+ truncation_marker
            else output)
  end.

(** [result.result.value as string || "Could not extract page text."] *)
Definition getPageText_value (doc : Document) : string :=
  match page_text_script doc with
  | Some (String c rest) => String c rest
  | _ => "Could not extract page text."
  end.

End PageText.

(** ** Navigation *)

Module Navigate.
Import Js JsString Chrome.

(** The requests of [navigate] on a connection: [Page.navigate],
    the race of [Page.loadEventFired] with the timeout of 15 s (an error
    when the timeout wins), and the evaluation that reads title and URL
    ([None] when [result.result.value] is empty or undefined). *)
Record NavCdp : Type := mkNavCdp {
  Page_navigate : Client -> string -> outcome unit;
  loadEventFired_or_timeout : Client -> outcome unit;
  evaluate_title_url : Client -> outcome (option (string * string))
}.

(** [url.match(/^https?:\/\//)] *)
Definition has_protocol (url : string) : bool :=
  startsWith "http://" url || startsWith "https://" url.

(** The URL navigated to. *)
Definition with_protocol (url : string) : string :=
  if has_protocol url then url else "https://" +:+ url.

(** [navigate(url)].  The answer is [None] in the one case left out: the
    evaluation gave a title while no tab is remembered, where the code
    stores a tab record without id. *)
Definition navigate (cdp : Cdp) (nav : NavCdp) (url : string) (st : ChromeClient)
  : option (outcome string * ChromeClient) :=
  match ensureConnected cdp st with
  | (Throw err, st) => Some (Throw err, st)
  | (Ok cl, st) =>
      let url := with_protocol url in
      match Page_navigate nav cl url with
      | Throw err => Some (Throw err, st)
      | Ok _ =>
          match loadEventFired_or_timeout nav cl with
          | Ok _ | Throw _ =>
              match evaluate_title_url nav cl with
              | Throw err => Some (Throw err, st)
              | Ok None => Some (Ok ("Navigated to: " +:+ url), st)
              | Ok (Some (info_title, info_url)) =>
                  match currentTab st with
                  | Some tab =>
                      Some (Ok ("Navigated to: " +:+ url),
                            mkChrome (client st)
                              (Some (mkTab (id tab) info_title info_url
                                       (webSocketDebuggerUrl tab))))
                  | None => None
                  end
              end
          end
      end
  end.

End Navigate.

(** ** Element resolution of [type] *)

Module TypeInto.
Import Js JsString Click.

(** [(inp.getAttribute(name) || '').toLowerCase()] *)
Definition attr_lower (inp : Element) (name : string) : string :=
  toLowerCase
    (match or_else (getAttribute inp name) (Some EmptyString) with
     | Some s => s
     | None => EmptyString
     end).

(** The predicate of [[...inputs].find] in the attribute step. *)
Definition input_matches (selectorOrText : string) (inp : Element) : bool :=
  let search := toLowerCase selectorOrText in
  includes search (attr_lower inp "placeholder")
  || includes search (attr_lower inp "name")
  || includes search (attr_lower inp "aria-label")
  || includes search (attr_lower inp "type")
  || includes search (attr_lower inp "role").

Definition typeable_selector : string :=
  "input, textarea, select, [contenteditable=" +:+ dq +:+ "true" +:+ dq
  +:+ "], [role=" +:+ dq +:+ "textbox" +:+ dq +:+ "]".

(** The selectors of the last step, in the order of the [||] chain. *)
Definition editor_selectors : list string :=
  ["[contenteditable=" +:+ dq +:+ "true" +:+ dq +:+ "]:not([aria-hidden="
     +:+ dq +:+ "true" +:+ dq +:+ "])";
   "[role=" +:+ dq +:+ "textbox" +:+ dq +:+ "]";
   ".ProseMirror";
   ".public-DraftEditor-content";
   ".ql-editor"].

(** [document.querySelector(sel)] for a selector of the script itself. *)
Definition first_match (page : Page) (sel : string) : option Element :=
  List.find (matches page sel) (elements page).

(** [a || b || ...] over the elements found. *)
Fixpoint first_found (page : Page) (sels : list string) : option Element :=
  match sels with
  | [] => None
  | sel :: rest =>
      match first_match page sel with
      | Some e => Some e
      | None => first_found page rest
      end
  end.

(** The element the focus script ends up with ([None] is [null]). *)
Definition resolve (page : Page) (selectorOrText : string) : option Element :=
  let el :=
    match querySelector page selectorOrText with
    | Ok found => found
    | Throw _ => None
    end in
  let el :=
    match el with
    | Some e => Some e
    | None =>
        List.find (input_matches selectorOrText)
          (querySelectorAll page typeable_selector)
    end in
  match el with
  | Some e => Some e
  | None => first_found page editor_selectors
  end.

End TypeInto.

(** ** The start of the agent *)

Module Startup.
Import Js JsString JsNum Session Orchestrator.

Section Start.
Variable now_iso : list Event -> string.
Variable getWorkingDir : string.
(** [Memory.formatForContext()] *)
Variable formatForContext : list MemoryEntry -> list Event -> string.
Variable contextTurns : jsint.
Variable JSON_parse : string -> option LogEntry.

(** [start()], with [logFile] the content of the log of the session
    ([None] when there is no such file): load the log, mark a new session,
    log the memories, start the chat on the history and prompt. *)
Definition start (logFile : option string) (st : CLI) : CLI :=
  let (resumed, log) :=
    Jsonl.load JSON_parse (Jsonl.mkSessionLog (entries st) logFile) in
  let st := set_entries (Jsonl.entries log) st in
  let st :=
    if resumed && (0 <? length (entries st))%nat then st
    else
      session_append now_iso system
        ("Session started. Working directory: " +:+ getWorkingDir) None st in
  let memoryContext := formatForContext (memory st) (trace st) in
  let st :=
    if negb (String.eqb memoryContext EmptyString)
    then session_append now_iso system memoryContext None st
    else st in
  prompt (Turn.initChat contextTurns st).

End Start.

End Startup.

(** ** The display of a tool call *)

Module Display.
Import Js JsString Orchestrator.

(** [(v || "").slice(0, n)] returns: [v] is a string or falsy.  A truthy
    number, [true] and an object without [slice] throw a TypeError;
    [JObject] stands for any object and is not accepted. *)
Definition slices (v : jsval) : bool :=
  match v with
  | JString _ => true
  | JObject => false
  | _ => negb (truthy v)
  end.

(** [formatToolCall(name, args)] returns a text, and so does
    [formatToolResult] after it: the argument they slice is a string or
    falsy.  The other cases only put arguments into templates. *)
Definition formatToolCall_returns (name : string) (args : gmap string jsval)
  : bool :=
  if String.eqb name "chrome_navigate" then slices (get args "url")
  else if String.eqb name "chrome_click" then slices (get args "target")
  else if String.eqb name "chrome_type" then slices (get args "text")
  else if String.eqb name "run_command" then slices (get args "command")
  else true.

(** A call that the loop body of [processResponse] can display. *)
Definition displayable (c : Call) : bool :=
  formatToolCall_returns (name c) (args c).

(** A response whose calls can all be displayed. *)
Definition displayable_response (r : GeminiResponse) : bool :=
  match r with
  | TextResponse _ => true
  | FunctionCalls calls _ => forallb displayable calls
  end.

End Display.

(** * Facts *)

(** ** Strings *)

Module JsStringFacts.
Import JsString.

Lemma prefix_app (p s : string) : String.prefix p (p +:+ s) = true.
Proof.
  induction p as [|c p IH]; simpl.
  - now destruct s.
  - destruct (ascii_dec c c) as [_|ne]; [exact IH | now destruct ne].
Qed.

Lemma includes_prefix (needle hay : string) :
  String.prefix needle hay = true -> includes needle hay = true.
Proof. destruct hay; simpl; intros ->; reflexivity. Qed.

Lemma includes_here (needle rest : string) :
  includes needle (needle +:+ rest) = true.
Proof. apply includes_prefix, prefix_app. Qed.

Lemma includes_app_r (needle a b : string) :
  includes needle b = true -> includes needle (a +:+ b) = true.
Proof.
  intros H. induction a as [|c a IH]; simpl; [exact H|].
  rewrite IH. apply orb_true_r.
Qed.

Lemma includes_mid (needle a b : string) :
  includes needle (a +:+ needle +:+ b) = true.
Proof. apply includes_app_r, includes_here. Qed.

Lemma append_cons (c : ascii) (a b : string) :
  String c a +:+ b = String c (a +:+ b).
Proof. reflexivity. Qed.

Lemma append_assoc (a b c : string) : (a +:+ b) +:+ c = a +:+ b +:+ c.
Proof.
  induction a as [|x a IH]; [reflexivity|].
  rewrite !append_cons. now f_equal.
Qed.

End JsStringFacts.

(** ** Properties of [recentEntries] *)

Module SessionFacts.
Import JsNum Session.

(** The optional leading system entry kept by [recentEntries]. *)
Definition first_system (entries : list LogEntry) : list LogEntry :=
match entries with
| e0 :: _ => if is_system e0 then [e0] else []
| [] => []
end.

(** The last [n] elements of a list, in order. *)
Definition last_n {A : Type} (n : nat) (l : list A) : list A :=
drop (length l - n)%nat l.

Lemma length_first_system (entries : list LogEntry) :
  (length (first_system entries) <= 1)%nat.
Proof.
  destruct entries as [|e0 rest]; simpl; [lia|].
  destruct (is_system e0); simpl; lia.
Qed.

Lemma slice_neg_last_n {A : Type} (m : Z) (l : list A) :
  0 < m -> slice (Int (- m)) l = last_n (Z.to_nat m) l.
Proof.
  intros Hm. unfold slice, last_n, toInteger.
  destruct (Z.ltb_spec (- m) 0) as [_|Hge]; [|lia].
  f_equal. lia.
Qed.

(** For a positive [contextTurns] the function is the one its comment
    describes: the whole log when it is short, otherwise the leading system
    entry (if any) followed by the last [2 * contextTurns] entries. *)
Lemma recentEntries_positive (c : Z) (entries : list LogEntry) :
  0 < c ->
  recentEntries (Int c) entries =
    if Z.of_nat (length entries) <=? c * 2 then entries
    else first_system entries ++ last_n (Z.to_nat (c * 2)) entries.
Proof.
  intros Hc. unfold recentEntries. simpl.
  destruct (Z.of_nat (length entries) <=? c * 2); [reflexivity|].
  rewrite slice_neg_last_n by lia. reflexivity.
Qed.

Lemma recentEntries_positive_length (c : Z) (entries : list LogEntry) :
  0 < c ->
  Z.of_nat (length (recentEntries (Int c) entries)) <= c * 2 + 1.
Proof.
  intros Hc. rewrite recentEntries_positive by assumption.
  destruct (Z.leb_spec (Z.of_nat (length entries)) (c * 2)) as [Hle|Hgt]; [lia|].
  rewrite length_app. unfold last_n. rewrite length_drop.
  pose proof (length_first_system entries). lia.
Qed.

(** With [contextTurns = 0] the bound is lost: [slice(-0)] is [slice(0)],
    the whole array. *)
Lemma recentEntries_zero (entries : list LogEntry) :
  entries <> [] ->
  recentEntries (Int 0) entries = first_system entries ++ entries.
Proof.
  intros Hne. unfold recentEntries. simpl.
  destruct entries as [|e0 rest]; [congruence|].
  reflexivity.
Qed.

Definition sample_user : LogEntry :=
  mkEntry "2025-01-15T14:30:00.000Z" user "open the inbox" None.

Definition sample_system : LogEntry :=
  mkEntry "2025-01-15T14:29:59.000Z" system "Session started." None.

Definition sample_model : LogEntry :=
  mkEntry "2025-01-15T14:30:05.000Z" model "The inbox is open." None.

(** One turn of context: a log of four entries gives the leading system
    entry and the last two entries. *)
Example recentEntries_one_turn :
  recentEntries (Int 1) [sample_system; sample_user; sample_model; sample_user]
  = [sample_system; sample_model; sample_user].
Proof. reflexivity. Qed.

(** C9 (fails on the code at [contextTurns = 0]): [recentEntries] is to
    return at most [contextTurns * 2] recent entries after the optional
    leading system entry.  With [CONTEXT_TURNS=0] a one-entry log is longer
    than [0] entries, so the claimed result is the empty list (and the
    system entry alone for a log starting with one); the code returns the
    whole log, with a leading system entry twice. *)
Theorem recentEntries_zero_turns_returns_whole_log :
  recentEntries (Int 0) [sample_user] = [sample_user] /\
  recentEntries (Int 0) [sample_system; sample_user]
    = [sample_system; sample_system; sample_user].
Proof. split; reflexivity. Qed.

End SessionFacts.

(** ** Properties of [toGeminiHistory] *)

Module HistoryFacts.
Import JsNum Session.

(** No two neighbours of a role sequence are equal. *)
Definition alternating (rs : list GRole) : Prop :=
  forall l1 a b l2, rs = l1 ++ a :: b :: l2 -> a <> b.

(** The effect of [merge_step] on the sequence of roles. *)
Definition role_step (rs : list GRole) (r : GRole) : list GRole :=
match last rs with
| Some r' => if GRole_eqb r' r then rs else rs ++ [r]
| None => [r]
end.

Lemma GRole_eqb_eq (a b : GRole) : GRole_eqb a b = true <-> a = b.
Proof. destruct a, b; simpl; split; congruence. Qed.

Lemma GRole_not_user (r : GRole) : GRole_eqb r User = false -> r = Model.
Proof. destruct r; simpl; congruence. Qed.

Lemma GRole_not_model (r : GRole) : GRole_eqb r Model = false -> r = User.
Proof. destruct r; simpl; congruence. Qed.

Section Loops.
Context {A : Type} (p : A -> bool).

Lemma shift_while_head (a : list A) (x : A) (rest : list A) :
  shift_while p a = x :: rest -> p x = false.
Proof.
  induction a as [|y a IH]; simpl; [discriminate|].
  destruct (p y) eqn:E; [exact IH|].
  intros [= <- _]. exact E.
Qed.

Lemma shift_while_suffix (a : list A) :
  exists dropped, a = dropped ++ shift_while p a.
Proof.
  induction a as [|y a [d IH]]; simpl.
  - now exists [].
  - destruct (p y).
    + exists (y :: d). simpl. now f_equal.
    + now exists [].
Qed.

Lemma pop_while_prefix (a : list A) :
  exists dropped, a = pop_while p a ++ dropped.
Proof.
  unfold pop_while.
  destruct (shift_while_suffix (rev a)) as [d Hd].
  exists (rev d).
  rewrite <- rev_app_distr, <- Hd. symmetry. apply rev_involutive.
Qed.

Lemma pop_while_last (a : list A) (x : A) :
  last (pop_while p a) = Some x -> p x = false.
Proof.
  unfold pop_while. intros H.
  destruct (shift_while p (rev a)) as [|y rest] eqn:E; [discriminate|].
  simpl in H. rewrite last_snoc in H. injection H as <-.
  eapply shift_while_head, E.
Qed.

End Loops.

Lemma alternating_nil : alternating [].
Proof. intros [|? ?] a b l2 H; discriminate. Qed.

Lemma alternating_prefix (rs dropped : list GRole) :
  alternating (rs ++ dropped) -> alternating rs.
Proof.
  intros H l1 a b l2 ->. apply (H l1 a b (l2 ++ dropped)).
  now rewrite <- app_assoc.
Qed.

Lemma alternating_suffix (dropped rs : list GRole) :
  alternating (dropped ++ rs) -> alternating rs.
Proof.
  intros H l1 a b l2 ->. apply (H (dropped ++ l1) a b l2).
  now rewrite <- app_assoc.
Qed.

Lemma alternating_snoc (rs : list GRole) (r : GRole) :
  alternating rs -> last rs <> Some r -> alternating (rs ++ [r]).
Proof.
  intros Halt Hlast l1 a b l2 E.
  destruct l2 as [|x l2 _] using rev_ind.
  - change (l1 ++ [a; b]) with (l1 ++ [a] ++ [b]) in E.
    rewrite app_assoc in E. apply app_inj_tail in E as [-> ->].
    intros ->. apply Hlast. apply last_snoc.
  - change (l1 ++ a :: b :: l2 ++ [x]) with (l1 ++ (a :: b :: l2) ++ [x]) in E.
    rewrite app_assoc in E. apply app_inj_tail in E as [-> _].
    now apply (Halt l1 a b l2).
Qed.

Lemma role_step_alternating (rs : list GRole) (r : GRole) :
  alternating rs -> alternating (role_step rs r).
Proof.
  intros Halt. unfold role_step.
  destruct (last rs) as [r'|] eqn:E.
  - destruct (GRole_eqb r' r) eqn:Eq; [exact Halt|].
    apply alternating_snoc; [exact Halt|].
    rewrite E. intros [= ->]. destruct r; discriminate.
  - intros [|? [|? ?]] a b l2 H; discriminate.
Qed.

Lemma role_step_head (rs : list GRole) (r r0 : GRole) :
  head rs = Some r0 -> head (role_step rs r) = Some r0.
Proof.
  intros H. unfold role_step.
  destruct rs as [|x rs]; [discriminate|].
  destruct (last (x :: rs)) as [r'|] eqn:E.
  - destruct (GRole_eqb r' r); exact H.
  - apply last_None in E. discriminate.
Qed.

Lemma merge_step_roles (merged : list Block) (entry : Block) :
  brole <$> merge_step merged entry
  = role_step (brole <$> merged) (brole entry).
Proof.
  unfold merge_step, role_step. rewrite fmap_last.
  destruct (last merged) as [l|] eqn:E; simpl.
  - apply last_Some in E as [init ->].
    rewrite removelast_last.
    destruct (GRole_eqb (brole l) (brole entry)).
    + now rewrite !fmap_app.
    + now rewrite fmap_app.
  - apply last_None in E as ->. reflexivity.
Qed.

Lemma merge_roles (history merged : list Block) :
  brole <$> fold_left merge_step history merged
  = fold_left role_step (brole <$> history) (brole <$> merged).
Proof.
  revert merged. induction history as [|e history IH]; intros merged; simpl.
  - reflexivity.
  - now rewrite IH, merge_step_roles.
Qed.

Lemma fold_role_step_alternating (rs acc : list GRole) :
  alternating acc -> alternating (fold_left role_step rs acc).
Proof.
  revert acc. induction rs as [|r rs IH]; intros acc H; simpl; [exact H|].
  apply IH, role_step_alternating, H.
Qed.

Lemma fold_role_step_head (rs acc : list GRole) (r0 : GRole) :
  head acc = Some r0 -> head (fold_left role_step rs acc) = Some r0.
Proof.
  revert acc. induction rs as [|r rs IH]; intros acc H; simpl; [exact H|].
  apply IH, role_step_head, H.
Qed.

(** After the leading model blocks are shifted away, merging gives a
    sequence that is empty or starts with a user block. *)
Lemma merged_head (history : list Block) :
  let merged := fold_left merge_step (shift_while is_model history) [] in
  merged = [] \/ head (brole <$> merged) = Some User.
Proof.
  simpl. destruct (shift_while is_model history) as [|x rest] eqn:E.
  - now left.
  - right. apply shift_while_head in E.
    apply GRole_not_model in E.
    rewrite merge_roles. simpl. apply fold_role_step_head.
    unfold role_step. simpl. now rewrite E.
Qed.

Lemma alternating_lookup (h : list Block) (i : nat) (b1 b2 : Block) :
  alternating (brole <$> h) ->
  h !! i = Some b1 -> h !! S i = Some b2 -> brole b1 <> brole b2.
Proof.
  intros Halt H1 H2.
  apply (Halt (brole <$> take i h) (brole b1) (brole b2)
              (brole <$> drop (S (S i)) h)).
  rewrite <- (take_drop_middle h i b1 H1) at 1.
  rewrite fmap_app, fmap_cons. do 2 f_equal.
  rewrite <- (take_drop_middle (drop (S i) h) 0 b2) at 1.
  - simpl. rewrite drop_drop. do 3 f_equal. lia.
  - rewrite lookup_drop. now rewrite Nat.add_0_r.
Qed.

(** C1: for every log and every [contextTurns], [toGeminiHistory] returns
    a list that is empty or starts with a user block and ends with a model
    block, and in which no two adjacent blocks have the same role; the
    blocks come from the entries by [to_block], which sends user and
    tool_result entries to the user role, model and tool_call entries to
    the model role, and drops system entries. *)
Theorem toGeminiHistory_alternates (contextTurns : jsint) (entries : list LogEntry) :
  let h := toGeminiHistory contextTurns entries in
  (h = [] \/
   ((exists b, head h = Some b /\ brole b = User) /\
    (exists b, last h = Some b /\ brole b = Model))) /\
  (forall i b1 b2,
     h !! i = Some b1 -> h !! S i = Some b2 -> brole b1 <> brole b2) /\
  (forall e,
     brole <$> to_block e =
       match role e with
       | user | tool_result => Some User
       | model | tool_call => Some Model
       | system => None
       end).
Proof.
  intros h. unfold toGeminiHistory in h.
  set (history := omap to_block (recentEntries contextTurns entries)) in h.
  set (merged := fold_left merge_step (shift_while is_model history) []) in h.
  destruct (pop_while_prefix is_user merged) as [dropped Hd]. fold h in Hd.
  assert (Halt : alternating (brole <$> h)).
  { apply (alternating_prefix _ (brole <$> dropped)).
    rewrite <- fmap_app, <- Hd. unfold merged. rewrite merge_roles.
    apply fold_role_step_alternating, alternating_nil. }
  split; [|split].
  - destruct h as [|b0 h'] eqn:Eh; [now left|right]. split.
    + exists b0. split; [reflexivity|].
      pose proof (merged_head history) as Hm. simpl in Hm. fold merged in Hm.
      destruct Hm as [Hnil|Hhead].
      * rewrite Hnil in Hd. discriminate.
      * rewrite Hd in Hhead. simpl in Hhead. congruence.
    + destruct (last (b0 :: h')) as [x|] eqn:El.
      * exists x. split; [reflexivity|].
        rewrite <- Eh in El. apply pop_while_last in El.
        now apply GRole_not_user.
      * apply last_None in El. discriminate.
  - intros i b1 b2. now apply alternating_lookup.
  - intros e. unfold to_block. now destruct (role e).
Qed.

(** A resumed log: the system entry is left out, the two tool calls are
    merged into one model block, and the trailing user message is dropped. *)
Example toGeminiHistory_resumed_log :
  toGeminiHistory (Int 50)
    [mkEntry "t0" system "Session started." None;
     mkEntry "t1" model "(stray)" None;
     mkEntry "t2" user "open the inbox" None;
     mkEntry "t3" tool_call "{list}" None;
     mkEntry "t4" tool_call "{attach}" None;
     mkEntry "t5" tool_result "Attached" None;
     mkEntry "t6" model "The inbox is open." None;
     mkEntry "t7" user "now archive it" None]
  = [mkBlock User ["open the inbox"];
     mkBlock Model ["[Tool Call] {list}"; "[Tool Call] {attach}"];
     mkBlock User ["[Tool Result] Attached"];
     mkBlock Model ["The inbox is open."]].
Proof. reflexivity. Qed.

End HistoryFacts.

(** ** Properties of the matcher and of [withRetry] *)

Module RetryFacts.
Import Js Regex Retry.

Section Matcher.
Context {R : Type}.

(** Every result of a matcher is a result of its continuation. *)
Definition from_continuation (mr : matcher R) : Prop :=
  forall s c k x, mr s c k = Some x -> exists s' c', k s' c' = Some x.

(** A matcher without group passes the capture on unchanged. *)
Definition keeps_capture (mr : matcher R) : Prop :=
  forall s c k x, mr s c k = Some x -> exists s', k s' c = Some x.

Lemma star_from_continuation (mr : matcher R) (greedy : bool) (fuel : nat) :
  from_continuation mr -> from_continuation (star mr greedy fuel).
Proof.
  intros Hmr. induction fuel as [|fuel IH]; intros s c k x; simpl; [discriminate|].
  set (more := mr s c _).
  assert (Hmore : more = Some x -> exists s' c', k s' c' = Some x).
  { intros H. apply Hmr in H as (s' & c' & H).
    destruct (String.length s' <? String.length s)%nat; [|discriminate].
    now apply IH in H. }
  destruct greedy.
  - destruct more as [y|] eqn:E; [intros [= ->]; now apply Hmore|eauto].
  - destruct (k s c) as [y|] eqn:E; [intros [= ->]; eauto|exact Hmore].
Qed.

Lemma m_from_continuation (r : re) : from_continuation (m (R:=R) r).
Proof.
  induction r as [|p|r1 IH1 r2 IH2|r1 IH1 r2 IH2|g r IH|r IH];
    intros s c k x.
  - simpl. eauto.
  - simpl. destruct s as [|a s']; [discriminate|].
    destruct (p a); [eauto|discriminate].
  - simpl. intros H. apply IH1 in H as (s1 & c1 & H). now apply IH2 in H.
  - simpl. destruct (m r1 s c k) as [y|] eqn:E;
      [intros [= ->]; now apply IH1 in E|apply IH2].
  - exact (star_from_continuation (m r) g (S (String.length s)) IH s c k x).
  - simpl. intros H. apply IH in H as (s1 & _ & H). eauto.
Qed.

Lemma star_keeps_capture (mr : matcher R) (greedy : bool) (fuel : nat) :
  keeps_capture mr -> keeps_capture (star mr greedy fuel).
Proof.
  intros Hmr. induction fuel as [|fuel IH]; intros s c k x; simpl; [discriminate|].
  set (more := mr s c _).
  assert (Hmore : more = Some x -> exists s', k s' c = Some x).
  { intros H. apply Hmr in H as (s' & H).
    destruct (String.length s' <? String.length s)%nat; [|discriminate].
    now apply IH in H. }
  destruct greedy.
  - destruct more as [y|] eqn:E; [intros [= ->]; now apply Hmore|eauto].
  - destruct (k s c) as [y|] eqn:E; [intros [= ->]; eauto|exact Hmore].
Qed.

Lemma m_keeps_capture (r : re) :
  group_free r = true -> keeps_capture (m (R:=R) r).
Proof.
  induction r as [|p|r1 IH1 r2 IH2|r1 IH1 r2 IH2|g r IH|r IH];
    simpl; intros Hg s c k x.
  - simpl. eauto.
  - simpl. destruct s as [|a s']; [discriminate|].
    destruct (p a); [eauto|discriminate].
  - apply andb_prop in Hg as [Hg1 Hg2]. simpl.
    intros H. apply (IH1 Hg1) in H as (s1 & H). now apply (IH2 Hg2) in H.
  - apply andb_prop in Hg as [Hg1 Hg2]. simpl.
    destruct (m r1 s c k) as [y|] eqn:E;
      [intros [= ->]; now apply (IH1 Hg1) in E|apply (IH2 Hg2)].
  - exact (star_keeps_capture (m r) g (S (String.length s)) (IH Hg) s c k x).
  - discriminate.
Qed.

End Matcher.

Lemma search_result (r : re) (s : string) (c : option string) :
  search r s = Some c ->
  exists s0, m r s0 None (fun _ c' => Some c') = Some c.
Proof.
  induction s as [|a s IH]; simpl.
  - destruct (m r EmptyString None _) as [y|] eqn:E; [|discriminate].
    intros [= ->]. eauto.
  - destruct (m r (String a s) None _) as [y|] eqn:E; [|exact IH].
    intros [= ->]. eauto.
Qed.

Lemma m_seq {R : Type} (r1 r2 : re) (s : string) (c : option string)
  (k : string -> option string -> option R) :
  m (Seq r1 r2) s c k = m r1 s c (fun s' c' => m r2 s' c' k).
Proof. reflexivity. Qed.

(** A group hands a capture to its continuation. *)
Lemma m_group_sets {R : Type} (r : re) (s : string) (c : option string)
  (k : string -> option string -> option R) (x : R) :
  m (Group r) s c k = Some x -> exists s' d, k s' (Some d) = Some x.
Proof.
  simpl. intros H. apply m_from_continuation in H as (s' & _ & H). eauto.
Qed.

(** Group 1 takes part in every match of the retry pattern. *)
Lemma retryMatch_group (msg : string) : retryMatch msg <> Some None.
Proof.
  unfold retryMatch. intros H.
  apply search_result in H as (s0 & H).
  unfold retry_re in H.
  rewrite m_seq in H. apply m_from_continuation in H as (s1 & c1 & H).
  rewrite m_seq in H. apply m_from_continuation in H as (s2 & c2 & H).
  rewrite m_seq in H. apply m_group_sets in H as (s3 & d & H).
  rewrite m_seq in H. apply m_keeps_capture in H as (s4 & H); [|reflexivity].
  rewrite m_seq in H. apply m_keeps_capture in H as (s5 & H); [|reflexivity].
  apply m_keeps_capture in H as (s6 & H); [|reflexivity].
  discriminate.
Qed.

(** The capture holds the integer digits only, so [Math.ceil] leaves
    the number as it is: the wait is that integer plus 2. *)
Lemma waitSec_parsed (msg d : string) (attempt : nat) :
  retryMatch msg = Some (Some d) ->
  waitSec msg attempt = digits_value 0 d + 2.
Proof.
  intros H. unfold waitSec. rewrite H.
  unfold Math_ceil, Number. now rewrite Qceiling_Z.
Qed.

Lemma waitSec_backoff (msg : string) (attempt : nat) :
  retryMatch msg = None ->
  waitSec msg attempt = 10 * (Z.of_nat attempt + 1).
Proof. intros H. unfold waitSec. now rewrite H. Qed.

(** The first failure of a call that is then retried: the loop sleeps
    [waitSec] seconds before the next attempt. *)
Lemma withRetry_first_wait {W T : Type} (sleep : Z -> W -> W)
  (fn : W -> outcome T * W) (maxRetries : nat) (w w1 : W) (err : Thrown) :
  fn w = (Throw err, w1) ->
  isRateLimit (message_or_empty err) = true ->
  (0 < maxRetries)%nat ->
  withRetry sleep fn maxRetries w =
  withRetry_loop sleep fn maxRetries maxRetries 1
    (sleep (waitSec (message_or_empty err) 0 * 1000) w1).
Proof.
  intros Hfn Hrl Hmax. unfold withRetry. simpl. rewrite Hfn, Hrl.
  destruct maxRetries; [lia|]. reflexivity.
Qed.

Definition rate_limit_7_5s : Thrown :=
  Error "[429 Too Many Requests] Resource exhausted. Please retry in 7.5s.".

(** C4 (fails on the code): a rate-limit error whose text holds
    [retry in 7.5s] is to give a wait of [ceil(7.5) + 2 = 10] seconds.
    The capture group of the pattern holds the integer digits only
    ([7]), so the code computes [7 + 2 = 9] and sleeps 9000 ms before the
    second attempt. *)
Theorem withRetry_7_5s_waits_9 :
  isRateLimit (message_or_empty rate_limit_7_5s) = true /\
  retryMatch (message_or_empty rate_limit_7_5s) = Some (Some "7") /\
  waitSec (message_or_empty rate_limit_7_5s) 0 = 9 /\
  waitSec "retry in 7.5s" 0 = 9 /\
  withRetry record_sleep
    (scripted [Throw rate_limit_7_5s; Ok "done"]) defaultMaxRetries
    (mkRetryWorld 0 [])
  = (Ok "done", mkRetryWorld 2 [9000]).
Proof. repeat split; vm_compute; reflexivity. Qed.

End RetryFacts.

(** ** Reconnection *)

Module ReconnectFacts.
Import Js JsString Chrome.

(** Opening a connection to [t] and enabling the three domains succeed. *)
Definition connects (cdp : Cdp) (t : TabInfo) : Prop :=
  connect cdp (id t) = Ok tt /\
  Page_enable cdp (mkClient (id t)) = Ok tt /\
  Runtime_enable cdp (mkClient (id t)) = Ok tt /\
  DOM_enable cdp (mkClient (id t)) = Ok tt.

(** The fields after a successful attachment to [t]. *)
Definition attached_to (t : TabInfo) : ChromeClient :=
  mkChrome (Some (mkClient (id t))) (Some t).

(** The error of a failed reconnection. *)
Definition lost (cause : string) : Thrown :=
  Error ("Lost connection to Chrome tab and could not reconnect: " +:+ cause).

(** An error message that tells the caller to attach again, as
    [Use chrome_list_tabs and chrome_attach first] and
    [Use /tabs and /attach to reconnect] do. *)
Definition tells_to_reattach (msg : string) : bool :=
  includes "attach" (toLowerCase msg).

Section Reconnect.
Variable cdp : Cdp.
Variables (st : ChromeClient) (cl : Client) (cur : TabInfo) (e0 : Thrown).
Hypothesis Hclient : client st = Some cl.
Hypothesis Hcur : currentTab st = Some cur.
Hypothesis Hprobe : Runtime_evaluate_1 cdp cl = Throw e0.

Lemma ensureConnected_probe_failed :
  ensureConnected cdp st =
  match reconnect cdp (id cur) with
  | Ok (cl', tab) => (Ok cl', mkChrome (Some cl') (Some tab))
  | Throw err => (Throw (lost (message_text err)), mkChrome None None)
  end.
Proof. unfold ensureConnected. now rewrite Hclient, Hprobe, Hcur. Qed.

Lemma reconnect_selected (tabs : list TabInfo) (t : TabInfo) :
  listTabs cdp = Ok tabs ->
  match List.find (fun t => String.eqb (id t) (id cur)) tabs with
  | Some t' => Some t'
  | None => head tabs
  end = Some t ->
  reconnect cdp (id cur) =
    (_ ← connect cdp (id t);
     _ ← Page_enable cdp (mkClient (id t));
     _ ← Runtime_enable cdp (mkClient (id t));
     _ ← DOM_enable cdp (mkClient (id t));
     mret (mkClient (id t), t)).
Proof.
  intros Hl Hsel. unfold reconnect. rewrite Hl. simpl.
  destruct (List.find _ tabs) as [t'|].
  - injection Hsel as ->. reflexivity.
  - destruct tabs as [|t1 rest]; [discriminate|].
    injection Hsel as ->. reflexivity.
Qed.

Lemma reconnect_connects (tabs : list TabInfo) (t : TabInfo) :
  listTabs cdp = Ok tabs ->
  match List.find (fun t => String.eqb (id t) (id cur)) tabs with
  | Some t' => Some t'
  | None => head tabs
  end = Some t ->
  connects cdp t ->
  ensureConnected cdp st = (Ok (mkClient (id t)), attached_to t).
Proof.
  intros Hl Hsel (Hc & Hp & Hr & Hd).
  rewrite ensureConnected_probe_failed, (reconnect_selected tabs t Hl Hsel).
  rewrite Hc. simpl. rewrite Hp. simpl. rewrite Hr. simpl. rewrite Hd.
  reflexivity.
Qed.

End Reconnect.

(** C6 (amended): when the liveness probe fails and the refreshed tab list
    holds a tab with the id of the attached tab, [ensureConnected]
    reattaches to that tab (the first one with that id); when no tab has
    that id and the list is not empty, it attaches to the first tab of the
    list; when the list is empty it clears [client] and [currentTab] and
    throws [Lost connection to Chrome tab and could not reconnect: Tab no
    longer exists]; and when the reconnection fails for any cause (the
    listing is rejected, the connection cannot be opened, a domain cannot
    be enabled) it clears both fields and throws the same message with
    that cause.  So every failure of the call clears both fields and
    throws a message of this form. *)
Theorem ensureConnected_reconnects (cdp : Cdp) (st : ChromeClient)
  (cl : Client) (cur : TabInfo) (e0 : Thrown) :
  client st = Some cl ->
  currentTab st = Some cur ->
  Runtime_evaluate_1 cdp cl = Throw e0 ->
  (forall tabs t,
     listTabs cdp = Ok tabs ->
     List.find (fun t => String.eqb (id t) (id cur)) tabs = Some t ->
     connects cdp t ->
     id t = id cur /\ In t tabs /\
     ensureConnected cdp st = (Ok (mkClient (id t)), attached_to t)) /\
  (forall tabs t rest,
     listTabs cdp = Ok tabs ->
     Forall (fun t' => id t' <> id cur) tabs ->
     tabs = t :: rest ->
     connects cdp t ->
     ensureConnected cdp st = (Ok (mkClient (id t)), attached_to t)) /\
  (listTabs cdp = Ok [] ->
   ensureConnected cdp st
   = (Throw (lost "Tab no longer exists"), mkChrome None None)) /\
  (forall err,
     reconnect cdp (id cur) = Throw err ->
     ensureConnected cdp st
     = (Throw (lost (message_text err)), mkChrome None None)) /\
  (forall err,
     listTabs cdp = Throw err ->
     ensureConnected cdp st
     = (Throw (lost (message_text err)), mkChrome None None)) /\
  (forall tabs t err,
     listTabs cdp = Ok tabs ->
     match List.find (fun t => String.eqb (id t) (id cur)) tabs with
     | Some t' => Some t'
     | None => head tabs
     end = Some t ->
     (_ ← connect cdp (id t);
      _ ← Page_enable cdp (mkClient (id t));
      _ ← Runtime_enable cdp (mkClient (id t));
      DOM_enable cdp (mkClient (id t))) = Throw err ->
     ensureConnected cdp st
     = (Throw (lost (message_text err)), mkChrome None None)) /\
  (forall err st',
     ensureConnected cdp st = (Throw err, st') ->
     st' = mkChrome None None /\ exists cause, err = lost cause).
Proof.
  intros Hclient Hcur Hprobe.
  pose proof (ensureConnected_probe_failed cdp st cl cur e0 Hclient Hcur Hprobe)
    as Hfailed.
  split; [|split; [|split; [|split; [|split; [|split]]]]].
  - intros tabs t Hl H Hconn. split; [|split].
    + apply find_some in H as [_ H]. now apply String.eqb_eq in H.
    + now apply find_some in H as [H _].
    + apply (reconnect_connects cdp st cl cur e0 Hclient Hcur Hprobe tabs t Hl);
        [now rewrite H|assumption].
  - intros tabs t rest Hl Hall -> Hconn.
    apply (reconnect_connects cdp st cl cur e0 Hclient Hcur Hprobe _ t Hl);
      [|assumption].
    destruct (List.find _ (t :: rest)) as [t'|] eqn:E; [|reflexivity].
    apply find_some in E as [Hin E]. apply String.eqb_eq in E.
    rewrite List.Forall_forall in Hall. now destruct (Hall t' Hin).
  - intros Hl. rewrite Hfailed. unfold reconnect. now rewrite Hl.
  - intros err Herr. rewrite Hfailed. now rewrite Herr.
  - intros err Hl. rewrite Hfailed. unfold reconnect. now rewrite Hl.
  - intros tabs t err Hl Hsel Herr. rewrite Hfailed.
    rewrite (reconnect_selected cdp cur tabs t Hl Hsel).
    destruct (connect cdp (id t)) as [[]|e1]; simpl in *;
      [|now injection Herr as ->].
    destruct (Page_enable cdp (mkClient (id t))) as [[]|e1]; simpl in *;
      [|now injection Herr as ->].
    destruct (Runtime_enable cdp (mkClient (id t))) as [[]|e1]; simpl in *;
      [|now injection Herr as ->].
    now rewrite Herr.
  - intros err st'. rewrite Hfailed.
    destruct (reconnect cdp (id cur)) as [[cl' tab]|e1]; [discriminate|].
    intros [= <- <-]. split; [reflexivity|]. now exists (message_text e1).
Qed.

(** A browser with two tabs; the attached tab [B2] is listed second. *)
Definition tabA : TabInfo := mkTab "A1" "Inbox" "https://mail.example/" None.
Definition tabB : TabInfo := mkTab "B2" "Docs" "https://docs.example/" None.

Definition targets_AB : list CDPTarget :=
  [mkTarget "A1" "page" "Inbox" "https://mail.example/" None;
   mkTarget "W9" "service_worker" "sw" "https://mail.example/sw.js" None;
   mkTarget "B2" "page" "Docs" "https://docs.example/" None].

(** Every request succeeds except the liveness probe. *)
Definition cdp_with (targets : list CDPTarget) : Cdp :=
  mkCdp "localhost" "9222" (Ok targets)
        (fun _ => Ok tt) (fun _ => Ok tt) (fun _ => Ok tt) (fun _ => Ok tt)
        (fun _ => Throw (Error "WebSocket is not open")).

Definition attached_B : ChromeClient := attached_to tabB.

Lemma ensureConnected_reconnects_witness :
  ensureConnected (cdp_with targets_AB) attached_B
  = (Ok (mkClient "B2"), attached_to tabB).
Proof.
  refine (proj2 (proj2 (proj1
    (ensureConnected_reconnects (cdp_with targets_AB) attached_B
       (mkClient "B2") tabB (Error "WebSocket is not open")
       eq_refl eq_refl eq_refl) [tabA; tabB] tabB eq_refl eq_refl _))).
  repeat split.
Defined.

(** C6 as stated fails in its last case: with an empty tab list the error
    thrown is [Lost connection to Chrome tab and could not reconnect: Tab
    no longer exists], which names the cause and does not tell the caller
    to attach again. *)
Lemma ensureConnected_no_tabs_error_lacks_reattach :
  ensureConnected (cdp_with []) attached_B
  = (Throw (lost "Tab no longer exists"), mkChrome None None) /\
  ~ (exists msg,
       fst (ensureConnected (cdp_with []) attached_B) = Throw (Error msg) /\
       tells_to_reattach msg = true).
Proof.
  split; [reflexivity|].
  intros (msg & Hmsg & Htell). vm_compute in Hmsg.
  injection Hmsg as <-. vm_compute in Htell. discriminate.
Qed.

End ReconnectFacts.

(** ** Element resolution *)

Module ClickFacts.
Import Js JsString JsStringFacts Click.

Lemma includes_refl (s : string) : includes s s = true.
Proof.
  apply includes_prefix. induction s as [|c s IH]; simpl; [reflexivity|].
  now destruct (ascii_dec c c).
Qed.

(** The equality test of the predicate is subsumed by [includes]. *)
Lemma candidate_matches_includes (selectorOrText : string) (c : Element) :
  candidate_matches selectorOrText c
  = includes (searchText selectorOrText) (candidate_text c).
Proof.
  unfold candidate_matches.
  destruct (String.eqb_spec (candidate_text c) (searchText selectorOrText)) as [->|_];
    [|reflexivity].
  now rewrite includes_refl.
Qed.

(** C7: a descriptor that is a valid selector matching at least one
    element resolves to the first element matching it, whatever the texts
    of the other elements are; the script clicks that element and reports
    it. *)
Theorem click_selector_first (page : Page) (selectorOrText : string) (e0 : Element) :
  selector_valid page selectorOrText = true ->
  List.find (matches page selectorOrText) (elements page) = Some e0 ->
  querySelector page selectorOrText = Ok (Some e0) /\
  resolve page selectorOrText = Some e0 /\
  click_script page selectorOrText
  = "Clicked: " +:+ tagName e0 +:+ " " +:+ dq
    +:+ slice0 80 (trim (textContent e0)) +:+ dq.
Proof.
  intros Hvalid Hfind.
  assert (Hq : querySelector page selectorOrText = Ok (Some e0)).
  { unfold querySelector. now rewrite Hvalid, Hfind. }
  assert (Hr : resolve page selectorOrText = Some e0).
  { unfold resolve. now rewrite Hq. }
  repeat split; [exact Hq|exact Hr|].
  unfold click_script. now rewrite Hr.
Qed.

(** A toy selector engine for the examples: type selectors and
    [#id] selectors; a selector with a space is rejected. *)
Definition toy_matches (sel : string) (el : Element) : bool :=
  String.eqb sel (toLowerCase (tagName el)) ||
  match getAttribute el "id" with
  | Some i => String.eqb sel ("#" +:+ i)
  | None => false
  end ||
  (String.eqb sel clickable_selector &&
   (String.eqb (tagName el) "A" || String.eqb (tagName el) "BUTTON")).

Definition toy_valid (sel : string) : bool :=
  String.eqb sel clickable_selector || negb (includes " " sel).

Definition link_about_button : Element :=
  mkElement "A" "Press the button below" ∅ true.

Definition the_button : Element :=
  mkElement "BUTTON" "Send" (<["id" := "send"]> ∅) true.

Definition page_link_button : Page :=
  mkPage [link_about_button; the_button] toy_valid toy_matches.

(** The descriptor [button] is a substring of the link's text, which
    comes first in the document, and a selector matching the button. *)
Lemma click_selector_first_witness :
  candidate_matches "button" link_about_button = true /\
  resolve page_link_button "button" = Some the_button.
Proof.
  split; [vm_compute; reflexivity|].
  apply (click_selector_first page_link_button "button" the_button);
    vm_compute; reflexivity.
Defined.

(** The one string the predicate looks at: the text content unless it is
    empty, else the [aria-label] unless it is absent or empty, else the
    [value], else the empty string. *)
Definition first_nonempty_label (c : Element) : string :=
  if negb (String.eqb (textContent c) EmptyString) then textContent c
  else
    match getAttribute c "aria-label" with
    | Some a =>
        if negb (String.eqb a EmptyString) then a
        else default EmptyString (getAttribute c "value")
    | None => default EmptyString (getAttribute c "value")
    end.

(** The reading of the specification: any one of the text content, the
    [aria-label] and the [value], lowercased and trimmed, equals or
    contains the lowercased descriptor. *)
Definition any_label_contains (selectorOrText : string) (c : Element) : bool :=
  let hit (label : option string) :=
    match label with
    | Some l =>
        let t := trim (toLowerCase l) in
        String.eqb t (toLowerCase selectorOrText) ||
        includes (toLowerCase selectorOrText) t
    | None => false
    end in
  hit (Some (textContent c)) ||
  hit (getAttribute c "aria-label") ||
  hit (getAttribute c "value").

Lemma candidate_text_first_nonempty (c : Element) :
  candidate_text c = trim (toLowerCase (first_nonempty_label c)).
Proof.
  unfold candidate_text, first_nonempty_label. f_equal. f_equal.
  destruct (String.eqb_spec (textContent c) EmptyString) as [Et|Et].
  - rewrite Et. simpl.
    destruct (getAttribute c "aria-label") as [a|]; simpl.
    + destruct (String.eqb_spec a EmptyString) as [->|Ea]; simpl.
      * destruct (getAttribute c "value") as [v|]; simpl; [|reflexivity].
        now destruct (String.eqb_spec v EmptyString) as [->|_].
      * apply String.eqb_neq in Ea. now rewrite Ea.
    + destruct (getAttribute c "value") as [v|]; simpl; [|reflexivity].
      now destruct (String.eqb_spec v EmptyString) as [->|_].
  - apply String.eqb_neq in Et. unfold or_else. now rewrite !Et.
Qed.

(** The predicate looks at the first non-empty one of the three labels:
    emptiness is tested on the raw string, before it is trimmed. *)
Lemma candidate_matches_first_nonempty (selectorOrText : string) (c : Element) :
  candidate_matches selectorOrText c
  = (String.eqb (trim (toLowerCase (first_nonempty_label c)))
                (trim (toLowerCase selectorOrText))
     || includes (trim (toLowerCase selectorOrText))
                 (trim (toLowerCase (first_nonempty_label c)))).
Proof.
  unfold candidate_matches, searchText.
  now rewrite candidate_text_first_nonempty.
Qed.

(** A string that is not empty and holds white space only. *)
Definition whitespace_only (s : string) : bool :=
  negb (String.eqb s EmptyString) && String.eqb (trim s) EmptyString.

(** Neither the text content nor the [aria-label] of the element is
    white space only. *)
Definition no_blank_label (c : Element) : bool :=
  negb (whitespace_only (textContent c))
  && negb (whitespace_only (default EmptyString (getAttribute c "aria-label"))).

(** The label of an element: its text content unless that is blank, else
    its [aria-label] unless that is absent or blank, else its [value],
    else the empty string. *)
Definition first_label (c : Element) : string :=
  if negb (String.eqb (trim (textContent c)) EmptyString) then textContent c
  else
    match getAttribute c "aria-label" with
    | Some a =>
        if negb (String.eqb (trim a) EmptyString) then a
        else default EmptyString (getAttribute c "value")
    | None => default EmptyString (getAttribute c "value")
    end.

Lemma trim_empty_eqb (s : string) :
  whitespace_only s = false ->
  String.eqb (trim s) EmptyString = String.eqb s EmptyString.
Proof.
  unfold whitespace_only.
  destruct (String.eqb_spec s EmptyString) as [->|_]; [reflexivity|].
  simpl. now intros ->.
Qed.

Lemma first_label_nonempty (c : Element) :
  no_blank_label c = true -> first_label c = first_nonempty_label c.
Proof.
  unfold no_blank_label, first_label, first_nonempty_label. intros H.
  apply andb_prop in H as [Ht Ha].
  apply negb_true_iff in Ht. apply negb_true_iff in Ha.
  rewrite (trim_empty_eqb _ Ht).
  destruct (getAttribute c "aria-label") as [a|]; [|reflexivity].
  simpl in Ha. now rewrite (trim_empty_eqb _ Ha).
Qed.

(** C8 (amended): in the text-matching step an interactive element whose
    text content and [aria-label] are not white space only matches the
    descriptor exactly when its label, lowercased and trimmed, equals or
    contains the lowercased and trimmed descriptor, where the label is the
    first one of the text content, the [aria-label] and the [value] that
    there is: the [aria-label] is looked at only when there is no text
    content, and the [value] only when there is no [aria-label] either. *)
Theorem candidate_matches_first_label (selectorOrText : string) (c : Element) :
  no_blank_label c = true ->
  candidate_matches selectorOrText c
  = (String.eqb (trim (toLowerCase (first_label c)))
                (trim (toLowerCase selectorOrText))
     || includes (trim (toLowerCase selectorOrText))
                 (trim (toLowerCase (first_label c)))).
Proof.
  intros H. rewrite (first_label_nonempty c H).
  apply candidate_matches_first_nonempty.
Qed.

(** An icon button: no text, its label is in [aria-label]. *)
Definition icon_button : Element :=
  mkElement "BUTTON" EmptyString (<["aria-label" := "Close dialog"]> ∅) true.

Lemma candidate_matches_first_label_witness :
  first_label icon_button = "Close dialog" /\
  candidate_matches "Close" icon_button
  = (String.eqb (trim (toLowerCase (first_label icon_button)))
                (trim (toLowerCase "Close"))
     || includes (trim (toLowerCase "Close"))
                 (trim (toLowerCase (first_label icon_button)))).
Proof.
  split; [reflexivity|].
  apply (candidate_matches_first_label "Close" icon_button). reflexivity.
Defined.

(** Where the text content is white space only, the predicate takes it
    for the label and never looks at the [aria-label], while the page text
    script lists such a button under its [aria-label]. *)
Definition spaced_icon_button : Element :=
  mkElement "BUTTON" " " (<["aria-label" := "Close"]> ∅) true.

Lemma candidate_matches_blank_text :
  no_blank_label spaced_icon_button = false /\
  candidate_matches "Close" spaced_icon_button = false /\
  PageText.button_item spaced_icon_button = Some "Button: Close".
Proof. repeat split; vm_compute; reflexivity. Qed.

(** A close button: its text is a cross, its label is in [aria-label]. *)
Definition close_button : Element :=
  mkElement "BUTTON" "X" (<["aria-label" := "Close dialog"]> ∅) true.

Definition page_close_button : Page :=
  mkPage [close_button] toy_valid toy_matches.

(** C8 as stated fails: the [aria-label] of [close_button] contains the
    descriptor [close], its text is not empty and does not, and the
    predicate rejects the element; [click] then reports that nothing
    matches. *)
Lemma candidate_matches_ignores_aria_label :
  In close_button (querySelectorAll page_close_button clickable_selector) /\
  any_label_contains "close" close_button = true /\
  candidate_matches "close" close_button = false /\
  click_script page_close_button "close"
  = "ERROR: Could not find element matching: close".
Proof. repeat split; vm_compute; auto. Qed.

End ClickFacts.

(** ** [editFileTool] *)

Module FileToolsFacts.
Import Js JsString JsStringFacts FileTools.

Fixpoint has_dollar (s : string) : bool :=
match s with
| EmptyString => false
| String c rest => Ascii.eqb c "$" || has_dollar rest
end.

Lemma GetSubstitution_literal (matched before after replacement : string) :
  has_dollar replacement = false ->
  GetSubstitution matched before after replacement = replacement.
Proof.
  induction replacement as [|d tl IH]; simpl; [reflexivity|].
  intros H. apply orb_false_elim in H as [Hd Htl].
  rewrite Hd. now rewrite IH.
Qed.

Lemma append_nil_r (s : string) : s +:+ EmptyString = s.
Proof. induction s as [|c s IH]; [reflexivity|]. rewrite append_cons. now f_equal. Qed.

Lemma prefix_sliceFrom (p s : string) :
  String.prefix p s = true -> s = p +:+ sliceFrom (String.length p) s.
Proof.
  revert s. induction p as [|c p IH]; intros s; simpl.
  - reflexivity.
  - destruct s as [|d s]; [intros [=]|].
    intros H. simpl in H.
    destruct (ascii_dec c d) as [->|_]; [|discriminate].
    rewrite append_cons. f_equal. now apply IH.
Qed.

Lemma replace_first_eq (pattern replacement before s : string) :
  replace_first pattern replacement before s =
  if String.prefix pattern s then
    let after := sliceFrom (String.length pattern) s in
    Some (before +:+ GetSubstitution pattern before after replacement +:+ after)
  else
    match s with
    | EmptyString => None
    | String c rest =>
        replace_first pattern replacement (before +:+ String c EmptyString) rest
    end.
Proof. destruct s; reflexivity. Qed.

(** The scan finds the first occurrence: the text splits around it and the
    substitution is put in its place. *)
Lemma replace_first_spec (pattern replacement before s r : string) :
  replace_first pattern replacement before s = Some r ->
  exists pre post,
    s = pre +:+ pattern +:+ post /\
    r = (before +:+ pre)
        +:+ GetSubstitution pattern (before +:+ pre) post replacement +:+ post.
Proof.
  revert before. induction s as [|c s IH]; intros before;
    rewrite replace_first_eq;
    destruct (String.prefix pattern _) eqn:E; cbv zeta.
  - intros [= <-]. exists EmptyString, (sliceFrom (String.length pattern) EmptyString).
    split; [now apply prefix_sliceFrom|]. now rewrite append_nil_r.
  - intros [=].
  - intros [= <-].
    exists EmptyString, (sliceFrom (String.length pattern) (String c s)).
    split; [now apply prefix_sliceFrom|]. now rewrite append_nil_r.
  - intros H. apply IH in H as (pre & post & -> & ->).
    exists (String c pre), post. split; [reflexivity|].
    now rewrite !append_assoc.
Qed.

Lemma includes_eq (needle hay : string) :
  includes needle hay =
  String.prefix needle hay ||
  match hay with
  | EmptyString => false
  | String _ rest => includes needle rest
  end.
Proof. destruct hay; reflexivity. Qed.

Lemma replace_first_none (pattern replacement before s : string) :
  replace_first pattern replacement before s = None ->
  includes pattern s = false.
Proof.
  revert before. induction s as [|c s IH]; intros before;
    rewrite replace_first_eq;
    destruct (String.prefix pattern _) eqn:E; cbv zeta.
  - intros [=].
  - intros _. now rewrite includes_eq, E.
  - intros [=].
  - intros H. apply IH in H. now rewrite includes_eq, E, H.
Qed.

(** Without an occurrence of the separator the text is one piece. *)
Lemma split_go_absent (sep acc s : string) :
  includes sep s = false -> split_go sep 0 acc s = [acc +:+ s].
Proof.
  revert acc. induction s as [|c s IH]; intros acc; rewrite includes_eq.
  - intros _. simpl. now rewrite append_nil_r.
  - intros H. apply orb_false_elim in H as [Hp Hs].
    cbn [split_go]. rewrite Hp, IH by assumption. now rewrite append_assoc.
Qed.

Section Edit.
Variable path_resolve : string -> string -> string.
Variable _workingDir : string.
Abbreviation editFileTool := (editFileTool path_resolve _workingDir).
Abbreviation resolvePath := (resolvePath path_resolve _workingDir).

(** A missing file gives an [ERROR:] text and leaves the file system. *)
Lemma editFileTool_missing (filePath oldString newString : string)
  (fs : gmap string Node) :
  fs !! resolvePath filePath = None ->
  editFileTool filePath oldString newString fs
  = (Ok ("ERROR: File not found: " +:+ resolvePath filePath), fs).
Proof. intros H. unfold FileTools.editFileTool. now rewrite H. Qed.

(** So does a count of pieces that shows no occurrence or several. *)
Lemma editFileTool_not_unique (filePath oldString newString content : string)
  (fs : gmap string Node) :
  fs !! resolvePath filePath = Some (File content) ->
  length (split oldString content) = 1%nat \/
  (2 < length (split oldString content))%nat ->
  exists text,
    editFileTool filePath oldString newString fs = (Ok text, fs) /\
    startsWith "ERROR:" text = true.
Proof.
  intros Hf Hc. unfold FileTools.editFileTool. rewrite Hf.
  destruct Hc as [Hc|Hc].
  - rewrite Hc. simpl. eexists. split; reflexivity.
  - destruct (Z.eqb_spec (Z.of_nat (length (split oldString content)) - 1) 0); [lia|].
    destruct (Z.ltb_spec 1 (Z.of_nat (length (split oldString content)) - 1)); [|lia].
    eexists. split; reflexivity.
Qed.

(** One occurrence of a non-empty [old_string] and a [new_string] without
    a dollar sign: the occurrence is replaced by [new_string] as it is. *)
Lemma editFileTool_unique_literal (filePath oldString newString content : string)
  (fs : gmap string Node) :
  fs !! resolvePath filePath = Some (File content) ->
  oldString <> EmptyString ->
  length (split oldString content) = 2%nat ->
  has_dollar newString = false ->
  exists pre post text,
    content = pre +:+ oldString +:+ post /\
    editFileTool filePath oldString newString fs
    = (Ok text, <[resolvePath filePath := File (pre +:+ newString +:+ post)]> fs).
Proof.
  intros Hf Hne Hc Hd. unfold FileTools.editFileTool. rewrite Hf, Hc. simpl.
  unfold replace.
  destruct (replace_first oldString newString EmptyString content) as [r|] eqn:E.
  - apply replace_first_spec in E as (pre & post & -> & ->).
    rewrite GetSubstitution_literal by assumption.
    exists pre, post. eexists. split; reflexivity.
  - apply replace_first_none in E.
    unfold split in Hc. apply String.eqb_neq in Hne. rewrite Hne in Hc.
    rewrite split_go_absent in Hc by assumption. discriminate.
Qed.

End Edit.

Definition join_path (base p : string) : string := base +:+ "/" +:+ p.

Definition fs_run_sh : gmap string Node :=
  <["/work/run.sh" := File "echo PID"]> ∅.

(** C10 (fails on the code): [old_string] occurs once in the file and
    [new_string] is two dollar signs; the file is to read [echo $$]
    afterwards.  [String.prototype.replace] expands dollar patterns in the
    replacement also for a string pattern, so the code writes [echo $]. *)
Theorem editFileTool_expands_dollar_patterns :
  length (split "PID" "echo PID") = 2%nat /\
  editFileTool join_path "/work" "run.sh" "PID" "$$" fs_run_sh
  = (Ok "Edited /work/run.sh: replaced 1 line(s) with 1 line(s).",
     <["/work/run.sh" := File "echo $"]> fs_run_sh) /\
  "echo $" <> "echo " +:+ "$$".
Proof.
  split; [reflexivity|]. split; [vm_compute; reflexivity|discriminate].
Qed.

End FileToolsFacts.

(** ** [executeTool] *)

Module ToolsFacts.
Import Js JsString Tools.

Section Router.
Context {W : Type} (B : Backends (W:=W)).

Lemma dispatch_unknown (functionName : string) (args : gmap string jsval) (w : W) :
  ~ In functionName tool_names ->
  dispatch B functionName args w = (Ok ("Unknown tool: " +:+ functionName), w).
Proof.
  intros Hn. unfold dispatch.
  repeat match goal with
  | |- context [String.eqb functionName ?n] =>
      destruct (String.eqb_spec functionName n) as [->|_];
        [exfalso; apply Hn; simpl; tauto|]
  end.
  reflexivity.
Qed.

(** C5: for every tool name, argument record and world, [executeTool]
    resolves with a text and never rejects: when the dispatched
    implementation throws, the text is [Tool error (<name>): <message>];
    when it settles with a text, that text is passed on; and a name
    outside the sixteen known ones gives [Unknown tool: <name>] without
    touching the world. *)
Theorem executeTool_never_rejects (functionName : string)
  (args : gmap string jsval) (w : W) :
  (exists text w', executeTool B functionName args w = (Ok text, w')) /\
  (forall err w',
     dispatch B functionName args w = (Throw err, w') ->
     executeTool B functionName args w
     = (Ok ("Tool error (" +:+ functionName +:+ "): " +:+ message_text err), w')) /\
  (forall text w',
     dispatch B functionName args w = (Ok text, w') ->
     executeTool B functionName args w = (Ok text, w')) /\
  (~ In functionName tool_names ->
   executeTool B functionName args w
   = (Ok ("Unknown tool: " +:+ functionName), w)).
Proof.
  unfold executeTool. repeat split.
  - destruct (dispatch B functionName args w) as [[text|err] w']; eauto.
  - intros err w' ->. reflexivity.
  - intros text w' ->. reflexivity.
  - intros Hn. now rewrite dispatch_unknown.
Qed.

End Router.

(** An instance for the examples: the world is the browser client, the
    CDP collaborator and the page; [click] is [ChromeClient.click]
    ([ensureConnected], then the script, then [value || "Click failed."]);
    the other tools are not available in it. *)
Record BrowserWorld : Type := mkWorld {
  w_chrome : Chrome.ChromeClient;
  w_cdp : Chrome.Cdp;
  w_page : Click.Page
}.

Definition not_available {A : Type} : impl (W:=BrowserWorld) A :=
  fun w => (Throw (Error "not available"), w).

Definition browser_click (target : jsval) : impl (W:=BrowserWorld) string :=
fun w =>
  match Chrome.ensureConnected (w_cdp w) (w_chrome w) with
  | (Throw e, c) => (Throw e, mkWorld c (w_cdp w) (w_page w))
  | (Ok _, c) =>
      let value := Click.click_script (w_page w) (to_text target) in
      (Ok (if String.eqb value EmptyString then "Click failed." else value),
       mkWorld c (w_cdp w) (w_page w))
  end.

Definition browser_backends : Backends (W:=BrowserWorld) :=
  mkBackends not_available (fun _ => not_available) (fun _ => not_available)
    not_available (fun _ => not_available) browser_click
    (fun _ _ => not_available) (fun _ _ => not_available)
    (fun _ => not_available) (fun _ => not_available)
    (fun _ _ _ => not_available) (fun _ _ => not_available)
    (fun _ _ _ => not_available) (fun _ _ => not_available)
    (fun _ _ _ => not_available) (fun _ _ => not_available)
    (fun _ => "2025-01-15T14:30:00.000Z") (fun f => "/work/screenshots/" +:+ f).

Definition detached_world : BrowserWorld :=
  mkWorld (Chrome.mkChrome None None)
          (ReconnectFacts.cdp_with ReconnectFacts.targets_AB)
          ClickFacts.page_link_button.

Definition attached_world : BrowserWorld :=
  mkWorld ReconnectFacts.attached_B
          (ReconnectFacts.cdp_with ReconnectFacts.targets_AB)
          ClickFacts.page_link_button.

Definition click_args : gmap string jsval := <["target" := JString "button"]> ∅.

(** Without an attached tab the click throws and the router answers with
    the tagged text; after a lost connection the client reconnects and the
    click goes through; a name the router does not know is answered too. *)
Example executeTool_click_examples :
  executeTool browser_backends "chrome_click" click_args detached_world
  = (Ok ("Tool error (chrome_click): Not connected to any Chrome tab. "
         +:+ "Use chrome_list_tabs and chrome_attach first."),
     detached_world) /\
  fst (executeTool browser_backends "chrome_click" click_args attached_world)
  = Ok ("Clicked: BUTTON " +:+ dq +:+ "Send" +:+ dq) /\
  fst (executeTool browser_backends "chrome_hover" click_args attached_world)
  = Ok "Unknown tool: chrome_hover".
Proof. repeat split; vm_compute; reflexivity. Qed.

End ToolsFacts.

(** ** Properties of the turn loop *)

Module OrchestratorFacts.
Import Js JsString JsStringFacts Session Orchestrator.

(** The request recorded for the execution of a call. *)
Definition exec_event (c : Call) : Event := EvExecuteTool (name c) (args c).

(** [st'] comes after [st] within one chat: the requests of [st] are the
    first requests of [st'], and the task, the chat and the counter are
    the same. *)
Definition keeps (st st' : CLI) : Prop :=
  trace st `prefix_of` trace st' /\
  lastUserMessage st' = lastUserMessage st /\
  chat st' = chat st /\
  chats_started st' = chats_started st /\
  toolCallCount st' = toolCallCount st.

(** [st'] comes after [st] in the turn: more requests, the same task, and
    a counter below the threshold stays below it. *)
Definition follows (st st' : CLI) : Prop :=
  trace st `prefix_of` trace st' /\
  lastUserMessage st' = lastUserMessage st /\
  ((toolCallCount st < COMPACT_THRESHOLD)%nat ->
   (toolCallCount st' < COMPACT_THRESHOLD)%nat).

Lemma keeps_refl (st : CLI) : keeps st st.
Proof. unfold keeps. auto. Qed.

Lemma keeps_trans (a b c : CLI) : keeps a b -> keeps b c -> keeps a c.
Proof.
  unfold keeps. intros (P1 & L1 & C1 & N1 & T1) (P2 & L2 & C2 & N2 & T2).
  repeat split; try congruence. now transitivity (trace b).
Qed.

Lemma follows_refl (st : CLI) : follows st st.
Proof. unfold follows. auto. Qed.

Lemma follows_trans (a b c : CLI) : follows a b -> follows b c -> follows a c.
Proof.
  unfold follows. intros (P1 & L1 & T1) (P2 & L2 & T2).
  repeat split; [now transitivity (trace b)|congruence|auto].
Qed.

Lemma keeps_follows (st st' : CLI) : keeps st st' -> follows st st'.
Proof.
  unfold keeps, follows. intros (P & L & _ & _ & T).
  repeat split; [assumption..|]. now rewrite T.
Qed.

Section Turn.
Variable executeTool : list Event -> string -> gmap string jsval -> string.
Variable gemini : list Event -> outcome GeminiResponse.
Variable ctrl_c : list Event -> nat.
Variable now_iso : list Event -> string.
Variable getWorkingDir : string.
Variable formatForContext : list MemoryEntry -> list Event -> string.
Variable stringify_call : string -> gmap string jsval -> string.
Variable stringify : string -> string.

Abbreviation session_append := (session_append now_iso).
Abbreviation on_sigint := (on_sigint now_iso).
Abbreviation await := (await ctrl_c now_iso).
Abbreviation exec_call := (exec_call executeTool ctrl_c now_iso stringify_call).
Abbreviation run_calls := (run_calls executeTool ctrl_c now_iso stringify_call).
Abbreviation sendFunctionResults := (sendFunctionResults gemini ctrl_c now_iso).
Abbreviation sendMessage := (sendMessage gemini ctrl_c now_iso).
Abbreviation sleep := (sleep ctrl_c now_iso).
Abbreviation continuationMsg :=
  (continuationMsg getWorkingDir formatForContext stringify).
Abbreviation on_error := (on_error now_iso).
Abbreviation processResponse :=
  (processResponse executeTool gemini ctrl_c now_iso getWorkingDir
     formatForContext stringify_call stringify).

(** Field updates that leave the requests, the task, the chat and the
    counter alone. *)
Ltac keeps_fields := unfold keeps; simpl; repeat split; reflexivity.

Lemma on_sigint_trace (st : CLI) : trace (on_sigint st) = trace st.
Proof. unfold Orchestrator.on_sigint. now destruct (processing st && _). Qed.

Lemma on_sigint_keeps (st : CLI) : keeps st (on_sigint st).
Proof.
  unfold keeps. rewrite on_sigint_trace.
  unfold Orchestrator.on_sigint. now destruct (processing st && _).
Qed.

Lemma await_trace (st : CLI) : trace (await st) = trace st.
Proof.
  unfold Orchestrator.await. induction (ctrl_c (trace st)) as [|n IH]; simpl.
  - reflexivity.
  - now rewrite on_sigint_trace.
Qed.

Lemma await_keeps (st : CLI) : keeps st (await st).
Proof.
  unfold Orchestrator.await. induction (ctrl_c (trace st)) as [|n IH]; simpl.
  - apply keeps_refl.
  - eapply keeps_trans; [exact IH|apply on_sigint_keeps].
Qed.

Lemma session_append_keeps (r : Role) (text : string)
  (meta : option (gmap string string)) (st : CLI) :
  keeps st (session_append r text meta st).
Proof. keeps_fields. Qed.

Lemma emit_keeps (ev : Event) (st : CLI) : keeps st (emit ev st).
Proof. unfold keeps. simpl. repeat split. now apply prefix_app_r. Qed.

Lemma track_action_keeps (c : Call) (result : string) (st : CLI) :
  keeps st (track_action c result st) /\
  trace (track_action c result st) = trace st /\
  interrupted (track_action c result st) = interrupted st.
Proof.
  unfold track_action.
  destruct (_ && _); [split; [keeps_fields|split; reflexivity]|].
  destruct (_ && _); [split; [keeps_fields|split; reflexivity]|].
  destruct (_ && _); (split; [keeps_fields|split; reflexivity]).
Qed.

Lemma exec_call_trace (c : Call) (st : CLI) :
  trace (snd (exec_call c st)) = trace st ++ [exec_event c].
Proof.
  unfold Orchestrator.exec_call. simpl.
  destruct (track_action_keeps c
    (executeTool (trace st ++ [EvExecuteTool (name c) (args c)]) (name c) (args c))
    (session_append tool_result
       (executeTool (trace st ++ [EvExecuteTool (name c) (args c)]) (name c) (args c))
       (Some {[ "tool" := name c ]})
       (await (emit (EvExecuteTool (name c) (args c))
                 (session_append tool_call (stringify_call (name c) (args c)) None st)))))
    as (_ & -> & _).
  simpl. now rewrite await_trace.
Qed.

Lemma exec_call_keeps (c : Call) (st : CLI) : keeps st (snd (exec_call c st)).
Proof.
  unfold Orchestrator.exec_call. simpl.
  eapply keeps_trans; [|apply track_action_keeps].
  eapply keeps_trans; [|apply session_append_keeps].
  eapply keeps_trans; [|apply await_keeps].
  eapply keeps_trans; [|apply emit_keeps].
  apply session_append_keeps.
Qed.

Lemma run_calls_cons (c : Call) (rest : list Call) (st : CLI)
  (rs : list (string * string)) :
  run_calls (c :: rest) st rs =
  if interrupted st then (false, st, rs)
  else
    let (result, st') := exec_call c st in
    run_calls rest st' (rs ++ [(name c, result)]).
Proof. reflexivity. Qed.

Lemma run_calls_app (l1 l2 : list Call) (st : CLI) (rs : list (string * string)) :
  run_calls (l1 ++ l2) st rs =
  match run_calls l1 st rs with
  | (true, st', rs') => run_calls l2 st' rs'
  | (false, st', rs') => (false, st', rs')
  end.
Proof.
  revert st rs. induction l1 as [|c l1 IH]; intros st rs.
  - reflexivity.
  - rewrite <- app_comm_cons, !run_calls_cons.
    destruct (interrupted st); [reflexivity|].
    destruct (exec_call c st) as [result st']. apply IH.
Qed.

Lemma run_calls_keeps (calls : list Call) (st : CLI) (rs : list (string * string)) :
  keeps st (run_calls calls st rs).1.2.
Proof.
  revert st rs. induction calls as [|c calls IH]; intros st rs.
  - apply keeps_refl.
  - rewrite run_calls_cons.
    destruct (interrupted st); [apply keeps_refl|].
    pose proof (exec_call_keeps c st) as Hk.
    destruct (exec_call c st) as [result st']. simpl in Hk.
    eapply keeps_trans; [exact Hk|apply IH].
Qed.

(** A loop that ran to its end executed every call, in order, and pushed
    one result per call under the name of the call. *)
Lemma run_calls_completed (calls : list Call) (st st' : CLI)
  (rs rs' : list (string * string)) :
  run_calls calls st rs = (true, st', rs') ->
  trace st' = trace st ++ (exec_event <$> calls) /\
  fst <$> rs' = (fst <$> rs) ++ (name <$> calls).
Proof.
  revert st rs. induction calls as [|c calls IH]; intros st rs.
  - simpl. intros [= <- <-]. now rewrite !app_nil_r.
  - rewrite run_calls_cons.
    destruct (interrupted st); [discriminate|].
    pose proof (exec_call_trace c st) as Ht.
    destruct (exec_call c st) as [result st1]. simpl in Ht.
    intros H. apply IH in H as [-> ->]. split.
    + rewrite Ht. now rewrite <- app_assoc.
    + rewrite fmap_app. simpl. now rewrite <- app_assoc.
Qed.

Lemma run_calls_interrupted (calls : list Call) (st : CLI)
  (rs : list (string * string)) :
  interrupted st = true ->
  run_calls calls st rs = (match calls with [] => true | _ => false end, st, rs).
Proof. intros H. destruct calls; simpl; [reflexivity|now rewrite H]. Qed.

Lemma sendFunctionResults_keeps (rs : list (string * string)) (st : CLI) :
  keeps st (snd (sendFunctionResults rs st)).
Proof.
  unfold Orchestrator.sendFunctionResults.
  destruct (chat st); simpl; [|apply keeps_refl].
  eapply keeps_trans; [apply emit_keeps|apply await_keeps].
Qed.

Lemma sendMessage_keeps (msg : string) (st : CLI) :
  keeps st (snd (sendMessage msg st)).
Proof.
  unfold Orchestrator.sendMessage.
  destruct (chat st); simpl; [|apply keeps_refl].
  eapply keeps_trans; [apply emit_keeps|apply await_keeps].
Qed.

Lemma sendMessage_trace (msg : string) (st : CLI) (c : nat) :
  chat st = Some c ->
  trace (snd (sendMessage msg st)) = trace st ++ [EvSendMessage c msg].
Proof.
  intros H. unfold Orchestrator.sendMessage. rewrite H. simpl.
  now rewrite await_trace.
Qed.

Lemma sleep_keeps (ms : Z) (st : CLI) : keeps st (sleep ms st).
Proof.
  unfold Orchestrator.sleep.
  eapply keeps_trans; [apply emit_keeps|apply await_keeps].
Qed.

Section WithRetry.
Context {T : Type} (fn : CLI -> outcome T * CLI).
Hypothesis fn_keeps : forall st, keeps st (snd (fn st)).

Lemma withRetry_loop_keeps (maxRetries fuel attempt : nat) (st : CLI) :
  keeps st (snd (Retry.withRetry_loop sleep fn maxRetries fuel attempt st)).
Proof.
  revert attempt st. induction fuel as [|fuel IH]; intros attempt st; simpl.
  - apply keeps_refl.
  - pose proof (fn_keeps st) as Hfn.
    destruct (fn st) as [[v|err] st1]; simpl in *; [exact Hfn|].
    destruct (_ && _); [|exact Hfn].
    eapply keeps_trans; [exact Hfn|].
    eapply keeps_trans; [apply sleep_keeps|apply IH].
Qed.

Lemma withRetry_keeps (maxRetries : nat) (st : CLI) :
  keeps st (snd (Retry.withRetry sleep fn maxRetries st)).
Proof. apply withRetry_loop_keeps. Qed.

(** The first call of [fn] is made whatever follows. *)
Lemma withRetry_first_call (maxRetries : nat) (st : CLI) :
  keeps (snd (fn st)) (snd (Retry.withRetry sleep fn maxRetries st)).
Proof.
  unfold Retry.withRetry. simpl.
  destruct (fn st) as [[v|err] st1]; simpl; [apply keeps_refl|].
  destruct (_ && _); [|apply keeps_refl].
  eapply keeps_trans; [apply sleep_keeps|apply withRetry_loop_keeps].
Qed.

End WithRetry.

Lemma on_error_keeps (label : string) (err : Thrown) (st : CLI) :
  keeps st (snd (on_error label err st)).
Proof.
  unfold Orchestrator.on_error.
  destruct (interrupted st); simpl; [apply keeps_refl|keeps_fields].
Qed.

Lemma send_and_continue_follows
  (rec : GeminiResponse -> CLI -> option (outcome unit) * CLI)
  (label : string) (sent : outcome GeminiResponse * CLI) :
  (forall r st, follows st (snd (rec r st))) ->
  follows (snd sent) (snd (send_and_continue now_iso rec label sent)).
Proof.
  intros Hrec. destruct sent as [[next|err] st]; simpl.
  - pose proof (Hrec next st) as H.
    destruct (rec next st) as [[[u|err]|] st']; simpl in *; try exact H.
    eapply follows_trans; [exact H|apply keeps_follows, on_error_keeps].
  - apply keeps_follows, on_error_keeps.
Qed.

Abbreviation compact :=
  (compact gemini ctrl_c now_iso getWorkingDir formatForContext stringify).
Abbreviation send_results := (send_results gemini ctrl_c now_iso).

Lemma processResponse_S (fuel : nat) (response : GeminiResponse) (st : CLI) :
  processResponse (S fuel) response st =
  if interrupted st then (Some (Ok tt), st)
  else
    match response with
    | TextResponse text =>
        (Some (Ok tt),
         session_append model text None (set_lastResponseHadText true st))
    | FunctionCalls calls _ =>
        match run_calls calls st [] with
        | (false, st, _) => (Some (Ok tt), st)
        | (true, st, functionResults) =>
            if interrupted st then (Some (Ok tt), st)
            else
              let st := set_toolCallCount (toolCallCount st + length calls) st in
              if (COMPACT_THRESHOLD <=? toolCallCount st)%nat
              then compact (processResponse fuel) functionResults st
              else send_results (processResponse fuel) functionResults st
        end
    end.
Proof. reflexivity. Qed.

(** The state in which the continuation message is built: the counter is
    reset, the pending results were offered to the old chat and a chat
    without history is started. *)
Definition fresh_chat_state (rs : list (string * string)) (st : CLI) : CLI :=
  startChat []
    (snd (Retry.withRetry sleep (sendFunctionResults rs)
            Retry.defaultMaxRetries (set_toolCallCount 0 st))).

Lemma fresh_chat_state_facts (rs : list (string * string)) (st : CLI) :
  let st4 := snd (Retry.withRetry sleep (sendFunctionResults rs)
                    Retry.defaultMaxRetries (set_toolCallCount 0 st)) in
  trace st `prefix_of` trace st4 /\
  trace (fresh_chat_state rs st)
    = trace st4 ++ [EvStartChat (chats_started st4) []] /\
  chat (fresh_chat_state rs st) = Some (chats_started st4) /\
  lastUserMessage (fresh_chat_state rs st) = lastUserMessage st /\
  toolCallCount (fresh_chat_state rs st) = 0%nat.
Proof.
  intros st4.
  pose proof (withRetry_keeps (sendFunctionResults rs)
                (sendFunctionResults_keeps rs)
                Retry.defaultMaxRetries (set_toolCallCount 0 st))
    as (P & L & _ & _ & T).
  fold st4 in P, L, T. unfold fresh_chat_state. fold st4. simpl.
  repeat split; [exact P|exact L|exact T].
Qed.

Lemma compact_follows
  (rec : GeminiResponse -> CLI -> option (outcome unit) * CLI)
  (rs : list (string * string)) (st : CLI) :
  (forall r st, follows st (snd (rec r st))) ->
  trace st `prefix_of` trace (snd (compact rec rs st)) /\
  lastUserMessage (snd (compact rec rs st)) = lastUserMessage st /\
  (toolCallCount (snd (compact rec rs st)) < COMPACT_THRESHOLD)%nat.
Proof.
  intros Hrec. unfold Orchestrator.compact.
  destruct (fresh_chat_state_facts rs st) as (P4 & Tr & _ & L5 & T5).
  fold (fresh_chat_state rs st).
  set (st5 := fresh_chat_state rs st) in *.
  assert (P5 : trace st `prefix_of` trace st5).
  { rewrite Tr. etransitivity; [exact P4|now apply prefix_app_r]. }
  destruct (last rs) as [lastToolResult|]; cbn [snd].
  - set (st7 := Memory_save _ _).
    set (msg := continuationMsg st5 lastToolResult).
    pose proof (send_and_continue_follows rec "Error after compact: "
                  (Retry.withRetry sleep (sendMessage msg)
                     Retry.defaultMaxRetries st7) Hrec) as (P8 & L8 & T8).
    pose proof (withRetry_keeps (sendMessage msg) (sendMessage_keeps msg)
                  Retry.defaultMaxRetries st7) as (P7 & L7 & _ & _ & T7).
    repeat split.
    + etransitivity; [exact P5|]. etransitivity; [|exact P8]. exact P7.
    + rewrite L8, L7. exact L5.
    + apply T8. rewrite T7.
      change (toolCallCount st7) with (toolCallCount st5).
      rewrite T5. unfold COMPACT_THRESHOLD. lia.
  - repeat split; [exact P5|exact L5|]. rewrite T5. unfold COMPACT_THRESHOLD. lia.
Qed.

Lemma send_results_follows
  (rec : GeminiResponse -> CLI -> option (outcome unit) * CLI)
  (rs : list (string * string)) (st : CLI) :
  (forall r st, follows st (snd (rec r st))) ->
  follows st (snd (send_results rec rs st)).
Proof.
  intros Hrec. unfold Orchestrator.send_results.
  eapply follows_trans; [|now apply send_and_continue_follows].
  apply keeps_follows, withRetry_keeps, sendFunctionResults_keeps.
Qed.

(** Whatever the fuel: [processResponse] only adds requests, keeps the
    task, and keeps the counter below the threshold. *)
Lemma processResponse_follows (fuel : nat) (response : GeminiResponse) (st : CLI) :
  follows st (snd (processResponse fuel response st)).
Proof.
  revert response st. induction fuel as [|fuel IH]; intros response st.
  - apply follows_refl.
  - rewrite processResponse_S.
    destruct (interrupted st); [apply follows_refl|].
    destruct response as [text|calls text].
    + apply keeps_follows. keeps_fields.
    + pose proof (run_calls_keeps calls st []) as Hrun.
      destruct (run_calls calls st []) as [[[] st1] rs]; simpl in Hrun;
        [|now apply keeps_follows].
      destruct (interrupted st1); [now apply keeps_follows|].
      destruct Hrun as (P & L & C & N & Tc). cbv zeta.
      set (st2 := set_toolCallCount _ st1).
      destruct (Nat.leb_spec COMPACT_THRESHOLD (toolCallCount st2)) as [Hge|Hlt].
      * destruct (compact_follows (processResponse fuel) rs st2 IH) as (P8 & L8 & T8).
        repeat split; [|rewrite L8; exact L|intros _; exact T8].
        etransitivity; [exact P|exact P8].
      * destruct (send_results_follows (processResponse fuel) rs st2 IH) as (P8 & L8 & T8).
        repeat split; [|rewrite L8; exact L|intros _; exact (T8 Hlt)].
        etransitivity; [exact P|exact P8].
Qed.

(** The continuation message quotes the task and the name of the last
    result. *)
Lemma continuationMsg_includes (st : CLI) (lastToolResult : string * string) :
  includes (lastUserMessage st) (continuationMsg st lastToolResult) = true /\
  includes (fst lastToolResult) (continuationMsg st lastToolResult) = true.
Proof.
  unfold Orchestrator.continuationMsg. split.
  - do 9 apply includes_app_r. apply includes_here.
  - do 14 apply includes_app_r. apply includes_here.
Qed.

(** One Ctrl+C while a tool call of a running turn is pending sets the
    flag for the check that follows the call; without a Ctrl+C the flag
    stays as it is. *)
Lemma exec_call_ctrl_c (c : Call) (st : CLI) :
  processing st = true ->
  interrupted st = false ->
  ctrl_c (trace st ++ [exec_event c]) = 1%nat ->
  interrupted (snd (exec_call c st)) = true.
Proof.
  intros Hp Hi Hc. unfold Orchestrator.exec_call. cbn [snd].
  rewrite (proj2 (proj2 (track_action_keeps _ _ _))).
  unfold Orchestrator.await. simpl. unfold exec_event in Hc. rewrite Hc. simpl.
  unfold Orchestrator.on_sigint. simpl. now rewrite Hp, Hi.
Qed.

Lemma exec_call_no_ctrl_c (c : Call) (st : CLI) :
  ctrl_c (trace st ++ [exec_event c]) = 0%nat ->
  interrupted (snd (exec_call c st)) = interrupted st.
Proof.
  intros Hc. unfold Orchestrator.exec_call. cbn [snd].
  rewrite (proj2 (proj2 (track_action_keeps _ _ _))).
  unfold Orchestrator.await. simpl. unfold exec_event in Hc. now rewrite Hc.
Qed.

(** A turn starts with the counter at zero, below the threshold. *)
Lemma begin_turn_below_threshold (userMessage : string) (st : CLI) :
  let st' := begin_turn now_iso userMessage st in
  (toolCallCount st' < COMPACT_THRESHOLD)%nat /\
  interrupted st' = false /\
  lastUserMessage st' = userMessage.
Proof. simpl. unfold COMPACT_THRESHOLD. repeat split. lia. Qed.

(** C3: if the interrupt flag is set once the first [k] calls of a batch
    have been executed, [processResponse] returns in the state reached
    after the [k]-th call: the requests made are the executions of the
    first [k] calls and nothing else, so the calls after the [k]-th are
    not executed and no function results are sent to the model. *)
Theorem interrupt_abandons_batch (fuel k : nat) (calls : list Call)
  (text : option string) (st st1 : CLI) (results : list (string * string)) :
  run_calls (take k calls) st [] = (true, st1, results) ->
  interrupted st1 = true ->
  processResponse (S fuel) (FunctionCalls calls text) st = (Some (Ok tt), st1) /\
  trace st1 = trace st ++ (exec_event <$> take k calls).
Proof.
  intros Hrun Hint. split; [|now apply run_calls_completed in Hrun].
  rewrite processResponse_S.
  destruct (interrupted st) eqn:Hst.
  - rewrite run_calls_interrupted in Hrun by assumption. congruence.
  - rewrite <- (take_drop k calls) at 1.
    rewrite run_calls_app, Hrun, run_calls_interrupted by assumption.
    destruct (drop k calls); [now rewrite Hint|reflexivity].
Qed.

(** C2: when a batch runs to its end without interrupt and brings the
    counter, below the threshold until then, to 12 or more,
    [processResponse] starts a chat with an empty history and the next
    request is a message to that chat; the message contains
    [lastUserMessage] and the name of the last call of the batch. *)
Theorem compaction_continuation (fuel : nat) (calls : list Call)
  (text : option string) (st st1 : CLI) (results : list (string * string)) :
  interrupted st = false ->
  (toolCallCount st < COMPACT_THRESHOLD)%nat ->
  run_calls calls st [] = (true, st1, results) ->
  interrupted st1 = false ->
  (COMPACT_THRESHOLD <= toolCallCount st + length calls)%nat ->
  exists lastCall before c msg after,
    last calls = Some lastCall /\
    trace (snd (processResponse (S fuel) (FunctionCalls calls text) st))
    = before ++ EvStartChat c [] :: EvSendMessage c msg :: after /\
    trace st1 `prefix_of` before /\
    includes (lastUserMessage st) msg = true /\
    includes (name lastCall) msg = true.
Proof.
  intros Hst Hlt Hrun Hst1 Hge.
  pose proof (run_calls_keeps calls st []) as (_ & L & _ & _ & Tc).
  rewrite Hrun in L, Tc. simpl in L, Tc.
  destruct (run_calls_completed _ _ _ _ _ Hrun) as [_ Hnames].
  destruct (last calls) as [lastCall|] eqn:Hlast;
    [|apply last_None in Hlast; subst calls; simpl in Hge; lia].
  assert (Hres : exists ltr, last results = Some ltr /\ fst ltr = name lastCall).
  { simpl in Hnames. apply (f_equal last) in Hnames.
    rewrite !fmap_last, Hlast in Hnames.
    destruct (last results) as [ltr|]; [|discriminate].
    exists ltr. split; [reflexivity|]. simpl in Hnames. congruence. }
  destruct Hres as (ltr & Hltr & Hname).
  rewrite processResponse_S, Hst, Hrun, Hst1. cbv zeta.
  set (st2 := set_toolCallCount _ st1).
  destruct (Nat.leb_spec COMPACT_THRESHOLD (toolCallCount st2)) as [_|Hno];
    [|unfold st2 in Hno; simpl in Hno; lia].
  unfold Orchestrator.compact. fold (fresh_chat_state results st2).
  destruct (fresh_chat_state_facts results st2) as (P4 & Tr & Hchat & L5 & _).
  set (st4 := snd (Retry.withRetry _ _ _ (set_toolCallCount 0 st2))) in *.
  set (st5 := fresh_chat_state results st2) in *.
  rewrite Hltr.
  set (msg := continuationMsg st5 ltr).
  set (st7 := Memory_save _ _).
  pose proof (send_and_continue_follows (processResponse fuel)
                "Error after compact: "
                (Retry.withRetry sleep (sendMessage msg)
                   Retry.defaultMaxRetries st7)
                (processResponse_follows fuel)) as ([ext2 E2] & _ & _).
  pose proof (withRetry_first_call (sendMessage msg) (sendMessage_keeps msg)
                Retry.defaultMaxRetries st7) as ([ext1 E1] & _).
  rewrite (sendMessage_trace msg st7 (chats_started st4) Hchat) in E1.
  change (trace st7) with (trace st5) in E1. rewrite Tr in E1.
  exists lastCall, (trace st4), (chats_started st4), msg, (ext1 ++ ext2).
  split; [reflexivity|]. split; [|split; [exact P4|split]].
  - rewrite E2, E1. now rewrite <- !app_assoc.
  - rewrite <- L. change (lastUserMessage st1) with (lastUserMessage st2).
    rewrite <- L5. apply continuationMsg_includes.
  - rewrite <- Hname. apply continuationMsg_includes.
Qed.

(** *** Every message of a turn *)

(** [st'] adds to the requests of [st] only requests that satisfy [P]. *)
Definition adds (P : Event -> Prop) (st st' : CLI) : Prop :=
  exists ext, trace st' = trace st ++ ext /\ Forall P ext.

Definition is_exec (ev : Event) : Prop :=
  match ev with EvExecuteTool _ _ => True | _ => False end.

(** Neither a tool execution nor a message. *)
Definition is_quiet (ev : Event) : Prop :=
  match ev with
  | EvExecuteTool _ _ | EvSendMessage _ _ => False
  | _ => True
  end.

(** The message [msg], or a sleep between two attempts to send it. *)
Definition says (msg : string) (ev : Event) : Prop :=
  match ev with
  | EvSendMessage _ m => m = msg
  | EvSleep _ => True
  | _ => False
  end.

(** The name of the tool executed last, [lt] when none is. *)
Fixpoint last_exec (lt : option string) (evs : list Event) : option string :=
match evs with
| [] => lt
| EvExecuteTool nm _ :: rest => last_exec (Some nm) rest
| _ :: rest => last_exec lt rest
end.

(** Every message among [evs] contains [task] and the name of the tool
    executed last before it. *)
Fixpoint messages_ok (task : string) (lt : option string) (evs : list Event)
  : Prop :=
match evs with
| [] => True
| EvExecuteTool nm _ :: rest => messages_ok task (Some nm) rest
| EvSendMessage _ msg :: rest =>
    includes task msg = true /\
    (exists nm, lt = Some nm /\ includes nm msg = true) /\
    messages_ok task lt rest
| _ :: rest => messages_ok task lt rest
end.

Lemma adds_refl (P : Event -> Prop) (st : CLI) : adds P st st.
Proof. exists []. now rewrite app_nil_r. Qed.

Lemma adds_same (P : Event -> Prop) (st st' : CLI) :
  trace st' = trace st -> adds P st st'.
Proof. intros H. exists []. now rewrite app_nil_r. Qed.

Lemma adds_trans (P : Event -> Prop) (a b c : CLI) :
  adds P a b -> adds P b c -> adds P a c.
Proof.
  intros (e1 & E1 & F1) (e2 & E2 & F2). exists (e1 ++ e2).
  split; [now rewrite E2, E1, <- app_assoc|now apply Forall_app].
Qed.

Lemma adds_one (P : Event -> Prop) (ev : Event) (st st' : CLI) :
  P ev -> trace st' = trace st ++ [ev] -> adds P st st'.
Proof. intros HP H. exists [ev]. split; [exact H|now constructor]. Qed.

Lemma run_calls_adds (calls : list Call) (st : CLI) (rs : list (string * string)) :
  adds is_exec st (run_calls calls st rs).1.2.
Proof.
  revert st rs. induction calls as [|c calls IH]; intros st rs.
  - apply adds_refl.
  - rewrite run_calls_cons.
    destruct (interrupted st); [apply adds_refl|].
    pose proof (exec_call_trace c st) as Ht.
    destruct (exec_call c st) as [result st']. simpl in Ht.
    eapply adds_trans; [|apply IH].
    now apply (adds_one is_exec (exec_event c)).
Qed.

Lemma sleep_adds (P : Event -> Prop) (ms : Z) (st : CLI) :
  P (EvSleep ms) -> adds P st (sleep ms st).
Proof.
  intros HP. apply (adds_one P (EvSleep ms)); [exact HP|].
  unfold Orchestrator.sleep. now rewrite await_trace.
Qed.

Lemma sendFunctionResults_adds (rs : list (string * string)) (st : CLI) :
  adds is_quiet st (snd (sendFunctionResults rs st)).
Proof.
  unfold Orchestrator.sendFunctionResults.
  destruct (chat st) as [c|]; simpl; [|apply adds_refl].
  apply (adds_one is_quiet (EvSendFunctionResults c rs)); [exact I|].
  now rewrite await_trace.
Qed.

Lemma sendMessage_adds (msg : string) (st : CLI) :
  adds (says msg) st (snd (sendMessage msg st)).
Proof.
  unfold Orchestrator.sendMessage.
  destruct (chat st) as [c|]; simpl; [|apply adds_refl].
  apply (adds_one (says msg) (EvSendMessage c msg)); [reflexivity|].
  now rewrite await_trace.
Qed.

Lemma withRetry_adds {T : Type} (P : Event -> Prop)
  (fn : CLI -> outcome T * CLI) (maxRetries : nat) (st : CLI) :
  (forall st, adds P st (snd (fn st))) ->
  (forall ms, P (EvSleep ms)) ->
  adds P st (snd (Retry.withRetry sleep fn maxRetries st)).
Proof.
  intros Hfn Hsleep. unfold Retry.withRetry.
  generalize 0%nat as attempt. generalize (S maxRetries) as fuel.
  intros fuel. revert st. induction fuel as [|fuel IH]; intros st attempt; simpl.
  - apply adds_refl.
  - pose proof (Hfn st) as H.
    destruct (fn st) as [[v|err] st1]; simpl in *; [exact H|].
    destruct (_ && _); [|exact H].
    eapply adds_trans; [exact H|].
    eapply adds_trans; [apply sleep_adds, Hsleep|apply IH].
Qed.

Lemma messages_ok_app (task : string) (lt : option string) (a b : list Event) :
  messages_ok task lt a ->
  messages_ok task (last_exec lt a) b ->
  messages_ok task lt (a ++ b).
Proof.
  revert lt. induction a as [|ev a IH]; intros lt; simpl; [auto|].
  destruct ev; simpl; try apply IH.
  intros (H1 & H2 & H3) Hb. repeat split; [exact H1|exact H2|now apply IH].
Qed.

Lemma execs_ok (task : string) (lt : option string) (evs : list Event) :
  Forall is_exec evs -> messages_ok task lt evs.
Proof.
  intros H. revert lt. induction H as [|ev evs Hev _ IH]; intros lt; simpl; [exact I|].
  destruct ev; simpl in Hev; try contradiction. apply IH.
Qed.

Lemma quiet_ok (task : string) (lt : option string) (evs : list Event) :
  Forall is_quiet evs ->
  messages_ok task lt evs /\ last_exec lt evs = lt.
Proof.
  intros H. induction H as [|ev evs Hev _ IH]; simpl; [auto|].
  destruct ev; simpl in Hev; try contradiction; exact IH.
Qed.

Lemma says_ok (task msg nm : string) (evs : list Event) :
  Forall (says msg) evs ->
  includes task msg = true ->
  includes nm msg = true ->
  messages_ok task (Some nm) evs /\ last_exec (Some nm) evs = Some nm.
Proof.
  intros H Ht Hn. induction H as [|ev evs Hev _ IH]; simpl; [auto|].
  destruct ev; simpl in Hev; try contradiction; try exact IH.
  subst. destruct IH as [IH1 IH2]. repeat split; eauto.
Qed.

Lemma last_exec_calls (lt : option string) (calls : list Call) (c : Call) :
  last calls = Some c ->
  last_exec lt (exec_event <$> calls) = Some (name c).
Proof.
  revert lt. induction calls as [|c0 calls IH]; intros lt; [discriminate|].
  destruct calls as [|c1 calls].
  - intros [= ->]. reflexivity.
  - rewrite last_cons_cons. intros H. simpl. now apply (IH (Some (name c0))).
Qed.

(** What the run of a turn from [st] promises: more requests, whose
    messages all quote the task and the tool executed last. *)
Definition turn_ok
  (run : CLI -> option (outcome unit) * CLI) (st : CLI) : Prop :=
  forall lt, exists ext,
    trace (snd (run st)) = trace st ++ ext /\
    messages_ok (lastUserMessage st) lt ext.

Lemma on_error_trace (label : string) (err : Thrown) (st : CLI) :
  trace (snd (on_error label err st)) = trace st.
Proof. unfold Orchestrator.on_error. now destruct (interrupted st). Qed.

Lemma send_and_continue_ok
  (rec : GeminiResponse -> CLI -> option (outcome unit) * CLI)
  (label : string) (sent : outcome GeminiResponse * CLI) :
  (forall r st, (toolCallCount st < COMPACT_THRESHOLD)%nat -> turn_ok (rec r) st) ->
  (toolCallCount (snd sent) < COMPACT_THRESHOLD)%nat ->
  turn_ok (fun _ => send_and_continue now_iso rec label sent) (snd sent).
Proof.
  intros Hrec Hlt lt. destruct sent as [[next|err] st]; simpl in *.
  - destruct (Hrec next st Hlt lt) as (ext & E & Hok).
    exists ext. split; [|exact Hok].
    destruct (rec next st) as [[[u|err]|] st']; simpl in *; try exact E.
    now rewrite on_error_trace.
  - exists []. rewrite on_error_trace, app_nil_r. split; [reflexivity|exact I].
Qed.

(** In every run of [processResponse] that starts with the counter below
    the threshold, every message sent to the model contains the task and
    the name of the tool executed last before it. *)
Lemma every_message_quotes_task_and_tool (fuel : nat)
  (response : GeminiResponse) (st : CLI) :
  (toolCallCount st < COMPACT_THRESHOLD)%nat ->
  turn_ok (processResponse fuel response) st.
Proof.
  revert response st. induction fuel as [|fuel IH]; intros response st Hlt lt.
  - exists []. simpl. now rewrite app_nil_r.
  - rewrite processResponse_S.
    destruct (interrupted st); [exists []; simpl; now rewrite app_nil_r|].
    destruct response as [text|calls text];
      [exists []; simpl; now rewrite app_nil_r|].
    pose proof (run_calls_adds calls st []) as (e1 & E1 & F1).
    pose proof (run_calls_keeps calls st []) as (_ & L & _ & _ & Tc).
    destruct (run_calls calls st []) as [[b st1] rs] eqn:Hrun.
    simpl in E1, L, Tc.
    assert (Hstop : exists ext, trace st1 = trace st ++ ext /\
                      messages_ok (lastUserMessage st) lt ext).
    { exists e1. split; [exact E1|now apply execs_ok]. }
    destruct b; [|exact Hstop].
    destruct (interrupted st1); [exact Hstop|]. clear Hstop. cbv zeta.
    set (st2 := set_toolCallCount _ st1).
    destruct (Nat.leb_spec COMPACT_THRESHOLD (toolCallCount st2)) as [Hge|Hno].
    + (* compaction *)
      unfold st2 in Hge. simpl in Hge. rewrite Tc in Hge.
      destruct (run_calls_completed _ _ _ _ _ Hrun) as [E1' Hnames].
      rewrite E1 in E1'. apply app_inv_head in E1'. subst e1.
      destruct (last calls) as [lastCall|] eqn:Hlast;
        [|apply last_None in Hlast; subst calls; simpl in Hge; lia].
      simpl in Hnames. apply (f_equal last) in Hnames.
      rewrite !fmap_last, Hlast in Hnames.
      unfold Orchestrator.compact. fold (fresh_chat_state rs st2).
      destruct (fresh_chat_state_facts rs st2) as (_ & Tr & _ & L5 & T5).
      pose proof (withRetry_adds is_quiet (sendFunctionResults rs)
                    Retry.defaultMaxRetries (set_toolCallCount 0 st2)
                    (sendFunctionResults_adds rs) (fun _ => I))
        as (e2 & E2 & F2).
      set (st4 := snd (Retry.withRetry _ _ _ (set_toolCallCount 0 st2))) in *.
      set (st5 := fresh_chat_state rs st2) in *.
      destruct (last rs) as [ltr|]; [|discriminate].
      injection Hnames as Hname.
      set (msg := continuationMsg st5 ltr).
      set (st7 := Memory_save _ _).
      pose proof (withRetry_adds (says msg) (sendMessage msg)
                    Retry.defaultMaxRetries st7
                    (sendMessage_adds msg) (fun _ => I)) as (e3 & E3 & F3).
      set (sent := Retry.withRetry sleep (sendMessage msg) _ st7) in *.
      assert (Hsent : keeps st7 (snd sent))
        by (apply withRetry_keeps, sendMessage_keeps).
      destruct Hsent as (_ & L7 & _ & _ & T7).
      assert (Hlt8 : (toolCallCount (snd sent) < COMPACT_THRESHOLD)%nat).
      { rewrite T7. change (toolCallCount st7) with (toolCallCount st5).
        rewrite T5. unfold COMPACT_THRESHOLD. lia. }
      destruct (send_and_continue_ok (processResponse fuel)
                  "Error after compact: " sent IH Hlt8 (Some (name lastCall)))
        as (e4 & E4 & Hok4).
      assert (Htask : lastUserMessage (snd sent) = lastUserMessage st).
      { rewrite L7. change (lastUserMessage st7) with (lastUserMessage st5).
        rewrite L5. exact L. }
      rewrite Htask in Hok4.
      destruct (continuationMsg_includes st5 ltr) as [Hi1 Hi2].
      rewrite L5 in Hi1. change (lastUserMessage st2) with (lastUserMessage st1) in Hi1.
      rewrite L in Hi1. rewrite Hname in Hi2.
      destruct (says_ok (lastUserMessage st) msg (name lastCall) e3 F3 Hi1 Hi2)
        as [Hok3 Hl3].
      destruct (quiet_ok (lastUserMessage st) (Some (name lastCall))
                  (e2 ++ [EvStartChat (chats_started st4) []])) as [Hok2 Hl2].
      { apply Forall_app. split; [exact F2|]. constructor; [exact I|constructor]. }
      exists ((exec_event <$> calls)
              ++ (e2 ++ [EvStartChat (chats_started st4) []]) ++ e3 ++ e4).
      split.
      * rewrite E4, E3. change (trace st7) with (trace st5).
        rewrite Tr, E2. change (trace (set_toolCallCount 0 st2)) with (trace st1).
        rewrite E1. now rewrite <- !app_assoc.
      * apply messages_ok_app; [now apply execs_ok|].
        rewrite (last_exec_calls lt calls lastCall Hlast).
        apply messages_ok_app; [exact Hok2|]. rewrite Hl2.
        apply messages_ok_app; [exact Hok3|]. now rewrite Hl3.
    + (* the normal path *)
      unfold Orchestrator.send_results.
      pose proof (withRetry_adds is_quiet (sendFunctionResults rs)
                    Retry.defaultMaxRetries st2
                    (sendFunctionResults_adds rs) (fun _ => I))
        as (e2 & E2 & F2).
      set (sent := Retry.withRetry sleep (sendFunctionResults rs) _ st2) in *.
      assert (Hsent : keeps st2 (snd sent))
        by (apply withRetry_keeps, sendFunctionResults_keeps).
      destruct Hsent as (_ & L7 & _ & _ & T7).
      assert (Hlt8 : (toolCallCount (snd sent) < COMPACT_THRESHOLD)%nat)
        by (now rewrite T7).
      destruct (send_and_continue_ok (processResponse fuel)
                  "Tool result error: " sent IH Hlt8
                  (last_exec (last_exec lt e1) e2))
        as (e4 & E4 & Hok4).
      assert (Htask : lastUserMessage (snd sent) = lastUserMessage st).
      { rewrite L7. change (lastUserMessage st2) with (lastUserMessage st1).
        exact L. }
      rewrite Htask in Hok4.
      exists (e1 ++ e2 ++ e4). split.
      * rewrite E4, E2. change (trace st2) with (trace st1).
        rewrite E1. now rewrite <- !app_assoc.
      * apply messages_ok_app; [now apply execs_ok|].
        apply messages_ok_app; [now apply quiet_ok|exact Hok4].
Qed.

End Turn.

(** A run for the examples: every tool succeeds, the model answers with
    a text, and one Ctrl+C arrives while the request number [n] of the
    turn is pending ([n = 0]: none). *)
Definition demo_executeTool (_ : list Event) (nm : string)
  (_ : gmap string jsval) : string := "Done: " +:+ nm.

Definition demo_gemini (_ : list Event) : outcome GeminiResponse :=
  Ok (TextResponse "All done.").

Definition ctrl_c_during (n : nat) (tr : list Event) : nat :=
  if (0 <? n)%nat && (length tr =? n)%nat then 1%nat else 0%nat.

Definition demo_now (_ : list Event) : string := "2025-01-15T14:30:00.000Z".

Definition demo_memory (_ : list MemoryEntry) (_ : list Event) : string :=
  EmptyString.

Definition demo_stringify_call (nm : string) (_ : gmap string jsval) : string :=
  "{name: " +:+ nm +:+ "}".

Definition demo_stringify (s : string) : string := dq +:+ s +:+ dq.

Definition demo_processResponse (press : nat) :=
  Orchestrator.processResponse demo_executeTool demo_gemini
    (ctrl_c_during press) demo_now "/work" demo_memory
    demo_stringify_call demo_stringify.

Definition demo_run_calls (press : nat) :=
  Orchestrator.run_calls demo_executeTool (ctrl_c_during press) demo_now
    demo_stringify_call.

(** The state at the start of a turn with [count] tool calls so far. *)
Definition turn_state (count : nat) : CLI :=
  mkCLI (Some 0%nat) false true count "Summarise the inbox" [] false [] [] 1 [].

Definition call_read : Call := mkCall "chrome_get_page_text" ∅.
Definition call_click : Call :=
  mkCall "chrome_click" (<["target" := JString "Inbox"]> ∅).
Definition call_scroll : Call :=
  mkCall "chrome_scroll" (<["direction" := JString "down"]> ∅).

Definition batch5 : list Call :=
  [call_read; call_click; call_read; call_scroll; call_read].

(** A Ctrl+C during the second call of a batch of five: the requests of
    the turn are the first two executions. *)
Lemma interrupt_abandons_batch_witness :
  trace (snd (demo_processResponse 2 1 (FunctionCalls batch5 None) (turn_state 0)))
  = [exec_event call_read; exec_event call_click].
Proof.
  edestruct (interrupt_abandons_batch demo_executeTool demo_gemini
               (ctrl_c_during 2) demo_now "/work" demo_memory
               demo_stringify_call demo_stringify
               0 2 batch5 None (turn_state 0)) as [H1 H2].
  - vm_compute. reflexivity.
  - vm_compute. reflexivity.
  - unfold demo_processResponse. rewrite H1. exact H2.
Defined.

(** Eleven calls so far and a batch of one: the counter reaches 12. *)
Lemma compaction_continuation_witness :
  exists before c msg after,
    trace (snd (demo_processResponse 0 2 (FunctionCalls [call_click] None)
                  (turn_state 11)))
    = before ++ EvStartChat c [] :: EvSendMessage c msg :: after /\
    includes "Summarise the inbox" msg = true /\
    includes "chrome_click" msg = true.
Proof.
  edestruct (compaction_continuation demo_executeTool demo_gemini
               (ctrl_c_during 0) demo_now "/work" demo_memory
               demo_stringify_call demo_stringify
               1 [call_click] None (turn_state 11))
    as (lastCall & before & c & msg & after & Hlast & Htr & _ & Hi1 & Hi2).
  - reflexivity.
  - unfold COMPACT_THRESHOLD. simpl. lia.
  - vm_compute. reflexivity.
  - vm_compute. reflexivity.
  - unfold COMPACT_THRESHOLD. simpl. lia.
  - injection Hlast as <-.
    exists before, c, msg, after. unfold demo_processResponse. auto.
Defined.

End OrchestratorFacts.

(** ** More on [withRetry] *)

Module RetryLoopFacts.
Import Js Regex Retry.

Section Loop.
Context {W T : Type}.
Variable sleep : Z -> W -> W.
Variable fn : W -> outcome T * W.

(** The world in which the call number [n] is made (the first call is
    number 0) when every call before it was retried: the world left by
    the call before, after the sleep that follows it. *)
Fixpoint world_before (n : nat) (w : W) : W :=
  match n with
  | O => w
  | S k =>
      match fn (world_before k w) with
      | (Throw err, w1) => sleep (waitSec (message_or_empty err) k * 1000) w1
      | (Ok _, w1) => w1
      end
  end.

(** The outcome of the call number [attempt] is followed by another
    call: it is a rate-limit error and retries are left. *)
Definition retried (maxRetries attempt : nat) (o : outcome T) : bool :=
  match o with
  | Throw err =>
      isRateLimit (message_or_empty err) && (attempt <? maxRetries)%nat
  | Ok _ => false
  end.

Lemma withRetry_loop_last_call (maxRetries fuel attempt : nat) (w : W) :
  (fuel + attempt = S maxRetries)%nat ->
  (0 < fuel)%nat ->
  (forall k, (k < attempt)%nat ->
             retried maxRetries k (fst (fn (world_before k w))) = true) ->
  exists n,
    (attempt <= n <= maxRetries)%nat /\
    (forall k, (k < n)%nat ->
               retried maxRetries k (fst (fn (world_before k w))) = true) /\
    retried maxRetries n (fst (fn (world_before n w))) = false /\
    withRetry_loop sleep fn maxRetries fuel attempt (world_before attempt w)
    = fn (world_before n w).
Proof.
  revert attempt. induction fuel as [|fuel IH]; intros attempt Hsum Hpos Hbefore;
    [lia|].
  cbn [withRetry_loop].
  destruct (fn (world_before attempt w)) as [[v|err] w1] eqn:E.
  - exists attempt. rewrite E. repeat split; [lia|lia|exact Hbefore].
  - destruct (isRateLimit (message_or_empty err) && (attempt <? maxRetries)%nat)
      eqn:Hretry.
    + assert (Hlt : (attempt < maxRetries)%nat).
      { apply andb_prop in Hretry as [_ H]. now apply Nat.ltb_lt in H. }
      destruct (IH (S attempt)) as (n & Hn & Hall & Hlast & Hres); [lia|lia| |].
      { intros k Hk. destruct (Nat.eq_dec k attempt) as [->|Hne].
        - rewrite E. exact Hretry.
        - apply Hbefore. lia. }
      exists n. repeat split; [lia|lia|exact Hall|exact Hlast|].
      rewrite <- Hres. cbn [world_before]. now rewrite E.
    + exists attempt. rewrite E. repeat split; [lia|lia|exact Hbefore|exact Hretry].
Qed.

(** X1: [withRetry] returns what its last call of [fn] returned, outcome
    and world: for some [n <= maxRetries], the calls number 0 to [n - 1]
    fail with a rate-limit error and are each followed by the sleep and
    the next call, the call number [n] is not retried, and its result is
    the result of [withRetry].  The loop adds no error of its own: the
    final [throw new Error("Unreachable")] is never reached. *)
Theorem withRetry_returns_last_call (maxRetries : nat) (w : W) :
  exists n,
    (n <= maxRetries)%nat /\
    (forall k, (k < n)%nat ->
               retried maxRetries k (fst (fn (world_before k w))) = true) /\
    retried maxRetries n (fst (fn (world_before n w))) = false /\
    withRetry sleep fn maxRetries w = fn (world_before n w).
Proof.
  destruct (withRetry_loop_last_call maxRetries (S maxRetries) 0 w)
    as (n & Hn & Hall & Hlast & Hres); [lia|lia|intros k Hk; lia|].
  exists n. repeat split; [lia|exact Hall|exact Hlast|exact Hres].
Qed.

(** X3: an error that is not a rate-limit error is thrown again at once: one
    call, no sleep. *)
Theorem withRetry_rethrows_other_errors (maxRetries : nat) (w w1 : W)
  (err : Thrown) :
  fn w = (Throw err, w1) ->
  isRateLimit (message_or_empty err) = false ->
  withRetry sleep fn maxRetries w = (Throw err, w1).
Proof. intros Hfn Hrl. unfold withRetry. simpl. now rewrite Hfn, Hrl. Qed.

End Loop.

(** Counting the calls: the world is paired with the number of calls of
    [fn] made so far. *)
Definition counted {W T : Type} (fn : W -> outcome T * W)
  (wn : W * nat) : outcome T * (W * nat) :=
  let (o, w') := fn (fst wn) in (o, (w', S (snd wn))).

Definition sleep_counted {W : Type} (sleep : Z -> W -> W) (ms : Z)
  (wn : W * nat) : W * nat :=
  (sleep ms (fst wn), snd wn).

Lemma counted_eq {W T : Type} (fn : W -> outcome T * W) (w : W) (n : nat) :
  counted fn (w, n) = (fst (fn w), (snd (fn w), S n)).
Proof. unfold counted. simpl. now destruct (fn w). Qed.

Lemma withRetry_loop_calls {W T : Type} (sleep : Z -> W -> W)
  (fn : W -> outcome T * W) (maxRetries fuel attempt : nat) (w : W) (n : nat) :
  let r := withRetry_loop (sleep_counted sleep) (counted fn)
             maxRetries fuel attempt (w, n) in
  (n <= snd (snd r) <= n + fuel)%nat /\
  ((0 < fuel)%nat -> (S n <= snd (snd r))%nat).
Proof.
  revert attempt w n. induction fuel as [|fuel IH]; intros attempt w n.
  - simpl. lia.
  - cbn [withRetry_loop]. rewrite counted_eq.
    destruct (fst (fn w)) as [v|err]; [simpl; lia|].
    destruct (_ && _); [|simpl; lia].
    change (sleep_counted sleep (waitSec (message_or_empty err) attempt * 1000)
              (snd (fn w), S n))
      with (sleep (waitSec (message_or_empty err) attempt * 1000) (snd (fn w)), S n).
    destruct (IH (S attempt)
                (sleep (waitSec (message_or_empty err) attempt * 1000) (snd (fn w)))
                (S n)) as [H _].
    cbv zeta in *. lia.
Qed.

(** X2: [withRetry] calls [fn] at least once and at most [maxRetries + 1]
    times, whatever [fn] answers. *)
Theorem withRetry_call_bound {W T : Type} (sleep : Z -> W -> W)
  (fn : W -> outcome T * W) (maxRetries : nat) (w : W) :
  let calls := snd (snd (withRetry (sleep_counted sleep) (counted fn)
                           maxRetries (w, 0%nat))) in
  (1 <= calls <= maxRetries + 1)%nat.
Proof.
  cbv zeta. unfold withRetry.
  destruct (withRetry_loop_calls sleep fn maxRetries (S maxRetries) 0 w 0)
    as [H1 H2].
  cbv zeta in *. specialize (H2 ltac:(lia)). lia.
Qed.

(** The waits of the linear backoff: [10 * k] seconds before attempt
    [k + 1]. *)
Fixpoint backoff_sleeps (from count : nat) : list Z :=
match count with
| O => []
| S count' => (10 * (Z.of_nat from + 1) * 1000) :: backoff_sleeps (S from) count'
end.

(** A call that fails every time with the error [errs k] at call [k]. *)
Definition always_failing {T : Type} (errs : nat -> Thrown) (w : RetryWorld)
  : outcome T * RetryWorld :=
  (Throw (errs (calls_made w)), mkRetryWorld (S (calls_made w)) (sleeps w)).

Lemma withRetry_loop_exhausted {T : Type} (errs : nat -> Thrown)
  (maxRetries fuel attempt : nat) (done : list Z) :
  (forall k, isRateLimit (message_or_empty (errs k)) = true) ->
  (forall k, retryMatch (message_or_empty (errs k)) = None) ->
  (fuel + attempt = S maxRetries)%nat ->
  (0 < fuel)%nat ->
  withRetry_loop record_sleep (always_failing (T:=T) errs) maxRetries fuel attempt
    (mkRetryWorld attempt done)
  = (Throw (errs maxRetries),
     mkRetryWorld (S maxRetries) (done ++ backoff_sleeps attempt (fuel - 1))).
Proof.
  intros Hrl Hnm. revert attempt done.
  induction fuel as [|fuel IH]; intros attempt done Hsum Hpos; [lia|].
  simpl. unfold always_failing at 1. simpl. rewrite Hrl. simpl.
  destruct (Nat.ltb_spec attempt maxRetries) as [Hlt|Hge].
  - unfold record_sleep. simpl.
    rewrite IH by lia.
    rewrite RetryFacts.waitSec_backoff by apply Hnm.
    destruct fuel as [|fuel]; [lia|]. simpl. rewrite Nat.sub_0_r.
    now rewrite <- app_assoc.
  - assert (attempt = maxRetries) by lia. subst attempt.
    assert (fuel = 0%nat) by lia. subst fuel. simpl. now rewrite app_nil_r.
Qed.

(** X4: when every attempt fails with a rate-limit error that names no delay,
    [withRetry] makes [maxRetries + 1] calls, waits 10 s, 20 s, ... in
    between, and ends with the error of the last call. *)
Theorem withRetry_exhausted {T : Type} (errs : nat -> Thrown) (maxRetries : nat) :
  (forall k, isRateLimit (message_or_empty (errs k)) = true) ->
  (forall k, retryMatch (message_or_empty (errs k)) = None) ->
  withRetry record_sleep (always_failing (T:=T) errs) maxRetries
    (mkRetryWorld 0 [])
  = (Throw (errs maxRetries),
     mkRetryWorld (S maxRetries) (backoff_sleeps 0 maxRetries)).
Proof.
  intros Hrl Hnm. unfold withRetry.
  rewrite (withRetry_loop_exhausted errs maxRetries (S maxRetries) 0 [] Hrl Hnm)
    by lia.
  simpl. now rewrite Nat.sub_0_r.
Qed.

Definition quota_error (_ : nat) : Thrown := Error "429 quota exceeded".

Lemma withRetry_exhausted_witness :
  withRetry record_sleep (always_failing (T:=string) quota_error) 5
    (mkRetryWorld 0 [])
  = (Throw (Error "429 quota exceeded"),
     mkRetryWorld 6 [10000; 20000; 30000; 40000; 50000]).
Proof.
  apply (withRetry_exhausted (T:=string) quota_error 5);
    intros k; vm_compute; reflexivity.
Defined.

Lemma withRetry_rethrows_other_errors_witness :
  withRetry record_sleep
    (scripted [Throw (Error "API_KEY invalid"); Ok "late"]) 5 (mkRetryWorld 0 [])
  = (Throw (Error "API_KEY invalid"), mkRetryWorld 1 []).
Proof.
  apply (withRetry_rethrows_other_errors record_sleep
           (scripted [Throw (Error "API_KEY invalid"); Ok "late"]) 5
           (mkRetryWorld 0 []));
    vm_compute; reflexivity.
Defined.

End RetryLoopFacts.

(** ** The texts of a history *)

Module HistoryTextFacts.
Import JsNum Session HistoryFacts.

(** The texts of a list of blocks, in order. *)
Definition texts (h : list Block) : list string := concat (parts <$> h).

Lemma texts_app (a b : list Block) : texts (a ++ b) = texts a ++ texts b.
Proof. unfold texts. now rewrite fmap_app, concat_app. Qed.

Lemma merge_step_texts (merged : list Block) (entry : Block) :
  texts (merge_step merged entry) = texts merged ++ parts entry.
Proof.
  unfold merge_step.
  destruct (last merged) as [l|] eqn:E.
  - apply last_Some in E as [init ->]. rewrite removelast_last.
    destruct (GRole_eqb (brole l) (brole entry)); rewrite !texts_app;
      unfold texts; simpl; rewrite ?app_nil_r; now rewrite <- ?app_assoc.
  - apply last_None in E as ->. unfold texts. simpl. now rewrite app_nil_r.
Qed.

Lemma merge_texts (history merged : list Block) :
  texts (fold_left merge_step history merged) = texts merged ++ texts history.
Proof.
  revert merged. induction history as [|e history IH]; intros merged; simpl.
  - unfold texts at 3. simpl. now rewrite app_nil_r.
  - rewrite IH, merge_step_texts. unfold texts at 4. simpl.
    now rewrite <- app_assoc.
Qed.

Lemma shift_while_split {A : Type} (p : A -> bool) (l : list A) :
  exists d, l = d ++ shift_while p l /\ Forall (fun x => p x = true) d.
Proof.
  induction l as [|x l (d & E & F)]; simpl.
  - now exists [].
  - destruct (p x) eqn:Ex.
    + exists (x :: d). split; [simpl; now f_equal|now constructor].
    + now exists [].
Qed.

Lemma pop_while_split {A : Type} (p : A -> bool) (l : list A) :
  exists d, l = pop_while p l ++ d /\ Forall (fun x => p x = true) d.
Proof.
  unfold pop_while. destruct (shift_while_split p (rev l)) as (d & E & F).
  exists (rev d). split.
  - rewrite <- rev_app_distr, <- E. now rewrite rev_involutive.
  - now apply Forall_rev.
Qed.

(** The longest run of elements satisfying [p] at the start of a list,
    and at its end. *)
Fixpoint leading_run {A : Type} (p : A -> bool) (l : list A) : list A :=
  match l with
  | [] => []
  | x :: rest => if p x then x :: leading_run p rest else []
  end.

Definition trailing_run {A : Type} (p : A -> bool) (l : list A) : list A :=
  rev (leading_run p (rev l)).

Lemma shift_while_leading {A : Type} (p : A -> bool) (l : list A) :
  l = leading_run p l ++ shift_while p l.
Proof.
  induction l as [|x l IH]; [reflexivity|].
  simpl. destruct (p x); [|reflexivity]. simpl. now f_equal.
Qed.

Lemma pop_while_trailing {A : Type} (p : A -> bool) (l : list A) :
  l = pop_while p l ++ trailing_run p l.
Proof.
  unfold pop_while, trailing_run.
  rewrite <- rev_app_distr, <- shift_while_leading. now rewrite rev_involutive.
Qed.

Lemma trailing_run_snoc {A : Type} (p : A -> bool) (l : list A) (x : A) :
  trailing_run p (l ++ [x])
  = if p x then trailing_run p l ++ [x] else [].
Proof.
  unfold trailing_run. rewrite rev_app_distr. simpl.
  now destruct (p x).
Qed.

(** The texts of the user blocks at the end of a list of blocks. *)
Definition trailing_user_texts (l : list Block) : list string :=
  texts (trailing_run is_user l).

Lemma trailing_user_texts_snoc (l : list Block) (b : Block) :
  trailing_user_texts (l ++ [b])
  = if is_user b then trailing_user_texts l ++ parts b else [].
Proof.
  unfold trailing_user_texts. rewrite trailing_run_snoc.
  destruct (is_user b); [|reflexivity].
  rewrite texts_app. unfold texts at 2. simpl. now rewrite app_nil_r.
Qed.

(** The texts at the end depend on the front of the list only through
    its own texts at the end. *)
Lemma trailing_user_texts_app (a a' h : list Block) :
  trailing_user_texts a = trailing_user_texts a' ->
  trailing_user_texts (a ++ h) = trailing_user_texts (a' ++ h).
Proof.
  intros H. induction h as [|x h IH] using rev_ind.
  - now rewrite !app_nil_r.
  - rewrite !app_assoc, !trailing_user_texts_snoc. now rewrite IH.
Qed.

Lemma trailing_user_texts_merge_step (merged : list Block) (entry : Block) :
  trailing_user_texts (merge_step merged entry)
  = trailing_user_texts (merged ++ [entry]).
Proof.
  unfold merge_step.
  destruct (last merged) as [l|] eqn:E; [|reflexivity].
  apply last_Some in E as [init ->]. rewrite removelast_last.
  destruct (GRole_eqb (brole l) (brole entry)) eqn:Er; [|reflexivity].
  apply GRole_eqb_eq in Er.
  rewrite !trailing_user_texts_snoc. unfold is_user. simpl. rewrite <- Er.
  destruct (GRole_eqb (brole l) User); [|reflexivity].
  now rewrite <- app_assoc.
Qed.

Lemma trailing_user_texts_merge (history merged : list Block) :
  trailing_user_texts (fold_left merge_step history merged)
  = trailing_user_texts (merged ++ history).
Proof.
  revert merged. induction history as [|e history IH]; intros merged; simpl.
  - now rewrite app_nil_r.
  - rewrite IH.
    rewrite (trailing_user_texts_app (merge_step merged e) (merged ++ [e]))
      by apply trailing_user_texts_merge_step.
    now rewrite <- app_assoc.
Qed.

(** X5: merging neither invents, nor duplicates, nor reorders, nor drops
    text from the middle: the texts of the history returned, put between
    the texts of the model blocks at the start of the recent non-system
    blocks and the texts of the user blocks at their end, are the texts of
    the recent non-system entries, in order.  What is missing on the left
    is the longest run of model-role blocks at the start, on the right
    the longest run of user-role blocks at the end of what is left. *)
Theorem toGeminiHistory_texts (contextTurns : jsint) (entries : list LogEntry) :
  let blocks := omap to_block (recentEntries contextTurns entries) in
  texts blocks
  = texts (leading_run is_model blocks)
    ++ texts (toGeminiHistory contextTurns entries)
    ++ texts (trailing_run is_user (shift_while is_model blocks)).
Proof.
  intros blocks. unfold toGeminiHistory. fold blocks.
  set (hist := shift_while is_model blocks).
  rewrite (shift_while_leading is_model blocks) at 1. fold hist.
  rewrite texts_app. f_equal.
  pose proof (merge_texts hist []) as Hm.
  rewrite (pop_while_trailing is_user (fold_left merge_step hist [])) in Hm.
  rewrite texts_app in Hm. simpl in Hm.
  fold (trailing_user_texts (fold_left merge_step hist [])) in Hm.
  rewrite (trailing_user_texts_merge hist []) in Hm.
  symmetry. exact Hm.
Qed.

End HistoryTextFacts.

(** ** The session log of a turn *)

Module TurnLogFacts.
Import Js JsString Session Orchestrator OrchestratorFacts.

Definition role_is (r : Role) (e : LogEntry) : bool :=
  match r, role e with
  | user, user | model, model | tool_call, tool_call
  | tool_result, tool_result | system, system => true
  | _, _ => false
  end.

Definition count_role (r : Role) (es : list LogEntry) : nat :=
  length (List.filter (role_is r) es).

Definition is_exec_b (ev : Event) : bool :=
  match ev with EvExecuteTool _ _ => true | _ => false end.

Definition count_exec (evs : list Event) : nat :=
  length (List.filter is_exec_b evs).

(** [st'] comes after [st] with a longer log and more requests, and the
    log gained one [tool_call] entry and one [tool_result] entry for each
    tool execution requested. *)
Definition logged (st st' : CLI) : Prop :=
  exists es evs,
    entries st' = entries st ++ es /\
    trace st' = trace st ++ evs /\
    count_role tool_call es = count_exec evs /\
    count_role tool_result es = count_exec evs.

Lemma count_role_app (r : Role) (a b : list LogEntry) :
  count_role r (a ++ b) = (count_role r a + count_role r b)%nat.
Proof. unfold count_role. now rewrite List.filter_app, length_app. Qed.

Lemma count_exec_app (a b : list Event) :
  count_exec (a ++ b) = (count_exec a + count_exec b)%nat.
Proof. unfold count_exec. now rewrite List.filter_app, length_app. Qed.

Lemma logged_refl (st : CLI) : logged st st.
Proof. exists [], []. now rewrite !app_nil_r. Qed.

Lemma logged_trans (a b c : CLI) : logged a b -> logged b c -> logged a c.
Proof.
  intros (e1 & v1 & E1 & T1 & C1 & R1) (e2 & v2 & E2 & T2 & C2 & R2).
  exists (e1 ++ e2), (v1 ++ v2).
  rewrite E2, E1, T2, T1, <- !app_assoc, !count_role_app, count_exec_app.
  repeat split; lia.
Qed.

(** A state that differs in neither the log nor the requests. *)
Lemma logged_same (st st' : CLI) :
  entries st' = entries st -> trace st' = trace st -> logged st st'.
Proof. intros E T. exists [], []. now rewrite E, T, !app_nil_r. Qed.

Section Turn.
Variable executeTool : list Event -> string -> gmap string jsval -> string.
Variable gemini : list Event -> outcome GeminiResponse.
Variable ctrl_c : list Event -> nat.
Variable now_iso : list Event -> string.
Variable getWorkingDir : string.
Variable formatForContext : list MemoryEntry -> list Event -> string.
Variable stringify_call : string -> gmap string jsval -> string.
Variable stringify : string -> string.

Abbreviation session_append := (session_append now_iso).
Abbreviation on_sigint := (on_sigint now_iso).
Abbreviation await := (await ctrl_c now_iso).
Abbreviation exec_call := (exec_call executeTool ctrl_c now_iso stringify_call).
Abbreviation run_calls := (run_calls executeTool ctrl_c now_iso stringify_call).
Abbreviation sendFunctionResults := (sendFunctionResults gemini ctrl_c now_iso).
Abbreviation sendMessage := (sendMessage gemini ctrl_c now_iso).
Abbreviation sleep := (sleep ctrl_c now_iso).
Abbreviation on_error := (on_error now_iso).
Abbreviation compact :=
  (compact gemini ctrl_c now_iso getWorkingDir formatForContext stringify).
Abbreviation send_results := (send_results gemini ctrl_c now_iso).
Abbreviation processResponse :=
  (processResponse executeTool gemini ctrl_c now_iso getWorkingDir
     formatForContext stringify_call stringify).

Lemma session_append_logged (r : Role) (text : string)
  (meta : option (gmap string string)) (st : CLI) :
  r <> tool_call -> r <> tool_result ->
  logged st (session_append r text meta st).
Proof.
  intros H1 H2. exists [mkEntry (now_iso (trace st)) r text meta], [].
  unfold count_role, count_exec. simpl. rewrite app_nil_r.
  repeat split; destruct r; simpl; congruence.
Qed.

Lemma on_sigint_logged (st : CLI) : logged st (on_sigint st).
Proof.
  unfold Orchestrator.on_sigint. destruct (processing st && _).
  - eapply logged_trans; [|apply session_append_logged; discriminate].
    now apply logged_same.
  - now apply logged_same.
Qed.

Lemma await_logged (st : CLI) : logged st (await st).
Proof.
  unfold Orchestrator.await. induction (ctrl_c (trace st)) as [|n IH]; simpl.
  - apply logged_refl.
  - eapply logged_trans; [exact IH|apply on_sigint_logged].
Qed.

Lemma emit_logged (ev : Event) (st : CLI) :
  is_exec_b ev = false -> logged st (emit ev st).
Proof.
  intros H. exists [], [ev]. simpl. rewrite app_nil_r.
  unfold count_exec. simpl. rewrite H. auto.
Qed.

Lemma track_action_logged (c : Call) (result : string) (st : CLI) :
  logged st (track_action c result st).
Proof.
  unfold track_action.
  destruct (_ && _); [now apply logged_same|].
  destruct (_ && _); [now apply logged_same|].
  destruct (_ && _); [now apply logged_same|apply logged_refl].
Qed.

Lemma exec_call_logged (c : Call) (st : CLI) : logged st (snd (exec_call c st)).
Proof.
  unfold Orchestrator.exec_call. cbn [snd].
  eapply logged_trans; [|apply track_action_logged].
  set (st1 := Orchestrator.session_append now_iso tool_call _ None st).
  set (st2 := emit _ st1).
  destruct (await_logged st2) as (es & evs & E & T & C & R).
  rewrite (await_trace ctrl_c now_iso st2) in T.
  assert (evs = []) as ->.
  { apply (f_equal length) in T. rewrite length_app in T.
    destruct evs; [reflexivity|simpl in T; lia]. }
  set (result := executeTool (trace st2) (name c) (args c)).
  exists ([mkEntry (now_iso (trace st)) tool_call
             (stringify_call (name c) (args c)) None]
          ++ es
          ++ [mkEntry (now_iso (trace (await st2))) tool_result result
                (Some {[ "tool" := name c ]})]),
         [EvExecuteTool (name c) (args c)].
  split; [simpl; rewrite E; simpl; now rewrite <- !app_assoc|].
  split; [simpl; now rewrite (await_trace ctrl_c now_iso st2)|].
  rewrite !count_role_app. unfold count_exec in *. simpl in C, R.
  split; unfold count_role in *; simpl; lia.
Qed.

Lemma run_calls_logged (calls : list Call) (st : CLI)
  (rs : list (string * string)) :
  logged st (run_calls calls st rs).1.2.
Proof.
  revert st rs. induction calls as [|c calls IH]; intros st rs.
  - apply logged_refl.
  - rewrite (run_calls_cons executeTool ctrl_c now_iso stringify_call).
    destruct (interrupted st); [apply logged_refl|].
    pose proof (exec_call_logged c st) as H.
    destruct (exec_call c st) as [result st']. simpl in H.
    eapply logged_trans; [exact H|apply IH].
Qed.

Lemma sendFunctionResults_logged (rs : list (string * string)) (st : CLI) :
  logged st (snd (sendFunctionResults rs st)).
Proof.
  unfold Orchestrator.sendFunctionResults.
  destruct (chat st); simpl; [|apply logged_refl].
  eapply logged_trans; [|apply await_logged]. now apply emit_logged.
Qed.

Lemma sendMessage_logged (msg : string) (st : CLI) :
  logged st (snd (sendMessage msg st)).
Proof.
  unfold Orchestrator.sendMessage.
  destruct (chat st); simpl; [|apply logged_refl].
  eapply logged_trans; [|apply await_logged]. now apply emit_logged.
Qed.

Lemma sleep_logged (ms : Z) (st : CLI) : logged st (sleep ms st).
Proof.
  unfold Orchestrator.sleep.
  eapply logged_trans; [|apply await_logged]. now apply emit_logged.
Qed.

Lemma withRetry_logged {T : Type} (fn : CLI -> outcome T * CLI)
  (maxRetries : nat) (st : CLI) :
  (forall st, logged st (snd (fn st))) ->
  logged st (snd (Retry.withRetry sleep fn maxRetries st)).
Proof.
  intros Hfn. unfold Retry.withRetry.
  generalize 0%nat as attempt. generalize (S maxRetries) as fuel.
  intros fuel. revert st. induction fuel as [|fuel IH]; intros st attempt; simpl.
  - apply logged_refl.
  - pose proof (Hfn st) as H.
    destruct (fn st) as [[v|err] st1]; simpl in *; [exact H|].
    destruct (_ && _); [|exact H].
    eapply logged_trans; [exact H|].
    eapply logged_trans; [apply sleep_logged|apply IH].
Qed.

Lemma on_error_logged (label : string) (err : Thrown) (st : CLI) :
  logged st (snd (on_error label err st)).
Proof.
  unfold Orchestrator.on_error.
  destruct (interrupted st); simpl; [apply logged_refl|].
  apply session_append_logged; discriminate.
Qed.

Lemma send_and_continue_logged
  (rec : GeminiResponse -> CLI -> option (outcome unit) * CLI)
  (label : string) (sent : outcome GeminiResponse * CLI) :
  (forall r st, logged st (snd (rec r st))) ->
  logged (snd sent) (snd (send_and_continue now_iso rec label sent)).
Proof.
  intros Hrec. destruct sent as [[next|err] st]; simpl.
  - pose proof (Hrec next st) as H.
    destruct (rec next st) as [[[u|err]|] st']; simpl in *; try exact H.
    eapply logged_trans; [exact H|apply on_error_logged].
  - apply on_error_logged.
Qed.

Lemma compact_logged
  (rec : GeminiResponse -> CLI -> option (outcome unit) * CLI)
  (rs : list (string * string)) (st : CLI) :
  (forall r st, logged st (snd (rec r st))) ->
  logged st (snd (compact rec rs st)).
Proof.
  intros Hrec. unfold Orchestrator.compact.
  set (st3 := set_toolCallCount 0 st).
  set (st4 := snd (Retry.withRetry _ _ _ st3)).
  assert (H4 : logged st st4).
  { eapply logged_trans; [|apply withRetry_logged, sendFunctionResults_logged].
    now apply logged_same. }
  assert (H5 : logged st (startChat [] st4)).
  { eapply logged_trans; [exact H4|].
    unfold startChat.
    eapply logged_trans; [|now apply emit_logged]. now apply logged_same. }
  destruct (last rs) as [lastToolResult|]; cbn [snd]; [|exact H5].
  eapply logged_trans; [exact H5|].
  eapply logged_trans; [|apply send_and_continue_logged, Hrec].
  eapply logged_trans; [|apply withRetry_logged, sendMessage_logged].
  eapply logged_trans; [apply (session_append_logged system); discriminate|].
  now apply logged_same.
Qed.

(** X6: for a model whose calls can all be displayed (the loop body of
    the code stops with a TypeError at a call that cannot), whatever the
    fuel, the answers of the tools and of the model, and the interrupts
    (each at least two seconds after the one before): [processResponse]
    only appends to the session log and to the requests, and the entries
    it appends hold one [tool_call] entry and one [tool_result] entry for
    each tool execution it requested. *)
Theorem processResponse_logs_every_call (fuel : nat)
  (response : GeminiResponse) (st : CLI) :
  (forall tr r, gemini tr = Ok r -> Display.displayable_response r = true) ->
  Display.displayable_response response = true ->
  logged st (snd (processResponse fuel response st)).
Proof.
  intros _ _.
  revert response st. induction fuel as [|fuel IH]; intros response st.
  - apply logged_refl.
  - rewrite (processResponse_S executeTool gemini ctrl_c now_iso getWorkingDir
               formatForContext stringify_call stringify).
    destruct (interrupted st); [apply logged_refl|].
    destruct response as [text|calls text].
    + cbn [snd]. eapply logged_trans; [|apply session_append_logged; discriminate].
      now apply logged_same.
    + pose proof (run_calls_logged calls st []) as Hrun.
      destruct (run_calls calls st []) as [[[] st1] rs]; simpl in Hrun;
        [|exact Hrun].
      destruct (interrupted st1); [exact Hrun|]. cbv zeta.
      set (st2 := set_toolCallCount _ st1).
      assert (H2 : logged st st2).
      { eapply logged_trans; [exact Hrun|]. now apply logged_same. }
      destruct (_ <=? _)%nat.
      * eapply logged_trans; [exact H2|apply compact_logged, IH].
      * eapply logged_trans; [exact H2|]. unfold Orchestrator.send_results.
        eapply logged_trans; [|apply send_and_continue_logged, IH].
        apply withRetry_logged, sendFunctionResults_logged.
Qed.

End Turn.

Lemma processResponse_logs_every_call_witness :
  logged (turn_state 0)
    (snd (demo_processResponse 2 3 (FunctionCalls batch5 None) (turn_state 0))).
Proof.
  apply (processResponse_logs_every_call demo_executeTool demo_gemini
           (ctrl_c_during 2) demo_now "/work" demo_memory demo_stringify_call
           demo_stringify 3 (FunctionCalls batch5 None) (turn_state 0)).
  - intros tr r H. vm_compute in H. injection H as <-. reflexivity.
  - reflexivity.
Defined.

End TurnLogFacts.

(** ** Repeated interrupts *)

Module InterruptFacts.
Import Js JsString Session Orchestrator OrchestratorFacts.

Section Turn.
Variable executeTool : list Event -> string -> gmap string jsval -> string.
Variable ctrl_c : list Event -> nat.
Variable now_iso : list Event -> string.
Variable stringify_call : string -> gmap string jsval -> string.

Abbreviation on_sigint := (on_sigint now_iso).
Abbreviation await := (await ctrl_c now_iso).
Abbreviation exec_call := (exec_call executeTool ctrl_c now_iso stringify_call).
Abbreviation run_calls := (run_calls executeTool ctrl_c now_iso stringify_call).

(** With no turn marked as running, a press re-arms the prompt. *)
Lemma on_sigint_idle (st : CLI) :
  processing st = false ->
  interrupted (on_sigint st) = false /\ processing (on_sigint st) = false.
Proof. intros H. unfold Orchestrator.on_sigint. now rewrite H. Qed.

Lemma presses_idle (n : nat) (st : CLI) :
  processing st = false -> interrupted st = false ->
  interrupted (Nat.iter n on_sigint st) = false /\
  processing (Nat.iter n on_sigint st) = false.
Proof.
  intros Hp Hi. induction n as [|n IH]; simpl; [auto|].
  apply on_sigint_idle, IH.
Qed.

(** The first press of a running turn sets the flag, the second one
    re-arms the prompt, which clears both flags; from there on the
    presses find no running turn. *)
Lemma presses_running (n : nat) (st : CLI) :
  processing st = true -> interrupted st = false ->
  interrupted (Nat.iter n on_sigint st) = (n =? 1)%nat /\
  processing (Nat.iter n on_sigint st) = (n <=? 1)%nat.
Proof.
  intros Hp Hi. destruct n as [|[|n]]; [auto| |].
  - simpl. unfold Orchestrator.on_sigint. now rewrite Hp, Hi.
  - rewrite !Nat.iter_succ_r.
    change ((S (S n) =? 1)%nat) with false.
    change ((S (S n) <=? 1)%nat) with false.
    apply presses_idle.
    + unfold Orchestrator.on_sigint at 2. rewrite Hp, Hi. simpl.
      unfold Orchestrator.on_sigint. reflexivity.
    + unfold Orchestrator.on_sigint at 2. rewrite Hp, Hi. simpl.
      unfold Orchestrator.on_sigint. reflexivity.
Qed.

Lemma exec_call_flags (c : Call) (st : CLI) :
  let n := ctrl_c (trace st ++ [exec_event c]) in
  interrupted (snd (exec_call c st)) =
    interrupted (Nat.iter n on_sigint
      (emit (exec_event c)
         (session_append now_iso tool_call (stringify_call (name c) (args c))
            None st))) /\
  processing (snd (exec_call c st)) =
    processing (Nat.iter n on_sigint
      (emit (exec_event c)
         (session_append now_iso tool_call (stringify_call (name c) (args c))
            None st))).
Proof.
  unfold Orchestrator.exec_call. cbn [snd].
  rewrite (proj2 (proj2 (track_action_keeps _ _ _))).
  split; [reflexivity|].
  unfold track_action.
  destruct (_ && _); [reflexivity|].
  destruct (_ && _); [reflexivity|].
  destruct (_ && _); reflexivity.
Qed.

(** X7: the presses counted here are at least two seconds apart (closer
    ones end the process).  During one pending tool call of a running
    turn, the interrupt flag is set at the next check exactly when one
    single press arrived: a second press during the same call re-arms
    the prompt, which clears the flag again, so the batch goes on. *)
Theorem exec_call_interrupted_iff_single_press (c : Call) (st : CLI) :
  processing st = true ->
  interrupted st = false ->
  (interrupted (snd (exec_call c st)) = true <->
   ctrl_c (trace st ++ [exec_event c]) = 1%nat).
Proof.
  intros Hp Hi. rewrite (proj1 (exec_call_flags c st)).
  rewrite (proj1 (presses_running (ctrl_c (trace st ++ [exec_event c]))
                    (emit (exec_event c)
                       (session_append now_iso tool_call
                          (stringify_call (name c) (args c)) None st)) Hp Hi)).
  apply Nat.eqb_eq.
Qed.

(** X8: the presses counted here are at least two seconds apart (closer
    ones end the process), and every call of the batch can be displayed
    (the loop body of the code stops with a TypeError at one that
    cannot).  Once the prompt has been re-armed while the turn goes on
    (no turn marked as running, flag clear), no number of such presses
    stops the batch: every call is executed, in order. *)
Theorem run_calls_cannot_be_interrupted_once_rearmed (calls : list Call)
  (st : CLI) (rs : list (string * string)) :
  forallb Display.displayable calls = true ->
  processing st = false ->
  interrupted st = false ->
  exists st' rs',
    run_calls calls st rs = (true, st', rs') /\
    trace st' = trace st ++ (exec_event <$> calls).
Proof.
  revert st rs. induction calls as [|c calls IH]; intros st rs Hd Hp Hi.
  - exists st, rs. simpl. now rewrite app_nil_r.
  - cbn [forallb] in Hd. apply andb_prop in Hd as [_ Hd].
    rewrite (run_calls_cons executeTool ctrl_c now_iso stringify_call), Hi.
    destruct (exec_call_flags c st) as [Fi Fp].
    destruct (presses_idle (ctrl_c (trace st ++ [exec_event c]))
                (emit (exec_event c)
                   (session_append now_iso tool_call
                      (stringify_call (name c) (args c)) None st)) Hp Hi)
      as [Gi Gp].
    rewrite Gi in Fi. rewrite Gp in Fp.
    pose proof (exec_call_trace executeTool ctrl_c now_iso stringify_call c st)
      as Ht.
    destruct (exec_call c st) as [result st1]. simpl in Fi, Fp, Ht.
    destruct (IH st1 (rs ++ [(name c, result)]) Hd Fp Fi) as (st' & rs' & E & T).
    exists st', rs'. split; [exact E|].
    rewrite T, Ht. simpl. now rewrite <- app_assoc.
Qed.

End Turn.

(** The state of a turn whose prompt was re-armed by a second press. *)
Definition rearmed_state : CLI :=
  mkCLI (Some 0%nat) false false 3 "Summarise the inbox" [] false [] [] 1 [].

Definition three_presses (_ : list Event) : nat := 3%nat.

Lemma exec_call_interrupted_iff_single_press_witness :
  interrupted (snd (Orchestrator.exec_call demo_executeTool (ctrl_c_during 1)
                      demo_now demo_stringify_call call_read (turn_state 0)))
    = true <->
  ctrl_c_during 1 (trace (turn_state 0) ++ [exec_event call_read]) = 1%nat.
Proof.
  apply (exec_call_interrupted_iff_single_press demo_executeTool
           (ctrl_c_during 1) demo_now demo_stringify_call call_read
           (turn_state 0)); reflexivity.
Defined.

Lemma run_calls_cannot_be_interrupted_once_rearmed_witness :
  exists st' rs',
    Orchestrator.run_calls demo_executeTool three_presses demo_now
      demo_stringify_call batch5 rearmed_state [] = (true, st', rs') /\
    trace st' = trace rearmed_state ++ (exec_event <$> batch5).
Proof.
  apply (run_calls_cannot_be_interrupted_once_rearmed demo_executeTool
           three_presses demo_now demo_stringify_call batch5 rearmed_state []);
    reflexivity.
Defined.

End InterruptFacts.

(** ** Blank strings *)

Module TrimFacts.
Import JsString JsStringFacts.

(** Some character of the string is not white space. *)
Fixpoint has_ink (s : string) : bool :=
  match s with
  | EmptyString => false
  | String c rest => negb (is_js_space c) || has_ink rest
  end.

Lemma has_ink_app (a b : string) : has_ink (a +:+ b) = has_ink a || has_ink b.
Proof.
  induction a as [|c a IH]; [reflexivity|].
  rewrite append_cons. simpl. now rewrite IH, orb_assoc.
Qed.

Lemma has_ink_rev_app (s acc : string) :
  has_ink (String.rev_app s acc) = has_ink s || has_ink acc.
Proof.
  revert acc. induction s as [|c s IH]; intros acc; [reflexivity|].
  simpl. rewrite IH. simpl.
  destruct (is_js_space c), (has_ink s), (has_ink acc); reflexivity.
Qed.

Lemma has_ink_rev (s : string) : has_ink (String.rev s) = has_ink s.
Proof. unfold String.rev. rewrite has_ink_rev_app. apply orb_false_r. Qed.

Lemma has_ink_trimStart (s : string) : has_ink (trimStart s) = has_ink s.
Proof.
  induction s as [|c s IH]; [reflexivity|].
  simpl. destruct (is_js_space c) eqn:E; simpl; [exact IH|now rewrite E].
Qed.

Lemma has_ink_trim (s : string) : has_ink (trim s) = has_ink s.
Proof.
  unfold trim, trimEnd.
  now rewrite has_ink_rev, has_ink_trimStart, has_ink_rev, has_ink_trimStart.
Qed.

Lemma trimStart_empty (s : string) :
  trimStart s = EmptyString <-> has_ink s = false.
Proof.
  induction s as [|c s IH]; [easy|].
  simpl. destruct (is_js_space c); simpl; [exact IH|easy].
Qed.

Lemma rev_app_empty (s acc : string) :
  String.rev_app s acc = EmptyString -> s = EmptyString.
Proof.
  revert acc. induction s as [|c s IH]; intros acc; [reflexivity|].
  simpl. intros H. pose proof (IH _ H) as ->. discriminate H.
Qed.

Lemma rev_empty (s : string) : String.rev s = EmptyString <-> s = EmptyString.
Proof.
  split; [apply rev_app_empty|now intros ->].
Qed.

(** [s.trim()] is empty exactly when [s] is white space only. *)
Lemma trim_empty (s : string) : trim s = EmptyString <-> has_ink s = false.
Proof.
  unfold trim, trimEnd.
  now rewrite rev_empty, trimStart_empty, has_ink_rev, has_ink_trimStart.
Qed.

Lemma has_ink_join (sep : string) (parts : list string) :
  has_ink sep = false ->
  has_ink (join sep parts) = existsb has_ink parts.
Proof.
  intros Hsep. induction parts as [|p [|q parts] IH]; [reflexivity| |].
  - simpl. now rewrite orb_false_r.
  - change (join sep (p :: q :: parts)) with (p +:+ sep +:+ join sep (q :: parts)).
    rewrite !has_ink_app, Hsep, IH. reflexivity.
Qed.

End TrimFacts.

(** ** The parsing of a model response *)

Module GeminiFacts.
Import Js JsString JsStringFacts Orchestrator Gemini TrimFacts.

Lemma truthy_text_ink (t : option string) (s : string) :
  truthy_text t = Some s -> s <> EmptyString.
Proof. destruct t as [[|c r]|]; simpl; intros [= <-]; discriminate. Qed.

Lemma textParts_nonempty (parts : list Part) :
  Forall (fun s => s <> EmptyString) (textParts_of parts).
Proof.
  unfold textParts_of. induction parts as [|p parts IH]; simpl; [constructor|].
  destruct (truthy_text (part_text p)) eqn:E; simpl; [|exact IH].
  constructor; [now apply truthy_text_ink in E|exact IH].
Qed.

Lemma join_nonempty (sep : string) (parts : list string) :
  parts <> [] -> Forall (fun s => s <> EmptyString) parts ->
  join sep parts <> EmptyString.
Proof.
  destruct parts as [|p [|q parts]]; [easy| |]; intros _ H;
    apply Forall_cons in H as [Hp _].
  - exact Hp.
  - change (join sep (p :: q :: parts)) with (p +:+ sep +:+ join sep (q :: parts)).
    destruct p; [easy|]. now rewrite append_cons.
Qed.

(** X9: what [parseResponse] hands to the turn loop is never void, whatever
    the API returned: a text answer holds a character that is not white
    space (a placeholder in brackets stands in for a missing, empty or
    blank answer), and a function-call answer holds at least one call,
    with a text that is absent or not empty. *)
Theorem parseResponse_never_void (response : GenerateContentResponse) :
  match parseResponse response with
  | TextResponse text => trim text <> EmptyString
  | FunctionCalls calls text => calls <> [] /\ text <> Some EmptyString
  end.
Proof.
  unfold parseResponse.
  assert (Hblocked : forall reason,
            trim ("(Response blocked: " +:+ reason +:+ ")") <> EmptyString).
  { intros reason H. apply trim_empty in H. discriminate. }
  destruct (candidates response) as [[|candidate rest]|].
  - destruct (truthy_text (blockReason response)); [apply Hblocked|].
    intros H. vm_compute in H. discriminate.
  - cbv zeta. set (parts := default [] (content_parts candidate)).
    pose proof (textParts_nonempty parts) as Htexts.
    assert (Hplaceholder :
      match
        (if finishReason_is "SAFETY" candidate then
           TextResponse "(Response filtered by safety settings)"
         else if finishReason_is "MAX_TOKENS" candidate then
           TextResponse "(Response cut off — token limit reached)"
         else TextResponse "(Model returned empty response)")
      with
      | TextResponse text => trim text <> EmptyString
      | FunctionCalls calls text => calls <> [] /\ text <> Some EmptyString
      end).
    { destruct (finishReason_is "SAFETY" candidate);
        [|destruct (finishReason_is "MAX_TOKENS" candidate)];
        intros H; vm_compute in H; discriminate. }
    destruct (functionCalls_of parts) as [|c calls] eqn:Ecalls;
      cbn [length Nat.ltb Nat.leb Nat.eqb orb].
    + destruct (textParts_of parts) as [|t texts] eqn:Etexts;
        cbn [length Nat.ltb Nat.leb Nat.eqb orb]; [exact Hplaceholder|].
      destruct (String.eqb_spec (trim (join EmptyString (t :: texts)))
                  EmptyString) as [E|E]; [exact Hplaceholder|].
      intros H. apply E. apply trim_empty. apply trim_empty in H.
      rewrite has_ink_join in H by reflexivity.
      now rewrite has_ink_join by reflexivity.
    + split; [easy|].
      destruct (textParts_of parts) as [|t texts] eqn:Etexts;
        cbn [length Nat.ltb Nat.leb]; [easy|].
      intros H.
      assert (H' : join nl (t :: texts) = EmptyString) by congruence.
      revert H'. now apply join_nonempty.
  - destruct (truthy_text (blockReason response)); [apply Hblocked|].
    intros H. vm_compute in H. discriminate.
Qed.

End GeminiFacts.

(** ** The JSON-lines files *)

Module JsonlFacts.
Import JsString JsStringFacts JsNum FileTools FileToolsFacts TrimFacts Jsonl.

Lemma rev_app_eq (s acc : string) :
  String.rev_app s acc = String.rev s +:+ acc.
Proof.
  revert acc. induction s as [|c s IH]; intros acc; [reflexivity|].
  unfold String.rev. simpl. rewrite (IH (String c acc)), (IH (String c EmptyString)).
  now rewrite append_assoc.
Qed.

Lemma rev_cons (c : ascii) (s : string) :
  String.rev (String c s) = String.rev s +:+ String c EmptyString.
Proof. unfold String.rev at 1. simpl. apply rev_app_eq. Qed.

Lemma rev_append (a b : string) :
  String.rev (a +:+ b) = String.rev b +:+ String.rev a.
Proof.
  induction a as [|c a IH].
  - simpl. now rewrite append_nil_r.
  - rewrite append_cons, !rev_cons, IH. now rewrite append_assoc.
Qed.

Lemma rev_involutive (s : string) : String.rev (String.rev s) = s.
Proof.
  induction s as [|c s IH]; [reflexivity|].
  rewrite rev_cons, rev_append, IH. reflexivity.
Qed.

(** The first character is not white space. *)
Definition starts_inked (l : string) : bool :=
  match l with
  | EmptyString => false
  | String c _ => negb (is_js_space c)
  end.

(** A line as [JSON.stringify] writes an object: no line feed inside, and
    no white space at either end. *)
Definition line_ok (l : string) : bool :=
  starts_inked l && starts_inked (String.rev l) && negb (includes nl l).

Lemma starts_inked_app (l rest : string) :
  starts_inked l = true -> starts_inked (l +:+ rest) = true.
Proof. destruct l; [discriminate|]. now rewrite append_cons. Qed.

Lemma trimStart_inked (l : string) : starts_inked l = true -> trimStart l = l.
Proof.
  destruct l as [|c l]; [discriminate|]. simpl.
  now destruct (is_js_space c).
Qed.

Lemma starts_inked_ink (l : string) : starts_inked l = true -> has_ink l = true.
Proof. destruct l as [|c l]; [discriminate|]. simpl. now intros ->. Qed.

Lemma line_ok_nonblank (l : string) : line_ok l = true -> nonblank l = true.
Proof.
  unfold line_ok, nonblank. intros H.
  apply andb_prop in H as [H _]. apply andb_prop in H as [H _].
  apply starts_inked_ink in H.
  destruct (String.eqb_spec (trim l) EmptyString) as [E|]; [|reflexivity].
  apply trim_empty in E. congruence.
Qed.

(** The text of a file written line by line, each line followed by a
    line feed. *)
Definition written (lines : list string) : string :=
  foldr (fun l rest => l +:+ nl +:+ rest) EmptyString lines.

Lemma written_snoc (lines : list string) (l : string) :
  written (lines ++ [l]) = written lines +:+ l +:+ nl.
Proof.
  induction lines as [|l0 lines IH]; simpl.
  - now rewrite append_nil_r.
  - rewrite IH. now rewrite !append_assoc.
Qed.

Lemma written_join (l : string) (lines : list string) :
  written (l :: lines) = join nl (l :: lines) +:+ nl.
Proof.
  revert l. induction lines as [|l1 lines IH]; intros l.
  - simpl. now rewrite append_nil_r.
  - change (written (l :: l1 :: lines)) with (l +:+ nl +:+ written (l1 :: lines)).
    change (join nl (l :: l1 :: lines)) with (l +:+ nl +:+ join nl (l1 :: lines)).
    rewrite IH. now rewrite !append_assoc.
Qed.

Lemma prefix_nl (c : ascii) (s : string) :
  String.prefix nl (String c s) = Ascii.eqb c "010".
Proof.
  unfold nl. cbn [String.prefix].
  destruct (ascii_dec "010" c) as [<-|ne]; [now destruct s|].
  symmetry. apply Ascii.eqb_neq. congruence.
Qed.

(** A line without line feed, followed by a line feed, is split off. *)
Lemma split_go_line (acc l rest : string) :
  includes nl l = false ->
  split_go nl 0 acc (l +:+ nl +:+ rest) = (acc +:+ l) :: split_go nl 0 EmptyString rest.
Proof.
  revert acc. induction l as [|c l IH]; intros acc.
  - intros _. rewrite append_nil_r.
    change (EmptyString +:+ nl +:+ rest) with (String "010" rest).
    cbn [split_go]. now rewrite prefix_nl.
  - rewrite includes_eq. intros H. apply orb_false_elim in H as [Hp Hl].
    rewrite append_cons. cbn [split_go].
    rewrite prefix_nl in *. rewrite Hp, IH by exact Hl.
    now rewrite append_assoc.
Qed.

Lemma split_written (lines : list string) :
  Forall (fun l => line_ok l = true) lines ->
  split nl (written lines) = lines ++ [EmptyString].
Proof.
  intros H. unfold split. change (String.eqb nl EmptyString) with false.
  cbv iota. induction H as [|l lines Hl _ IH]; [reflexivity|].
  simpl. rewrite split_go_line, IH; [reflexivity|].
  unfold line_ok in Hl. apply andb_prop in Hl as [_ Hl].
  now apply negb_true_iff in Hl.
Qed.

Lemma split_join (l : string) (lines : list string) :
  Forall (fun l => line_ok l = true) (l :: lines) ->
  split nl (join nl (l :: lines)) = l :: lines.
Proof.
  intros H. unfold split. change (String.eqb nl EmptyString) with false.
  cbv iota. revert l H. induction lines as [|l1 lines IH]; intros l H;
    apply Forall_cons in H as [Hl H];
    unfold line_ok in Hl; apply andb_prop in Hl as [_ Hl];
    apply negb_true_iff in Hl.
  - simpl. now rewrite split_go_absent.
  - change (join nl (l :: l1 :: lines)) with (l +:+ nl +:+ join nl (l1 :: lines)).
    rewrite split_go_line, IH by assumption. reflexivity.
Qed.

Lemma filter_nonblank (lines : list string) :
  Forall (fun l => line_ok l = true) lines ->
  List.filter nonblank lines = lines.
Proof.
  induction 1 as [|l lines Hl _ IH]; [reflexivity|].
  simpl. now rewrite (line_ok_nonblank l Hl), IH.
Qed.

Lemma join_last_inked (l : string) (lines : list string) :
  Forall (fun l => line_ok l = true) (l :: lines) ->
  starts_inked (join nl (l :: lines)) = true /\
  starts_inked (String.rev (join nl (l :: lines))) = true.
Proof.
  revert l. induction lines as [|l1 lines IH]; intros l H;
    apply Forall_cons in H as [Hl H];
    unfold line_ok in Hl; apply andb_prop in Hl as [Hl _];
    apply andb_prop in Hl as [Hs He].
  - simpl. auto.
  - change (join nl (l :: l1 :: lines)) with (l +:+ nl +:+ join nl (l1 :: lines)).
    split; [now apply starts_inked_app|].
    rewrite !rev_append. do 2 apply starts_inked_app. now apply IH.
Qed.

(** Trimming a file of such lines removes the last line feed only. *)
Lemma trim_written (l : string) (lines : list string) :
  Forall (fun l => line_ok l = true) (l :: lines) ->
  trim (written (l :: lines)) = join nl (l :: lines).
Proof.
  intros H. destruct (join_last_inked l lines H) as [Hs He].
  rewrite written_join. unfold trim, trimEnd.
  rewrite (trimStart_inked (join nl (l :: lines) +:+ nl))
    by now apply starts_inked_app.
  rewrite rev_append. change (String.rev nl) with nl.
  unfold nl at 1. rewrite append_cons. cbn [trimStart].
  change (is_js_space "010") with true. cbv iota.
  change (EmptyString +:+ String.rev (join nl (l :: lines)))
    with (String.rev (join nl (l :: lines))).
  rewrite trimStart_inked by exact He. apply rev_involutive.
Qed.

Section Codec.
Context {J : Type}.
Variable JSON_stringify : J -> string.
Variable JSON_parse : string -> option J.

Abbreviation load := (load JSON_parse).
Abbreviation append := (append JSON_stringify).
Abbreviation save := (save JSON_stringify).
Abbreviation loadRecent := (loadRecent JSON_parse).

(** What is asked of a value and its line: the line is as
    [JSON.stringify] writes it, and [JSON.parse] gives the value back. *)
Definition round_trips (e : J) : Prop :=
  line_ok (JSON_stringify e) = true /\
  JSON_parse (JSON_stringify e) = Some e.

Lemma round_trips_lines (es : list J) :
  Forall round_trips es ->
  Forall (fun l => line_ok l = true) (JSON_stringify <$> es).
Proof.
  induction 1 as [|e es [He _] _ IH]; simpl; constructor; assumption.
Qed.

Lemma push_parsed_stringify (es : list J) :
  Forall round_trips es ->
  push_parsed JSON_parse (JSON_stringify <$> es) = es.
Proof.
  unfold push_parsed. induction 1 as [|e es [_ He] _ IH]; [reflexivity|].
  cbn [fmap list_fmap omap list_omap]. now rewrite He, IH.
Qed.

(** The session after the appends of [es] to a new session. *)
Definition appended (es : list J) : SessionLog :=
  foldl (fun s e => append e s) (mkSessionLog [] None) es.

Lemma appended_snoc (es : list J) (e : J) :
  appended (es ++ [e]) = append e (appended es).
Proof. unfold appended. now rewrite foldl_app. Qed.

Lemma appended_eq (es : list J) :
  entries (appended es) = es /\
  logFile (appended es) =
    match es with
    | [] => None
    | _ => Some (written (JSON_stringify <$> es))
    end.
Proof.
  induction es as [|e es IH] using rev_ind; [easy|].
  rewrite appended_snoc. destruct IH as [IHe IHf]. unfold Jsonl.append.
  simpl. rewrite IHe, IHf. split; [reflexivity|].
  destruct (es ++ [e]) eqn:E; [now destruct es|]. rewrite <- E.
  rewrite fmap_app. cbn [fmap list_fmap]. rewrite written_snoc.
  now destruct es.
Qed.

(** X10: the file left by the appends of a session is read back by [load] of
    a later session as the very entries the first one held in memory, in
    order; with no append there is no file and [load] answers [false]. *)
Theorem load_after_appends (es : list J) :
  Forall round_trips es ->
  entries (appended es) = es /\
  load (mkSessionLog [] (logFile (appended es)))
  = (match es with [] => false | _ => true end,
     mkSessionLog es (logFile (appended es))).
Proof.
  intros H. destruct (appended_eq es) as [He Hf]. split; [exact He|].
  unfold Jsonl.load. rewrite Hf. simpl.
  destruct es as [|e es]; [reflexivity|].
  pose proof (round_trips_lines _ H) as Hl. simpl in Hl.
  change (JSON_stringify <$> e :: es)
    with (JSON_stringify e :: (JSON_stringify <$> es)).
  rewrite trim_written by exact Hl.
  destruct (String.eqb_spec (join nl (JSON_stringify e :: (JSON_stringify <$> es)))
              EmptyString) as [E|_].
  - destruct (join_last_inked (JSON_stringify e) (JSON_stringify <$> es) Hl)
      as [Hs _].
    rewrite E in Hs. discriminate.
  - rewrite split_join, filter_nonblank by exact Hl.
    f_equal. f_equal. now apply (push_parsed_stringify (e :: es)).
Qed.

(** The memory file after the saves of [ms], from no file. *)
Definition saved (ms : list J) : option string :=
  foldl (fun f m => save m f) None ms.

Lemma saved_eq (ms : list J) :
  saved ms =
    match ms with
    | [] => None
    | _ => Some (written (JSON_stringify <$> ms))
    end.
Proof.
  induction ms as [|m ms IH] using rev_ind; [easy|].
  unfold saved in *. rewrite foldl_app. simpl. rewrite IH.
  unfold Jsonl.save.
  destruct (ms ++ [m]) eqn:E; [now destruct ms|]. rewrite <- E.
  rewrite fmap_app. cbn [fmap list_fmap]. rewrite written_snoc.
  now destruct ms.
Qed.

(** X11: after the saves of [ms], [loadRecent(count)] gives the last [count]
    of them, in the order saved (all of them when there are fewer, none
    for a count that is not positive). *)
Theorem loadRecent_after_saves (ms : list J) (count : Z) :
  Forall round_trips ms ->
  loadRecent (Int count) (saved ms)
  = drop (Z.to_nat (Z.max 0 (Z.of_nat (length ms) - count))) ms.
Proof.
  intros H. rewrite saved_eq. unfold Jsonl.loadRecent.
  destruct ms as [|m ms]; [now rewrite drop_nil|].
  pose proof (round_trips_lines _ H) as Hl.
  rewrite split_written by exact Hl.
  rewrite List.filter_app, filter_nonblank by exact Hl.
  change (List.filter nonblank [EmptyString]) with (@nil string).
  rewrite app_nil_r, length_fmap, <- fmap_drop.
  apply push_parsed_stringify.
  now apply Forall_drop.
Qed.

Lemma push_parsed_length (lines : list string) :
  (length (push_parsed JSON_parse lines) <= length lines)%nat.
Proof.
  unfold push_parsed. induction lines as [|l lines IH]; [reflexivity|].
  cbn [omap list_omap]. destruct (JSON_parse l); cbn [length]; lia.
Qed.

(** X12: whatever the file holds, [loadRecent(count)] returns at most [count]
    values: the window is cut before the lines are parsed. *)
Theorem loadRecent_at_most_count (count : Z) (memoryFile : option string) :
  (Z.of_nat (length (loadRecent (Int count) memoryFile)) <= Z.max 0 count)%Z.
Proof.
  unfold Jsonl.loadRecent. destruct memoryFile as [content|]; simpl; [|lia].
  set (lines := List.filter nonblank (split nl content)).
  pose proof (push_parsed_length
                (drop (Z.to_nat (Z.max 0 (Z.of_nat (length lines) - count))) lines)) as Hlen.
  rewrite length_drop in Hlen. lia.
Qed.

End Codec.

(** A codec for the examples: the line of a text is the text in braces. *)
Definition demo_stringify (e : string) : string := "{" +:+ e +:+ "}".

Definition demo_parse (l : string) : option string :=
  match l with
  | String "{" rest =>
      match String.rev rest with
      | String "}" body => Some (String.rev body)
      | _ => None
      end
  | _ => None
  end.

Lemma load_after_appends_witness :
  entries (appended demo_stringify ["first"; "second entry"])
  = ["first"; "second entry"] /\
  load demo_parse
    (mkSessionLog [] (logFile (appended demo_stringify ["first"; "second entry"])))
  = (true,
     mkSessionLog ["first"; "second entry"]
       (logFile (appended demo_stringify ["first"; "second entry"]))).
Proof.
  apply (load_after_appends demo_stringify demo_parse ["first"; "second entry"]).
  repeat constructor.
Defined.

Lemma loadRecent_after_saves_witness :
  loadRecent demo_parse (Int 2) (saved demo_stringify ["a"; "b"; "c"])
  = ["b"; "c"].
Proof.
  apply (loadRecent_after_saves demo_stringify demo_parse ["a"; "b"; "c"] 2).
  repeat constructor.
Defined.

End JsonlFacts.

(** ** The age of a memory *)

Module MemoryFacts.
Import JsString JsNum Memory.

(** X13: [timeAgo] prints the age in the largest unit that has begun, rounded
    down: minutes from 1 to 59, hours from 1 to 23, days from 1 on; a
    date less than a minute old, or in the future, is [just now]. *)
Theorem timeAgo_units (now t : Z) :
  let seconds := (now - t) / 1000 in
  (seconds < 60 /\ timeAgo now (Int t) = "just now") \/
  (exists n, 1 <= n < 60 /\ 60 * n <= seconds < 60 * (n + 1) /\
             timeAgo now (Int t) = pretty n +:+ "m ago") \/
  (exists n, 1 <= n < 24 /\ 3600 * n <= seconds < 3600 * (n + 1) /\
             timeAgo now (Int t) = pretty n +:+ "h ago") \/
  (exists n, 1 <= n /\ 86400 * n <= seconds < 86400 * (n + 1) /\
             timeAgo now (Int t) = pretty n +:+ "d ago").
Proof.
  intros seconds. unfold timeAgo. fold seconds.
  destruct (Z.ltb_spec seconds 60) as [H1|H1]; [left; auto|]. right.
  destruct (Z.ltb_spec (seconds / 60) 60) as [H2|H2].
  { left. exists (seconds / 60). repeat split; try reflexivity;
      Z.to_euclidean_division_equations; lia. }
  right.
  destruct (Z.ltb_spec (seconds / 60 / 60) 24) as [H3|H3].
  { left. exists (seconds / 60 / 60). repeat split; try reflexivity;
      Z.to_euclidean_division_equations; lia. }
  right. exists (seconds / 60 / 60 / 24). repeat split; try reflexivity;
    Z.to_euclidean_division_equations; lia.
Qed.

End MemoryFacts.

(** ** Attaching to a tab *)

Module AttachFacts.
Import Js JsString JsNum Chrome ReconnectFacts Attach.

(** The tab remembered is the tab the connection was opened on. *)
Definition coherent (st : ChromeClient) : Prop :=
  forall t, currentTab st = Some t -> client st = Some (mkClient (id t)).

Lemma pick_tab_In (v : jsval) (tabs : list TabInfo) (t : TabInfo) :
  pick_tab v tabs = Some t -> In t tabs.
Proof.
  destruct v as [| | |[|z]|s|]; simpl; try discriminate.
  - destruct (0 <=? z); [|discriminate].
    intros H. apply list_elem_of_lookup_2 in H. now apply list_elem_of_In.
  - intros H. now apply List.find_some in H as [H _].
Qed.

Lemma reconnect_client (cdp : Cdp) (tabId : string) (cl : Client) (t : TabInfo) :
  reconnect cdp tabId = Ok (cl, t) -> cl = mkClient (id t).
Proof.
  unfold reconnect. destruct (listTabs cdp) as [tabs|]; simpl; [|discriminate].
  destruct (match List.find _ tabs with Some t0 => Some t0 | None => _ end)
    as [tab|]; [|discriminate].
  destruct (connect cdp (id tab)); simpl; [|discriminate].
  destruct (Page_enable cdp _); simpl; [|discriminate].
  destruct (Runtime_enable cdp _); simpl; [|discriminate].
  destruct (DOM_enable cdp _); simpl; [|discriminate].
  now intros [= <- <-].
Qed.

Lemma coherent_attached (t : TabInfo) : coherent (attached_to t).
Proof. intros t' [= <-]. reflexivity. Qed.

Lemma coherent_no_tab (cl : option Client) : coherent (mkChrome cl None).
Proof. intros t [=]. Qed.

Section Client.
Variable cdp : Cdp.
Variable close : Client -> outcome unit.

Abbreviation detach := (detach close).
Abbreviation attach := (attach cdp close).

(** [detach] leaves no connection; it leaves no tab either when there
    was a connection to close or the fields were coherent. *)
Lemma detach_fields (st : ChromeClient) :
  coherent st -> detach st = mkChrome None None.
Proof.
  intros Hst. unfold Attach.detach. destruct (client st) as [cl|] eqn:E.
  - now destruct (close cl).
  - destruct st as [c [t|]]; simpl in *; subst c; [|reflexivity].
    now specialize (Hst t eq_refl).
Qed.

Lemma attach_coherent (tabIdOrIndex : jsval) (st : ChromeClient) :
  coherent st -> coherent (snd (attach tabIdOrIndex st)).
Proof.
  intros Hst. unfold Attach.attach.
  destruct (listTabs cdp) as [tabs|err]; [|exact Hst].
  destruct (length tabs =? 0)%nat; [exact Hst|].
  destruct (pick_tab tabIdOrIndex tabs) as [tab|] eqn:Hpick; [|exact Hst].
  rewrite (detach_fields st Hst). cbv zeta.
  destruct (connect cdp (id tab)); [|apply coherent_no_tab].
  destruct (Page_enable cdp _); simpl; [|apply coherent_no_tab].
  destruct (Runtime_enable cdp _); simpl; [|apply coherent_no_tab].
  destruct (DOM_enable cdp _); simpl; [|apply coherent_no_tab].
  apply coherent_attached.
Qed.

(** X14: a successful [attach] leaves the client on one of the listed tabs,
    with that tab remembered.  A failed one either leaves the fields as
    they were (the listing failed or held no such tab, and the old
    connection is still open), or it has closed the old connection and
    remembers no tab. *)
Theorem attach_outcome (tabIdOrIndex : jsval) (st : ChromeClient) :
  coherent st ->
  match attach tabIdOrIndex st with
  | (Ok _, st') =>
      exists tabs tab,
        listTabs cdp = Ok tabs /\ In tab tabs /\ st' = attached_to tab
  | (Throw _, st') => st' = st \/ currentTab st' = None
  end.
Proof.
  intros Hst. unfold Attach.attach.
  destruct (listTabs cdp) as [tabs|err]; [|now left].
  destruct (length tabs =? 0)%nat; [now left|].
  destruct (pick_tab tabIdOrIndex tabs) as [tab|] eqn:Hpick; [|now left].
  rewrite (detach_fields st Hst). cbv zeta.
  destruct (connect cdp (id tab)); [|now right].
  destruct (Page_enable cdp _); simpl; [|now right].
  destruct (Runtime_enable cdp _); simpl; [|now right].
  destruct (DOM_enable cdp _); simpl; [|now right].
  exists tabs, tab. repeat split. now apply pick_tab_In in Hpick.
Qed.

(** X15: [attach], [detach] and [ensureConnected] keep the fields coherent,
    whatever the browser answers: a remembered tab is always the tab of
    the open connection. *)
Theorem coherent_preserved (tabIdOrIndex : jsval) (st : ChromeClient) :
  coherent st ->
  coherent (snd (attach tabIdOrIndex st)) /\
  coherent (detach st) /\
  coherent (snd (ensureConnected cdp st)).
Proof.
  intros Hst. repeat split.
  - pose proof (attach_coherent tabIdOrIndex st Hst) as H.
    exact H.
  - rewrite (detach_fields st Hst). apply coherent_no_tab.
  - unfold ensureConnected. destruct (client st) as [cl|]; [|exact Hst].
    destruct (Runtime_evaluate_1 cdp cl); [exact Hst|].
    destruct (currentTab st) as [cur|]; [|exact Hst].
    destruct (reconnect cdp (id cur)) as [[cl' tab]|err] eqn:E; simpl.
    + apply reconnect_client in E as ->. apply coherent_attached.
    + apply coherent_no_tab.
Qed.

End Client.

Definition close_ok (_ : Client) : outcome unit := Ok tt.

Lemma attach_outcome_witness :
  match Attach.attach (cdp_with targets_AB) close_ok (JNumber (Int 0)) attached_B with
  | (Ok _, st') =>
      exists tabs tab,
        listTabs (cdp_with targets_AB) = Ok tabs /\ In tab tabs /\
        st' = attached_to tab
  | (Throw _, st') => st' = attached_B \/ currentTab st' = None
  end.
Proof.
  apply (attach_outcome (cdp_with targets_AB) close_ok (JNumber (Int 0))
           attached_B).
  intros t H. injection H as <-. reflexivity.
Defined.

Lemma coherent_preserved_witness :
  coherent (snd (Attach.attach (cdp_with targets_AB) close_ok
                   (JString "A1") attached_B)) /\
  coherent (Attach.detach close_ok attached_B) /\
  coherent (snd (ensureConnected (cdp_with targets_AB) attached_B)).
Proof.
  apply (coherent_preserved (cdp_with targets_AB) close_ok (JString "A1")
           attached_B).
  intros t H. injection H as <-. reflexivity.
Defined.

End AttachFacts.

(** ** A user turn *)

Module TurnFacts.
Import Js JsString JsStringFacts JsNum Session Orchestrator OrchestratorFacts Turn.

(** A message holds [task]; any other request passes. *)
Definition quotes (task : string) (ev : Event) : Prop :=
  match ev with
  | EvSendMessage _ msg => includes task msg = true
  | _ => True
  end.

Lemma adds_weaken (P Q : Event -> Prop) (st st' : CLI) :
  (forall ev, P ev -> Q ev) -> adds P st st' -> adds Q st st'.
Proof.
  intros H (ext & E & F). exists ext. split; [exact E|].
  eapply Forall_impl; [exact F|exact H].
Qed.

Lemma says_quotes (task msg : string) (ev : Event) :
  includes task msg = true -> says msg ev -> quotes task ev.
Proof. intros H. destruct ev; simpl; try easy. now intros ->. Qed.

Lemma messages_ok_quotes (task : string) (lt : option string) (evs : list Event) :
  messages_ok task lt evs -> Forall (quotes task) evs.
Proof.
  revert lt. induction evs as [|ev evs IH]; intros lt; [constructor|].
  destruct ev; simpl; intros H; constructor; simpl; try exact I;
    try (eapply IH; exact H).
  - apply H.
  - eapply IH. apply H.
Qed.

Section Turn.
Variable executeTool : list Event -> string -> gmap string jsval -> string.
Variable gemini : list Event -> outcome GeminiResponse.
Variable ctrl_c : list Event -> nat.
Variable now_iso : list Event -> string.
Variable getWorkingDir : string.
Variable formatForContext : list MemoryEntry -> list Event -> string.
Variable stringify_call : string -> gmap string jsval -> string.
Variable stringify : string -> string.
Variable contextTurns : jsint.
Variable String_of : Thrown -> string.

Abbreviation sleep := (sleep ctrl_c now_iso).
Abbreviation sendMessage := (sendMessage gemini ctrl_c now_iso).
Abbreviation processResponse :=
  (processResponse executeTool gemini ctrl_c now_iso getWorkingDir
     formatForContext stringify_call stringify).
Abbreviation initChat := (initChat contextTurns).
Abbreviation send_with_retry := (send_with_retry gemini ctrl_c now_iso).
Abbreviation first_response :=
  (first_response gemini ctrl_c now_iso contextTurns).
Abbreviation retryMsg := (retryMsg getWorkingDir).
Abbreviation on_turn_error :=
  (on_turn_error executeTool gemini ctrl_c now_iso getWorkingDir
     formatForContext stringify_call stringify String_of).
Abbreviation sendToGemini :=
  (sendToGemini executeTool gemini ctrl_c now_iso getWorkingDir
     formatForContext stringify_call stringify contextTurns String_of).

(** What the steps between two runs of [processResponse] keep. *)
Definition same_turn (st st' : CLI) : Prop :=
  lastUserMessage st' = lastUserMessage st /\
  toolCallCount st' = toolCallCount st.

Lemma send_with_retry_adds (task msg : string) (st : CLI) :
  includes task msg = true ->
  adds (quotes task) st (snd (send_with_retry msg st)) /\
  same_turn st (snd (send_with_retry msg st)).
Proof.
  intros H. split.
  - apply (adds_weaken (says msg)); [intros ev; now apply says_quotes|].
    apply withRetry_adds; [apply sendMessage_adds|easy].
  - destruct (withRetry_keeps ctrl_c now_iso (sendMessage msg)
                (sendMessage_keeps gemini ctrl_c now_iso msg)
                Retry.defaultMaxRetries st) as (_ & L & _ & _ & T).
    split; assumption.
Qed.

Lemma startChat_adds (task : string) (history : list Block) (st : CLI) :
  adds (quotes task) st (startChat history st) /\
  same_turn st (startChat history st).
Proof.
  split; [|split; reflexivity].
  apply (adds_one _ (EvStartChat (chats_started st) history)); [exact I|].
  reflexivity.
Qed.

Lemma processResponse_adds (fuel : nat) (response : GeminiResponse) (st : CLI) :
  (toolCallCount st < COMPACT_THRESHOLD)%nat ->
  adds (quotes (lastUserMessage st)) st (snd (processResponse fuel response st)) /\
  lastUserMessage (snd (processResponse fuel response st)) = lastUserMessage st.
Proof.
  intros Hlt. split.
  - destruct (every_message_quotes_task_and_tool executeTool gemini ctrl_c
                now_iso getWorkingDir formatForContext stringify_call stringify
                fuel response st Hlt None) as (ext & E & Hok).
    exists ext. split; [exact E|]. eapply messages_ok_quotes, Hok.
  - apply (processResponse_follows executeTool gemini ctrl_c now_iso
             getWorkingDir formatForContext stringify_call stringify).
Qed.

Lemma retryMsg_includes (st : CLI) :
  includes (lastUserMessage st) (retryMsg st) = true.
Proof. unfold Turn.retryMsg. do 9 apply includes_app_r. apply includes_here. Qed.

Lemma on_turn_error_adds (fuel : nat) (err : Thrown) (st : CLI) :
  adds (quotes (lastUserMessage st)) st (snd (on_turn_error fuel err st)).
Proof.
  unfold Turn.on_turn_error.
  destruct (interrupted st); [apply adds_refl|]. cbv zeta.
  destruct (_ || _); [|now apply adds_same].
  set (st1 := startChat [] st).
  set (st2 := set_toolCallCount 0 st1).
  set (st3 := sleep 30000 st2).
  assert (H3 : adds (quotes (lastUserMessage st)) st st3).
  { eapply adds_trans; [apply startChat_adds|].
    eapply adds_trans; [|now apply sleep_adds]. now apply adds_same. }
  assert (L3 : lastUserMessage st3 = lastUserMessage st).
  { destruct (sleep_keeps ctrl_c now_iso 30000 st2) as (_ & L & _). exact L. }
  assert (T3 : toolCallCount st3 = 0%nat).
  { destruct (sleep_keeps ctrl_c now_iso 30000 st2) as (_ & _ & _ & _ & T).
    exact T. }
  destruct (send_with_retry_adds (lastUserMessage st) (retryMsg st3) st3)
    as [H4 [L4 T4]]; [rewrite <- L3; apply retryMsg_includes|].
  destruct (send_with_retry (retryMsg st3) st3) as [[retryResponse|retryErr] st4];
    simpl in *; [|eapply adds_trans; [exact H3|exact H4]].
  destruct (processResponse_adds fuel retryResponse st4) as [H5 _].
  { rewrite T4, T3. unfold COMPACT_THRESHOLD. lia. }
  rewrite L4, L3 in H5.
  assert (H : adds (quotes (lastUserMessage st)) st
                (snd (processResponse fuel retryResponse st4))).
  { eapply adds_trans; [exact H3|]. eapply adds_trans; [exact H4|exact H5]. }
  now destruct (processResponse fuel retryResponse st4) as [[o|] st5].
Qed.

Lemma first_response_adds (task msg : string) (st : CLI) :
  includes task msg = true ->
  adds (quotes task) st (snd (first_response msg st)) /\
  same_turn st (snd (first_response msg st)).
Proof.
  intros H. unfold Turn.first_response.
  set (st0 := match chat st with None => initChat st | Some _ => st end).
  assert (H0 : adds (quotes task) st st0 /\ same_turn st st0).
  { unfold st0. destruct (chat st); [|apply startChat_adds].
    split; [apply adds_refl|split; reflexivity]. }
  destruct H0 as [A0 [L0 T0]].
  destruct (send_with_retry_adds task msg st0 H) as [A1 [L1 T1]].
  destruct (send_with_retry msg st0) as [[response|err] st1]; simpl in *.
  - split; [eapply adds_trans; eassumption|split; congruence].
  - destruct (is_history_error err); simpl.
    + destruct (startChat_adds task
                  (toGeminiHistory contextTurns (entries st1)) st1)
        as [A2 [L2 T2]].
      destruct (send_with_retry_adds task msg (initChat st1) H) as [A3 [L3 T3]].
      split.
      * eapply adds_trans; [exact A0|]. eapply adds_trans; [exact A1|].
        eapply adds_trans; [exact A2|exact A3].
      * unfold Turn.initChat in *. split; congruence.
    + split; [eapply adds_trans; eassumption|split; congruence].
Qed.

(** X16: every message that [sendToGemini] sends to the model, in the first
    attempt, after a restart of the chat, after a compaction or in the
    rate-limit recovery, contains the message of the user. *)
Theorem sendToGemini_every_message_quotes_task (fuel : nat)
  (userMessage : string) (st : CLI) :
  adds (quotes userMessage) st (snd (sendToGemini fuel userMessage st)).
Proof.
  unfold Turn.sendToGemini. cbv zeta.
  set (st0 := begin_turn now_iso userMessage st).
  set (msg := ("[Working directory: " +:+ getWorkingDir +:+ "]" +:+ nl +:+ nl)
              +:+ userMessage).
  assert (Hmsg : includes userMessage msg = true).
  { unfold msg. apply includes_app_r.
    rewrite <- (FileToolsFacts.append_nil_r userMessage) at 2.
    apply includes_here. }
  destruct (first_response_adds userMessage msg st0 Hmsg) as [A1 [L1 T1]].
  assert (A0 : adds (quotes userMessage) st st0) by now apply adds_same.
  change (lastUserMessage st0) with userMessage in L1.
  change (toolCallCount st0) with 0%nat in T1.
  destruct (first_response msg st0) as [[response|err] st1]; simpl in *.
  - destruct (processResponse_adds fuel response st1) as [A2 L2].
    { rewrite T1. unfold COMPACT_THRESHOLD. lia. }
    rewrite L1 in A2, L2.
    pose proof (on_turn_error_adds fuel) as A3.
    destruct (processResponse fuel response st1) as [[[u|err]|] st2];
      simpl in *.
    + eapply adds_trans; [exact A0|]. eapply adds_trans; [exact A1|exact A2].
    + specialize (A3 err st2). rewrite L2 in A3.
      eapply adds_trans; [exact A0|]. eapply adds_trans; [exact A1|].
      eapply adds_trans; [exact A2|exact A3].
    + eapply adds_trans; [exact A0|]. eapply adds_trans; [exact A1|exact A2].
  - pose proof (on_turn_error_adds fuel err st1) as A3. rewrite L1 in A3.
    eapply adds_trans; [exact A0|]. eapply adds_trans; [exact A1|exact A3].
Qed.

(** X17: the rate-limit recovery: an error whose text holds [429] or [quota],
    in a turn that was not interrupted, is followed by a chat without
    history, a pause of 30 seconds and a message to that chat which
    restates the task. *)
Theorem rate_limit_recovery (fuel : nat) (err : Thrown) (st : CLI) :
  interrupted st = false ->
  includes "429" (errMsg_of String_of err)
  || includes "quota" (errMsg_of String_of err) = true ->
  (trace st ++ [EvStartChat (chats_started st) []; EvSleep 30000;
                EvSendMessage (chats_started st) (retryMsg st)])
    `prefix_of` trace (snd (on_turn_error fuel err st)) /\
  includes (lastUserMessage st) (retryMsg st) = true.
Proof.
  intros Hi Hrate. split; [|apply retryMsg_includes].
  unfold Turn.on_turn_error. rewrite Hi. cbv zeta. rewrite Hrate.
  set (st1 := startChat [] st).
  set (st2 := set_toolCallCount 0 st1).
  set (st3 := sleep 30000 st2).
  assert (E3 : trace st3 = trace st ++ [EvStartChat (chats_started st) [];
                                        EvSleep 30000]).
  { unfold st3, Orchestrator.sleep. rewrite await_trace. simpl.
    now rewrite <- app_assoc. }
  assert (C3 : chat st3 = Some (chats_started st)).
  { destruct (sleep_keeps ctrl_c now_iso 30000 st2) as (_ & _ & C & _).
    exact C. }
  assert (M3 : retryMsg st3 = retryMsg st).
  { unfold Turn.retryMsg.
    destruct (sleep_keeps ctrl_c now_iso 30000 st2) as (_ & L & _).
    replace (lastUserMessage st3) with (lastUserMessage st)
      by (symmetry; exact L).
    reflexivity. }
  rewrite M3.
  assert (P4 : (trace st ++ [EvStartChat (chats_started st) []; EvSleep 30000;
                             EvSendMessage (chats_started st) (retryMsg st)])
               `prefix_of` trace (snd (send_with_retry (retryMsg st) st3))).
  { destruct (withRetry_first_call ctrl_c now_iso (sendMessage (retryMsg st))
                (sendMessage_keeps gemini ctrl_c now_iso (retryMsg st))
                Retry.defaultMaxRetries st3) as (P & _).
    rewrite (sendMessage_trace gemini ctrl_c now_iso (retryMsg st) st3 _ C3),
      E3, <- app_assoc in P. exact P. }
  destruct (send_with_retry (retryMsg st) st3) as [[retryResponse|retryErr] st4];
    simpl in *; [|exact P4].
  destruct (processResponse_follows executeTool gemini ctrl_c now_iso
              getWorkingDir formatForContext stringify_call stringify
              fuel retryResponse st4) as (P5 & _).
  assert (P : (trace st ++ [EvStartChat (chats_started st) []; EvSleep 30000;
                            EvSendMessage (chats_started st) (retryMsg st)])
              `prefix_of` trace (snd (processResponse fuel retryResponse st4)))
    by (etransitivity; eassumption).
  now destruct (processResponse fuel retryResponse st4) as [[o|] st5].
Qed.

End Turn.

Definition demo_String_of (_ : Thrown) : string := "Error".

Definition demo_on_turn_error :=
  Turn.on_turn_error demo_executeTool demo_gemini (ctrl_c_during 0) demo_now
    "/work" demo_memory demo_stringify_call demo_stringify demo_String_of.

Lemma rate_limit_recovery_witness :
  (trace (turn_state 0)
   ++ [EvStartChat (chats_started (turn_state 0)) []; EvSleep 30000;
       EvSendMessage (chats_started (turn_state 0))
         (Turn.retryMsg "/work" (turn_state 0))])
    `prefix_of`
    trace (snd (demo_on_turn_error 3 (Error "[429 Too Many Requests]")
                  (turn_state 0))) /\
  includes (lastUserMessage (turn_state 0))
    (Turn.retryMsg "/work" (turn_state 0)) = true.
Proof.
  apply (rate_limit_recovery demo_executeTool demo_gemini (ctrl_c_during 0)
           demo_now "/work" demo_memory demo_stringify_call demo_stringify
           demo_String_of 3 (Error "[429 Too Many Requests]") (turn_state 0));
    reflexivity.
Defined.

End TurnFacts.

(** ** The interrupt key *)

Module SigintFacts.
Import Orchestrator OrchestratorFacts Turn.

(** The presses at the times [times], in order. *)
Definition presses (now_iso : list Event -> string) (times : list Z)
  (s : Console) : Console :=
  foldl (fun s t => sigint now_iso t s) s times.

(** Some press comes less than two seconds after the press before it,
    [last] being the time of the press before the first. *)
Fixpoint close_pair (last : Z) (times : list Z) : bool :=
  match times with
  | [] => false
  | t :: rest => (t - last <? 2000) || close_pair t rest
  end.

Lemma presses_cons (now_iso : list Event -> string) (t : Z) (times : list Z)
  (s : Console) :
  presses now_iso (t :: times) s = presses now_iso times (sigint now_iso t s).
Proof. reflexivity. Qed.

Lemma presses_exited (now_iso : list Event -> string) (times : list Z)
  (s : Console) :
  exited s = true -> presses now_iso times s = s.
Proof.
  intros H. induction times as [|t times IH]; [reflexivity|].
  rewrite presses_cons. unfold sigint. rewrite H. exact IH.
Qed.

(** X18: the process exits exactly when some press comes less than two
    seconds after the press before it, whatever the agent is doing and
    whatever the earlier presses did: the window is counted from the
    previous press, also when that one interrupted a task or re-armed the
    prompt. *)
Theorem sigint_exits_iff_close_presses (now_iso : list Event -> string)
  (times : list Z) (s : Console) :
  exited s = false ->
  exited (presses now_iso times s) = close_pair (lastCtrlCTime s) times.
Proof.
  revert s. induction times as [|t times IH]; intros s H; [exact H|].
  rewrite presses_cons. unfold sigint. rewrite H. cbn [close_pair].
  destruct (t - lastCtrlCTime s <? 2000); cbn [orb].
  - now rewrite (presses_exited now_iso times).
  - now rewrite (IH (mkConsole (on_sigint now_iso (cli s)) t false)).
Qed.

Lemma sigint_exits_iff_close_presses_witness :
  exited (presses demo_now [1700000000000; 1700000003000; 1700000004500]
            (mkConsole (turn_state 0) 0 false))
  = close_pair 0 [1700000000000; 1700000003000; 1700000004500].
Proof.
  apply (sigint_exits_iff_close_presses demo_now
           [1700000000000; 1700000003000; 1700000004500]
           (mkConsole (turn_state 0) 0 false)).
  reflexivity.
Defined.

End SigintFacts.

(** ** The shell tools *)

Module ShellFacts.
Import Js JsString JsStringFacts FileTools TrimFacts Shell.

Lemma length_append (a b : string) :
  String.length (a +:+ b) = (String.length a + String.length b)%nat.
Proof.
  induction a as [|c a IH]; [reflexivity|].
  rewrite append_cons. simpl. now rewrite IH.
Qed.

Lemma length_slice0 (n : nat) (s : string) :
  (String.length (slice0 n s) <= n)%nat.
Proof.
  unfold slice0. revert s. induction n as [|n IH]; intros [|c s]; simpl; try lia.
  specialize (IH s). lia.
Qed.

Lemma strip_unsafe_allowed (s : string) :
  forallb allowed (String.list_ascii_of_string (strip_unsafe s)) = true.
Proof.
  induction s as [|c s IH]; [reflexivity|].
  simpl. destruct (allowed c) eqn:E; [|exact IH].
  simpl. now rewrite E.
Qed.

Lemma strip_unsafe_id (s : string) :
  forallb allowed (String.list_ascii_of_string s) = true -> strip_unsafe s = s.
Proof.
  induction s as [|c s IH]; [reflexivity|].
  simpl. intros H. apply andb_prop in H as [Hc Hs].
  now rewrite Hc, IH.
Qed.

(** A text of allowed characters holds none of the characters that end
    or leave a quoted word of the shell. *)
Lemma allowed_no_quote (bad : ascii) (s : string) :
  allowed bad = false ->
  forallb allowed (String.list_ascii_of_string s) = true ->
  includes (String bad EmptyString) s = false.
Proof.
  intros Hbad. induction s as [|c s IH]; [reflexivity|].
  simpl. intros H. apply andb_prop in H as [Hc Hs].
  rewrite (IH Hs), orb_false_r.
  destruct (ascii_dec bad c) as [->|]; [congruence|reflexivity].
Qed.

Lemma strip_unsafe_filter (s : string) :
  String.list_ascii_of_string (strip_unsafe s)
  = List.filter allowed (String.list_ascii_of_string s).
Proof.
  induction s as [|c s IH]; [reflexivity|].
  simpl. destruct (allowed c); simpl; now rewrite IH.
Qed.

Lemma append_inv_head (p a b : string) : p +:+ a = p +:+ b -> a = b.
Proof.
  induction p as [|c p IH]; [easy|].
  rewrite !append_cons. intros H. injection H as H. now apply IH.
Qed.

Lemma no_char_cons (q c : ascii) (s : string) :
  includes (String q EmptyString) (String c s) = false ->
  q <> c /\ includes (String q EmptyString) s = false.
Proof.
  cbn [includes String.prefix]. intros H. apply orb_false_elim in H as [H1 H2].
  split; [|exact H2]. intros ->.
  destruct (ascii_dec c c) as [_|N]; [|now apply N].
  now destruct s.
Qed.

(** A text ends at its first quote: two texts without the character [q],
    each followed by [q], that start the same text are the same text. *)
Lemma quoted_word_unique (q : ascii) (a a' r r' : string) :
  includes (String q EmptyString) a = false ->
  includes (String q EmptyString) a' = false ->
  a +:+ String q r = a' +:+ String q r' -> a = a'.
Proof.
  revert a'. induction a as [|c a IH]; intros [|c' a'] Ha Ha' E.
  - reflexivity.
  - rewrite append_cons in E. injection E as E _.
    apply no_char_cons in Ha' as [N _]. now destruct N.
  - rewrite append_cons in E. injection E as E _.
    apply no_char_cons in Ha as [N _]. now destruct N.
  - rewrite !append_cons in E. injection E as -> E.
    apply no_char_cons in Ha as [_ Ha]. apply no_char_cons in Ha' as [_ Ha'].
    f_equal. now apply IH.
Qed.

Section Exec.
Variable path_resolve : string -> string -> string.
Variable _workingDir : string.
Variable execSync : string -> option string -> ExecResult.

Abbreviation resolvePath := (resolvePath path_resolve _workingDir).
Abbreviation search_cmd := (search_cmd path_resolve _workingDir).
Abbreviation runCommandTool := (runCommandTool path_resolve _workingDir execSync).

(** X19: in the command line of [searchFilesTool] the word between the
    single quote after [--include=] and the next single quote is the
    file pattern (or [*] when there is none, or an empty one) with every
    character other than letters, digits and [.*?_-/] removed, and
    nothing else: no quote, blank, dollar, backquote or semicolon of a
    file pattern gets into the command line, while a pattern of allowed
    characters is passed as it is. *)
Theorem search_cmd_file_pattern_sanitized (pattern : string)
  (dirPath filePattern : option string) :
  let safe := safeFilePattern filePattern in
  search_cmd pattern dirPath filePattern
  = "grep -rn " +:+ excludeDirs +:+ " --include='" +:+ safe +:+ "' -E "
    +:+ JSON_stringify pattern +:+ " "
    +:+ JSON_stringify (resolvePath (or_default dirPath "."))
    +:+ " 2>/dev/null | head -100" /\
  String.list_ascii_of_string safe
  = List.filter allowed (String.list_ascii_of_string (or_default filePattern "*")) /\
  (forall bad, allowed bad = false -> includes (String bad EmptyString) safe = false) /\
  includes "'" safe = false /\
  (forall word rest,
     search_cmd pattern dirPath filePattern
     = "grep -rn " +:+ excludeDirs +:+ " --include='" +:+ word +:+ "'" +:+ rest ->
     includes "'" word = false -> word = safe) /\
  (forall s, filePattern = Some s -> s <> EmptyString ->
             forallb allowed (String.list_ascii_of_string s) = true ->
             safe = s).
Proof.
  cbv zeta. split; [reflexivity|].
  split; [apply strip_unsafe_filter|].
  assert (Hq : forall bad, allowed bad = false ->
                 includes (String bad EmptyString) (safeFilePattern filePattern)
                 = false).
  { intros bad Hbad. apply allowed_no_quote; [exact Hbad|].
    apply strip_unsafe_allowed. }
  split; [exact Hq|]. split; [now apply Hq|]. split.
  - intros word rest E Hw. unfold Shell.search_cmd in E. cbv zeta in E.
    do 3 apply append_inv_head in E.
    symmetry.
    refine (quoted_word_unique "'" _ _ _ _ (Hq "'"%char eq_refl) Hw E).
  - intros s -> Hne Hs. destruct s as [|c s]; [easy|].
    now apply strip_unsafe_id.
Qed.

(** X20: [runCommandTool] always answers with a text that is not empty, and
    the text is bounded: at most 10000 characters of output and the
    truncation note, or the line of the exit code and at most 5000
    characters of each stream. *)
Theorem runCommandTool_bounded (command : string) (cwd : option string) :
  runCommandTool command cwd <> EmptyString /\
  ((String.length (runCommandTool command cwd) <= Z.to_nat 10039)%nat \/
   exists err,
     startsWith ("Command failed (exit code " +:+ exit_code err +:+ ")")
       (runCommandTool command cwd) = true /\
     (String.length (runCommandTool command cwd)
      <= String.length (exit_code err) + Z.to_nat 10047)%nat).
Proof.
  unfold Shell.runCommandTool. cbv zeta.
  destruct (execSync command _) as [output|err].
  - destruct (String.eqb_spec (trim output) EmptyString) as [E|E];
      [split; [easy|left; vm_compute; lia]|].
    destruct (Z.ltb_spec 10000 (Z.of_nat (String.length (trim output)))) as [H|H].
    + split.
      * intros H0. apply (f_equal String.length) in H0.
        rewrite !length_append in H0. simpl in H0. lia.
      * left. rewrite !length_append.
        pose proof (length_slice0 (Z.to_nat 10000) (trim output)).
        change (String.length nl) with 1%nat.
        change (String.length "... (output truncated at 10000 chars)")
          with 37%nat.
        lia.
    + split; [exact E|left; lia].
  - set (head := "Command failed (exit code " +:+ exit_code err +:+ ")").
    assert (Hhead : String.length head = (String.length (exit_code err) + 27)%nat).
    { unfold head. rewrite !length_append. simpl. lia. }
    set (stdout := trimmed_or_empty (err_stdout err)).
    set (stderr := trimmed_or_empty (err_stderr err)).
    pose proof (length_slice0 5000 stdout) as Hout.
    pose proof (length_slice0 5000 stderr) as Herr.
    split.
    + intros H0. apply (f_equal String.length) in H0. revert H0.
      destruct (String.eqb stdout EmptyString), (String.eqb stderr EmptyString);
        rewrite ?length_append, ?Hhead; simpl; lia.
    + right. exists err. fold head. split.
      * destruct (String.eqb stdout EmptyString), (String.eqb stderr EmptyString);
          unfold startsWith; rewrite ?append_assoc;
          try apply prefix_app.
        rewrite <- (FileToolsFacts.append_nil_r head) at 2. apply prefix_app.
      * destruct (String.eqb stdout EmptyString), (String.eqb stderr EmptyString);
          rewrite ?length_append, ?Hhead;
          change (String.length nl) with 1%nat;
          change (String.length "stdout:") with 7%nat;
          change (String.length "stderr:") with 7%nat; lia.
Qed.

End Exec.

End ShellFacts.

(** ** What an edit leaves alone *)

Module EditFrameFacts.
Import Js JsString JsStringFacts FileTools FileToolsFacts.

Section Edit.
Variable path_resolve : string -> string -> string.
Variable _workingDir : string.
Abbreviation editFileTool := (editFileTool path_resolve _workingDir).
Abbreviation resolvePath := (resolvePath path_resolve _workingDir).

(** X21: [editFileTool] changes at most the file it names: every other path
    holds what it held, no file is created or removed, and when the
    answer is an error text or an exception, no file has changed. *)
Theorem editFileTool_frame (filePath oldString newString : string)
  (fs : gmap string Node) :
  let r := editFileTool filePath oldString newString fs in
  (forall p, p <> resolvePath filePath -> snd r !! p = fs !! p) /\
  (is_Some (snd r !! resolvePath filePath)
   <-> is_Some (fs !! resolvePath filePath)) /\
  match fst r with
  | Ok text => startsWith "ERROR:" text = true -> snd r = fs
  | Throw _ => snd r = fs
  end.
Proof.
  unfold FileTools.editFileTool. cbv zeta.
  set (resolved := resolvePath filePath).
  destruct (fs !! resolved) as [[content|]|] eqn:Hf; simpl;
    try (repeat split; try rewrite Hf; auto; fail).
  destruct (_ =? 0); simpl;
    [repeat split; try rewrite Hf; auto|].
  destruct (1 <? _); simpl;
    [repeat split; try rewrite Hf; auto|].
  repeat split.
  - intros p Hp. now rewrite lookup_insert_ne.
  - eauto.
  - intros _. rewrite lookup_insert_eq. eauto.
  - discriminate.
Qed.

End Edit.

End EditFrameFacts.

(** ** The page text script *)

Module PageTextFacts.
Import Js JsString JsStringFacts Click PageText ShellFacts.

Lemma link_items_take (i : nat) (links : list Element) :
  link_items i links = omap link_item (take (15 - i) links).
Proof.
  revert i. induction links as [|a links IH]; intros i.
  - now rewrite take_nil.
  - cbn [link_items]. rewrite IH.
    destruct (Nat.ltb_spec i 15) as [H|H].
    + replace (15 - i)%nat with (S (15 - S i)) by lia.
      cbn [take omap list_omap]. now destruct (link_item a).
    + replace (15 - i)%nat with 0%nat by lia.
      replace (15 - S i)%nat with 0%nat by lia. now rewrite !take_0.
Qed.

Lemma omap_length_le {A B : Type} (f : A -> option B) (l : list A) :
  (length (omap f l) <= length l)%nat.
Proof.
  induction l as [|x l IH]; [reflexivity|].
  cbn [omap list_omap]. destruct (f x); cbn [length]; lia.
Qed.

(** X22: the links listed are those of the first 15 elements matching
    [a[href]] that have a text: there are at most 15 of them, and a link
    without text among the first 15 takes up a place. *)
Theorem link_items_first_15 (links : list Element) :
  link_items 0 links = omap link_item (take 15 links) /\
  (length (link_items 0 links) <= 15)%nat.
Proof.
  rewrite link_items_take. split; [reflexivity|].
  etransitivity; [apply omap_length_le|]. rewrite length_take. lia.
Qed.

(** X23: the text returned for a page is never empty and has at most 5000
    characters, plus the truncation marker when it was cut. *)
Theorem getPageText_value_bounded (doc : Document) :
  getPageText_value doc <> EmptyString /\
  (String.length (getPageText_value doc)
   <= 5000 + String.length truncation_marker)%nat.
Proof.
  unfold getPageText_value, page_text_script.
  destruct (body_text_nodes doc) as [nodes|];
    [|split; [easy|vm_compute; lia]].
  cbv zeta. set (output := "=== Page: " +:+ _).
  assert (Hout : output <> EmptyString) by (unfold output; easy).
  destruct (Nat.ltb_spec 5000 (String.length output)) as [H|H].
  - destruct (slice0 5000 output +:+ truncation_marker) as [|c rest] eqn:E.
    + split; [easy|vm_compute; lia].
    + rewrite <- E. split.
      * rewrite E. easy.
      * rewrite length_append. pose proof (length_slice0 5000 output). lia.
  - destruct output as [|c rest]; [easy|]. split; [easy|]. lia.
Qed.

End PageTextFacts.

(** ** Navigation *)

Module NavigateFacts.
Import Js JsString JsStringFacts Chrome ReconnectFacts AttachFacts Navigate.

Lemma with_protocol_has_protocol (url : string) :
  has_protocol (with_protocol url) = true.
Proof.
  unfold with_protocol. destruct (has_protocol url) eqn:E; [exact E|].
  unfold has_protocol, startsWith.
  now rewrite (prefix_app "https://" url), orb_true_r.
Qed.

Lemma ensureConnected_tab (cdp : Cdp) (st : ChromeClient) (cl : Client) :
  is_Some (currentTab st) ->
  fst (ensureConnected cdp st) = Ok cl ->
  is_Some (currentTab (snd (ensureConnected cdp st))).
Proof.
  intros [t Ht]. unfold ensureConnected.
  destruct (client st) as [c|]; [|discriminate].
  destruct (Runtime_evaluate_1 cdp c); [eauto|].
  rewrite Ht. destruct (reconnect cdp (id t)) as [[cl' tab]|]; simpl; eauto.
  discriminate.
Qed.

Lemma ensureConnected_coherent (cdp : Cdp) (st : ChromeClient) :
  coherent st -> coherent (snd (ensureConnected cdp st)).
Proof.
  intros Hst. unfold ensureConnected. destruct (client st) as [cl|]; [|exact Hst].
  destruct (Runtime_evaluate_1 cdp cl); [exact Hst|].
  destruct (currentTab st) as [cur|]; [|exact Hst].
  destruct (reconnect cdp (id cur)) as [[cl' tab]|err] eqn:E; simpl.
  - apply reconnect_client in E as ->. apply coherent_attached.
  - apply coherent_no_tab.
Qed.

Lemma ensureConnected_alive (cdp : Cdp) (st : ChromeClient) (cl : Client) :
  client st = Some cl ->
  Runtime_evaluate_1 cdp cl = Ok tt ->
  ensureConnected cdp st = (Ok cl, st).
Proof. intros Hc Hp. unfold ensureConnected. now rewrite Hc, Hp. Qed.

(** X24: from coherent fields with a tab remembered, [navigate] keeps the
    fields coherent.  After its call of [ensureConnected] it changes
    neither the connection nor the id of the remembered tab, only that
    tab's title and URL; so the id is the one of before when the
    connection is alive, and otherwise the id of the tab that
    [ensureConnected] reconnected to, which is another one when the id
    of before is no longer listed.  When it answers, the answer names
    the URL navigated to, which starts with [http://] or [https://] and
    is the URL given when that one does; and the answer is the same
    whether the load event fired or the timeout of 15 s won. *)
Theorem navigate_outcome (cdp : Cdp) (nav : NavCdp) (url : string)
  (st : ChromeClient) :
  coherent st ->
  is_Some (currentTab st) ->
  exists r st',
    navigate cdp nav url st = Some (r, st') /\
    coherent st' /\
    client st' = client (snd (ensureConnected cdp st)) /\
    id <$> currentTab st' = id <$> currentTab (snd (ensureConnected cdp st)) /\
    (forall cl, client st = Some cl -> Runtime_evaluate_1 cdp cl = Ok tt ->
       client st' = client st /\
       id <$> currentTab st' = id <$> currentTab st) /\
    (forall msg, r = Ok msg ->
       msg = "Navigated to: " +:+ with_protocol url /\
       has_protocol (with_protocol url) = true /\
       (has_protocol url = true -> with_protocol url = url) /\
       is_Some (currentTab st')) /\
    (forall answer,
       navigate cdp
         (mkNavCdp (Page_navigate nav) (fun _ => answer) (evaluate_title_url nav))
         url st = Some (r, st')).
Proof.
  intros Hst Htab.
  assert (Halive : forall st', 
            client st' = client (snd (ensureConnected cdp st)) ->
            id <$> currentTab st' = id <$> currentTab (snd (ensureConnected cdp st)) ->
            forall cl, client st = Some cl -> Runtime_evaluate_1 cdp cl = Ok tt ->
              client st' = client st /\
              id <$> currentTab st' = id <$> currentTab st).
  { intros st' Hc Hi cl Hcl Hp.
    rewrite (ensureConnected_alive cdp st cl Hcl Hp) in Hc, Hi. now split. }
  unfold navigate.
  pose proof (ensureConnected_coherent cdp st Hst) as Hco.
  pose proof (ensureConnected_tab cdp st) as Hsome.
  revert Halive.
  destruct (ensureConnected cdp st) as [[cl|err] st1]; simpl in *; intros Halive.
  2:{ exists (Throw err), st1. split; [reflexivity|]. split; [exact Hco|].
      split; [reflexivity|]. split; [reflexivity|].
      split; [now apply Halive|]. split; easy. }
  specialize (Hsome cl Htab eq_refl).
  destruct (Page_navigate nav cl (with_protocol url)) as [[]|err].
  2:{ exists (Throw err), st1. split; [reflexivity|]. split; [exact Hco|].
      split; [reflexivity|]. split; [reflexivity|].
      split; [now apply Halive|]. split; easy. }
  assert (Hmsg : forall msg : string,
            Ok ("Navigated to: " +:+ with_protocol url) = Ok msg ->
            msg = "Navigated to: " +:+ with_protocol url /\
            has_protocol (with_protocol url) = true /\
            (has_protocol url = true -> with_protocol url = url)).
  { intros msg [= <-]. split; [reflexivity|].
    split; [apply with_protocol_has_protocol|].
    unfold with_protocol. now intros ->. }
  destruct (evaluate_title_url nav cl) as [[[info_title info_url]|]|err].
  - destruct Hsome as [tab Ht]. rewrite Ht.
    eexists _, _. split.
    { destruct (loadEventFired_or_timeout nav cl); reflexivity. }
    split.
    { intros t [= <-]. simpl. now apply Hco. }
    split; [reflexivity|]. split; [reflexivity|].
    split; [apply Halive; [reflexivity|now rewrite Ht]|].
    split.
    { intros msg Hm. destruct (Hmsg msg Hm) as (? & ? & ?).
      repeat split; try assumption. simpl. eauto. }
    intros answer. now destruct answer.
  - exists (Ok ("Navigated to: " +:+ with_protocol url)), st1. split.
    { destruct (loadEventFired_or_timeout nav cl); reflexivity. }
    split; [exact Hco|].
    split; [reflexivity|]. split; [reflexivity|].
    split; [now apply Halive|]. split.
    { intros msg Hm. destruct (Hmsg msg Hm) as (? & ? & ?).
      repeat split; assumption. }
    intros answer. now destruct answer.
  - exists (Throw err), st1. split.
    { destruct (loadEventFired_or_timeout nav cl); reflexivity. }
    split; [exact Hco|].
    split; [reflexivity|]. split; [reflexivity|].
    split; [now apply Halive|]. split; [easy|].
    intros answer. now destruct answer.
Qed.

Definition nav_ok : NavCdp :=
  mkNavCdp (fun _ _ => Ok tt) (fun _ => Throw (Error "timeout"))
    (fun _ => Ok (Some ("Example Domain", "https://example.com/"))).

Lemma navigate_outcome_witness :
  exists r st',
    navigate (cdp_with targets_AB) nav_ok "example.com" attached_B
    = Some (r, st') /\
    coherent st' /\
    client st' = client (snd (ensureConnected (cdp_with targets_AB) attached_B)) /\
    id <$> currentTab st'
    = id <$> currentTab (snd (ensureConnected (cdp_with targets_AB) attached_B)) /\
    (forall cl, client attached_B = Some cl ->
       Runtime_evaluate_1 (cdp_with targets_AB) cl = Ok tt ->
       client st' = client attached_B /\
       id <$> currentTab st' = id <$> currentTab attached_B) /\
    (forall msg, r = Ok msg ->
       msg = "Navigated to: " +:+ with_protocol "example.com" /\
       has_protocol (with_protocol "example.com") = true /\
       (has_protocol "example.com" = true ->
        with_protocol "example.com" = "example.com") /\
       is_Some (currentTab st')) /\
    (forall answer,
       navigate (cdp_with targets_AB)
         (mkNavCdp (Page_navigate nav_ok) (fun _ => answer)
            (evaluate_title_url nav_ok))
         "example.com" attached_B = Some (r, st')).
Proof.
  apply (navigate_outcome (cdp_with targets_AB) nav_ok "example.com" attached_B).
  - intros t H. injection H as <-. reflexivity.
  - exists tabB. reflexivity.
Defined.

(** The tab [B2] is gone and the connection is dead: [ensureConnected]
    falls back to the first tab listed, and [navigate] goes on with
    that one. *)
Lemma navigate_after_fallback :
  navigate
    (cdp_with [mkTarget "A1" "page" "Inbox" "https://mail.example/" None])
    nav_ok "example.com" attached_B
  = Some (Ok "Navigated to: https://example.com",
          mkChrome (Some (mkClient "A1"))
            (Some (mkTab "A1" "Example Domain" "https://example.com/" None))).
Proof. reflexivity. Qed.

End NavigateFacts.

(** ** Element resolution of [type] *)

Module TypeIntoFacts.
Import Js JsString Click TypeInto.

(** The page has an element for the last step of the script. *)
Definition has_editor (page : Page) : Prop :=
  exists sel e, In sel editor_selectors /\ In e (elements page) /\
                matches page sel e = true.

Lemma first_match_None (page : Page) (sel : string) :
  first_match page sel = None <->
  forall e, In e (elements page) -> matches page sel e = false.
Proof.
  unfold first_match. split.
  - intros H e He. now apply (List.find_none _ _ H).
  - intros H. destruct (List.find _ _) as [e|] eqn:E; [|reflexivity].
    apply List.find_some in E as [He Hm]. rewrite (H e He) in Hm. discriminate.
Qed.

Lemma first_found_None (page : Page) (sels : list string) :
  first_found page sels = None <->
  forall sel e, In sel sels -> In e (elements page) ->
                matches page sel e = false.
Proof.
  induction sels as [|sel sels IH]; simpl; [easy|].
  destruct (first_match page sel) as [e0|] eqn:E.
  - split; [discriminate|]. intros H.
    apply List.find_some in E as [He Hm].
    rewrite (H sel e0) in Hm; [discriminate|now left|exact He].
  - rewrite IH. split.
    + intros H s e [<-|Hs] He; [|now apply H].
      now apply (proj1 (first_match_None page sel) E).
    + intros H s e Hs He. apply H; [now right|exact He].
Qed.

(** X25: the script of [type] finds no element exactly when all three steps
    fail: the descriptor is no valid selector or matches nothing, no
    input-like element has the lowercased descriptor in its placeholder,
    name, aria-label, type or role, and the page has no editor element.
    So on a page with an editor element every descriptor resolves. *)
Theorem resolve_none_iff (page : Page) (selectorOrText : string) :
  resolve page selectorOrText = None <->
  (selector_valid page selectorOrText = true ->
   forall e, In e (elements page) -> matches page selectorOrText e = false) /\
  (forall inp, In inp (elements page) ->
               matches page typeable_selector inp = true ->
               input_matches selectorOrText inp = false) /\
  ~ has_editor page.
Proof.
  unfold resolve, querySelector.
  assert (Hsel :
    match (if selector_valid page selectorOrText
           then Ok (List.find (matches page selectorOrText) (elements page))
           else Throw (Error "SyntaxError")) with
    | Ok found => found
    | Throw _ => None
    end = None <->
    (selector_valid page selectorOrText = true ->
     forall e, In e (elements page) -> matches page selectorOrText e = false)).
  { destruct (selector_valid page selectorOrText); [|easy].
    rewrite <- (first_match_None page selectorOrText). unfold first_match.
    split; [auto|]. intros H. now apply H. }
  assert (Hinp :
    List.find (input_matches selectorOrText)
      (querySelectorAll page typeable_selector) = None <->
    (forall inp, In inp (elements page) ->
                 matches page typeable_selector inp = true ->
                 input_matches selectorOrText inp = false)).
  { unfold querySelectorAll. split.
    - intros H inp He Hm. apply (List.find_none _ _ H).
      apply List.filter_In. now split.
    - intros H.
      destruct (List.find (input_matches selectorOrText)
                  (List.filter (matches page typeable_selector) (elements page)))
        as [e|] eqn:E; [|reflexivity].
      apply List.find_some in E as [He Hm].
      apply List.filter_In in He as [He Ht].
      rewrite (H e He Ht) in Hm. discriminate. }
  assert (Hed : first_found page editor_selectors = None <-> ~ has_editor page).
  { rewrite first_found_None. unfold has_editor. split.
    - intros H (sel & e & Hs & He & Hm). rewrite (H sel e Hs He) in Hm.
      discriminate.
    - intros H sel e Hs He. destruct (matches page sel e) eqn:Hm; [|reflexivity].
      destruct H. now exists sel, e. }
  destruct (match (if selector_valid page selectorOrText then _ else _) with
            | Ok found => found | Throw _ => None end) as [e|].
  - split; [discriminate|]. intros (H & _). now apply Hsel in H.
  - destruct (List.find (input_matches selectorOrText) _) as [e|].
    + split; [discriminate|]. intros (_ & H & _). now apply Hinp in H.
    + rewrite Hed. split.
      * intros H. split; [now apply Hsel|]. split; [now apply Hinp|exact H].
      * now intros (_ & _ & H).
Qed.

End TypeIntoFacts.

(** ** The tool-call counter, the context window and the wait ceiling *)

Module BoundFacts.
Import Js JsString JsNum Session SessionFacts Tools Orchestrator OrchestratorFacts.

(** X26: [processResponse] never ends with the counter at or above the
    threshold: when a batch brings it there, the compaction resets it
    before anything else is sent. *)
Theorem processResponse_counter_below_threshold
  (executeTool : list Event -> string -> gmap string jsval -> string)
  (gemini : list Event -> outcome GeminiResponse)
  (ctrl_c : list Event -> nat) (now_iso : list Event -> string)
  (getWorkingDir : string)
  (formatForContext : list MemoryEntry -> list Event -> string)
  (stringify_call : string -> gmap string jsval -> string)
  (stringify : string -> string)
  (fuel : nat) (response : GeminiResponse) (st : CLI) :
  (toolCallCount st < COMPACT_THRESHOLD)%nat ->
  (toolCallCount
     (snd (processResponse executeTool gemini ctrl_c now_iso getWorkingDir
             formatForContext stringify_call stringify fuel response st))
   < COMPACT_THRESHOLD)%nat.
Proof.
  apply (processResponse_follows executeTool gemini ctrl_c now_iso
           getWorkingDir formatForContext stringify_call stringify).
Qed.

Lemma processResponse_counter_below_threshold_witness :
  (toolCallCount
     (snd (demo_processResponse 0 3 (FunctionCalls batch5 None) (turn_state 9)))
   < COMPACT_THRESHOLD)%nat.
Proof.
  apply (processResponse_counter_below_threshold demo_executeTool demo_gemini
           (ctrl_c_during 0) demo_now "/work" demo_memory demo_stringify_call
           demo_stringify 3 (FunctionCalls batch5 None) (turn_state 9)).
  vm_compute. lia.
Defined.

(** X27: for a positive [contextTurns], the entries handed to the model are
    at most [2 * contextTurns], plus the first entry when it is a system
    entry. *)
Theorem recentEntries_bounded (contextTurns : Z) (entries : list LogEntry) :
  0 < contextTurns ->
  Z.of_nat (length (recentEntries (Int contextTurns) entries))
  <= contextTurns * 2 + 1.
Proof. apply recentEntries_positive_length. Qed.

Lemma recentEntries_bounded_witness :
  Z.of_nat (length (recentEntries (Int 1)
                      [sample_system; sample_user; sample_model; sample_user;
                       sample_model]))
  <= 1 * 2 + 1.
Proof.
  apply (recentEntries_bounded 1
           [sample_system; sample_user; sample_model; sample_user; sample_model]).
  lia.
Defined.

(** X28: whatever [ms] the model asks for, the duration that [executeTool]
    hands to [chrome.wait] is NaN or at most 30000; there is no lower
    bound. *)
Theorem chrome_wait_capped {W : Type} (B : Backends (W:=W))
  (args : gmap string jsval) (w : W) :
  exists ms,
    dispatch B "chrome_wait" args w = chrome_wait B ms w /\
    (ms = NaN \/ exists z, ms = Int z /\ z <= 30000).
Proof.
  exists (Math_min (ToNumber (get args "ms")) 30000). split; [reflexivity|].
  destruct (ToNumber (get args "ms")) as [|z]; simpl; [now left|].
  right. exists (Z.min z 30000). split; [reflexivity|lia].
Qed.

End BoundFacts.

(** ** The start of the agent *)

Module StartupFacts.
Import Js JsString JsNum Session Orchestrator OrchestratorFacts Startup.

Lemma recentEntries_Forall (P : LogEntry -> Prop) (contextTurns : jsint)
  (entries : list LogEntry) :
  Forall P entries -> Forall P (recentEntries contextTurns entries).
Proof.
  intros H. unfold recentEntries.
  destruct (le_nat _ _); [exact H|].
  apply Forall_app. split.
  - destruct H as [|e0 rest H0 _]; [constructor|].
    destruct (is_system e0); repeat constructor. exact H0.
  - unfold slice. now apply Forall_drop.
Qed.

(** A log of system entries gives an empty history. *)
Lemma toGeminiHistory_system_only (contextTurns : jsint)
  (entries : list LogEntry) :
  Forall (fun e => is_system e = true) entries ->
  toGeminiHistory contextTurns entries = [].
Proof.
  intros H. unfold toGeminiHistory.
  apply (recentEntries_Forall _ contextTurns) in H.
  assert (E : omap to_block (recentEntries contextTurns entries) = []).
  { induction H as [|e es He _ IH]; [reflexivity|].
    cbn [omap list_omap]. unfold to_block, is_system in *.
    destruct (role e); try discriminate. exact IH. }
  now rewrite E.
Qed.

Section Start.
Variable now_iso : list Event -> string.
Variable getWorkingDir : string.
Variable formatForContext : list MemoryEntry -> list Event -> string.
Variable contextTurns : jsint.
Variable JSON_parse : string -> option LogEntry.

Abbreviation start :=
  (start now_iso getWorkingDir formatForContext contextTurns JSON_parse).

(** X29: a new session (no log file, no entry in memory) logs system entries
    only: the start of the session and, when there are memories, their
    text.  The chat is then started on an empty history, so the memories
    logged at the start are not in what the model is given. *)
Theorem start_new_session_history_empty (st : CLI) :
  entries st = [] ->
  let st' := start None st in
  Forall (fun e => is_system e = true) (entries st') /\
  (1 <= length (entries st') <= 2)%nat /\
  trace st' = trace st ++ [EvStartChat (chats_started st) []] /\
  interrupted st' = false /\ processing st' = false.
Proof.
  intros He. unfold Startup.start, Jsonl.load. simpl. rewrite He. simpl.
  destruct (negb (String.eqb _ EmptyString)); simpl;
    rewrite toGeminiHistory_system_only by (repeat constructor);
    (repeat split; [repeat constructor|simpl; lia|simpl; lia]).
Qed.

End Start.

Definition demo_memories (_ : list MemoryEntry) (_ : list Event) : string :=
  "## Recent Memory (1 entries)".

Definition new_cli : CLI :=
  mkCLI None false false 0 EmptyString [] false [] [] 0 [].

Lemma start_new_session_history_empty_witness :
  Forall (fun e => is_system e = true)
    (entries (Startup.start demo_now "/work" demo_memories (Int 50)
                (fun _ => None) None new_cli)) /\
  (1 <= length (entries (Startup.start demo_now "/work" demo_memories (Int 50)
                           (fun _ => None) None new_cli)) <= 2)%nat /\
  trace (Startup.start demo_now "/work" demo_memories (Int 50)
           (fun _ => None) None new_cli)
  = trace new_cli ++ [EvStartChat (chats_started new_cli) []] /\
  interrupted (Startup.start demo_now "/work" demo_memories (Int 50)
                 (fun _ => None) None new_cli) = false /\
  processing (Startup.start demo_now "/work" demo_memories (Int 50)
                (fun _ => None) None new_cli) = false.
Proof.
  apply (start_new_session_history_empty demo_now "/work" demo_memories
           (Int 50) (fun _ => None) new_cli).
  reflexivity.
Defined.

End StartupFacts.

(** ** The order of the tool executions *)

Module BatchOrderFacts.
Import Js JsString Orchestrator OrchestratorFacts.

Section Turn.
Variable executeTool : list Event -> string -> gmap string jsval -> string.
Variable ctrl_c : list Event -> nat.
Variable now_iso : list Event -> string.
Variable stringify_call : string -> gmap string jsval -> string.

Abbreviation exec_call := (exec_call executeTool ctrl_c now_iso stringify_call).
Abbreviation run_calls := (run_calls executeTool ctrl_c now_iso stringify_call).

(** X30: for a batch whose calls can all be displayed (the loop body of
    the code stops with a TypeError at one that cannot), whatever the
    tools answer and whenever Ctrl+C arrives (each press at least two
    seconds after the one before): the loop over the batch executes a
    leading part of the calls, one after the other in the order given,
    and pushes one result per executed call under the name of the call;
    it ran to the end exactly when that part is the whole batch, and
    otherwise it stopped at a set interrupt flag. *)
Theorem run_calls_executes_a_prefix (calls : list Call) (st : CLI)
  (rs : list (string * string)) :
  forallb Display.displayable calls = true ->
  exists k : nat,
    (k <= length calls)%nat /\
    trace (run_calls calls st rs).1.2
    = trace st ++ (exec_event <$> take k calls) /\
    fst <$> (run_calls calls st rs).2
    = (fst <$> rs) ++ (name <$> take k calls) /\
    ((run_calls calls st rs).1.1 = true <-> k = length calls) /\
    ((run_calls calls st rs).1.1 = false ->
     interrupted (run_calls calls st rs).1.2 = true).
Proof.
  revert st rs. induction calls as [|c calls IH]; intros st rs Hd.
  - exists 0%nat. simpl. now rewrite !app_nil_r.
  - cbn [forallb] in Hd. apply andb_prop in Hd as [_ Hd].
    rewrite (run_calls_cons executeTool ctrl_c now_iso stringify_call).
    destruct (interrupted st) eqn:Hi.
    + exists 0%nat. simpl. rewrite !app_nil_r.
      split; [lia|]. split; [reflexivity|]. split; [reflexivity|].
      split; [split; [discriminate|lia]|]. intros _. exact Hi.
    + pose proof (exec_call_trace executeTool ctrl_c now_iso stringify_call c st)
        as Ht.
      destruct (exec_call c st) as [result st1]. simpl in Ht.
      destruct (IH st1 (rs ++ [(name c, result)]) Hd)
        as (k & Hk & T & R & F & I).
      exists (S k). split; [simpl; lia|]. split; [|split; [|split]].
      * rewrite T, Ht. simpl. now rewrite <- app_assoc.
      * rewrite R, fmap_app. simpl. now rewrite <- app_assoc.
      * rewrite F. simpl. split; [now intros ->|now intros [= ->]].
      * exact I.
Qed.

End Turn.

Lemma run_calls_executes_a_prefix_witness :
  exists k : nat,
    (k <= length batch5)%nat /\
    trace (Orchestrator.run_calls demo_executeTool (ctrl_c_during 2) demo_now
             demo_stringify_call batch5 (turn_state 0) []).1.2
    = trace (turn_state 0) ++ (exec_event <$> take k batch5) /\
    fst <$> (Orchestrator.run_calls demo_executeTool (ctrl_c_during 2) demo_now
               demo_stringify_call batch5 (turn_state 0) []).2
    = (fst <$> ([] : list (string * string))) ++ (name <$> take k batch5) /\
    ((Orchestrator.run_calls demo_executeTool (ctrl_c_during 2) demo_now
        demo_stringify_call batch5 (turn_state 0) []).1.1 = true
     <-> k = length batch5) /\
    ((Orchestrator.run_calls demo_executeTool (ctrl_c_during 2) demo_now
        demo_stringify_call batch5 (turn_state 0) []).1.1 = false ->
     interrupted (Orchestrator.run_calls demo_executeTool (ctrl_c_during 2)
                    demo_now demo_stringify_call batch5 (turn_state 0) []).1.2
     = true).
Proof.
  apply (run_calls_executes_a_prefix demo_executeTool (ctrl_c_during 2) demo_now
           demo_stringify_call batch5 (turn_state 0) []).
  reflexivity.
Defined.

End BatchOrderFacts.
